(** * sveltekit-superforms: error tree, taint engine and validation policy

    A shallow embedding of the error-reconciliation core of
    sveltekit-superforms 2.10.6 ([dist/errors.js], [dist/formData.js] and
    [dist/client/superForm.js]) together with the properties its
    specification states about it.  The helpers of [dist/traversal.js] and
    [dist/stringPath.js] are written after the specification, each marked
    as such.

    Objects are association lists in insertion order, a key being present
    at most once in a well-formed object ([wf_obj]).  Message arrays,
    booleans and data scalars sit at the leaves.  An explicit [undefined]
    value ([Undef]) is kept apart from an absent key, since the code tells
    them apart with the [in] operator.  The enumeration order of JS
    objects (integer-like keys first) is not modelled: objects enumerate
    in insertion order.

    Part IV holds further properties, read off the code: of
    [flattenErrors], [Tainted_isTainted], [validateForm], the function
    [Form_set] and [parseFormData], and of how the functions of the
    first parts work together. *)

From Stdlib Require Import String Ascii List Bool Arith ZArith Lia.
From Stdlib Require Import DecimalString Permutation.
Import ListNotations.

Set Implicit Arguments.
Local Open Scope string_scope.
Local Open Scope list_scope.

(* ================================================================= *)
(** * Part I: the program *)

(** ** Values *)

Module Tree.

(** The proofs below go by induction on paths: no induction scheme is
    asked for. *)
Unset Elimination Schemes.
Inductive tree (A : Type) : Type :=
| Undef : tree A
| Leaf : A -> tree A
| Node : list (string * tree A) -> tree A.
Set Elimination Schemes.

Arguments Undef {A}.
Arguments Leaf {A} _.
Arguments Node {A} _.

(** A JS object: its own enumerable properties, in insertion order. *)
Definition obj (A : Type) : Type := list (string * tree A).

(** A path as the traversal functions see it: every key through
    [String(key)]. *)
Definition path : Type := list string.

Section Fields.
Context {A : Type}.

(** [getField o k] is [None] exactly when [k in o] is false. *)
Fixpoint getField (o : obj A) (k : string) : option (tree A) :=
  match o with
  | [] => None
  | (k', v) :: r => if String.eqb k' k then Some v else getField r k
  end.

(** [k in o] *)
Definition hasKey (o : obj A) (k : string) : bool :=
  match getField o k with Some _ => true | None => false end.

(** [o[k]]: a missing property reads as [undefined]. *)
Definition prop (o : obj A) (k : string) : tree A :=
  match getField o k with Some v => v | None => Undef end.

(** [o[k] = v]: an existing property keeps its place, a new one is added
    last. *)
Fixpoint setField (o : obj A) (k : string) (v : tree A) : obj A :=
  match o with
  | [] => [(k, v)]
  | (k', v') :: r =>
      if String.eqb k' k then (k', v) :: r else (k', v') :: setField r k v
  end.

(** [Array.isArray(v)]: the arrays of these trees are their leaves. *)
Definition isArray (v : tree A) : bool :=
  match v with Leaf _ => true | _ => false end.

(** [v === undefined] *)
Definition isUndef (v : tree A) : bool :=
  match v with Undef => true | _ => false end.

(** Keys of an object are pairwise distinct, at every depth. *)
Fixpoint keys_distinct (ks : list string) : bool :=
  match ks with
  | [] => true
  | k :: r => negb (existsb (String.eqb k) r) && keys_distinct r
  end.

Fixpoint wf_tree (t : tree A) : bool :=
  match t with
  | Node fs =>
      keys_distinct (map fst fs) && forallb (fun kv => wf_tree (snd kv)) fs
  | _ => true
  end.

Definition wf_obj (o : obj A) : bool := wf_tree (Node o).

End Fields.

(** Scalars of a data tree.  A [Date] and a [File] are objects: each
    carries the identity [===] compares, a date also its instant. *)
Inductive scalar : Type :=
| SNull
| SBool (b : bool)
| SNum (z : Z)
| SStr (s : string)
| SDate (ref : nat) (instant : Z)
| SFile (ref : nat).

(** [a === b] on scalars. *)
Definition strictEq (a b : scalar) : bool :=
  match a, b with
  | SNull, SNull => true
  | SBool x, SBool y => Bool.eqb x y
  | SNum x, SNum y => Z.eqb x y
  | SStr x, SStr y => String.eqb x y
  | SDate r _, SDate r' _ => Nat.eqb r r'
  | SFile r, SFile r' => Nat.eqb r r'
  | _, _ => false
  end.

(** Truthiness of a scalar. *)
Definition truthy (a : scalar) : bool :=
  match a with
  | SNull => false
  | SBool b => b
  | SNum z => negb (Z.eqb z 0)
  | SStr s => negb (String.eqb s EmptyString)
  | SDate _ _ | SFile _ => true
  end.

(** The four trees of the engine.  An array of a data tree is the object
    of its indices: the traversals walk into it key by key.  An array of
    an error tree is a leaf: its list of messages. *)
Definition DataTree := obj scalar.
Definition ErrorTree := obj (list string).
Definition TaintedTree := obj bool.
Definition Shape := obj scalar.

End Tree.

Import Tree.

(** ** traversal.js *)

Module Traversal.

Section Generic.
Context {A : Type}.

(** What a traversal hands to its visitor: [{ parent, key, value }]. *)
Record PathData : Type := mkPathData {
  parent : obj A;
  key : string;
  value : tree A
}.

(** Modelled from the spec: [traversePath] of traversal.js, called
    without a visitor (spec 4.2, [exists]/[traverse]): walks the tree and
    yields [{parent, key, value}] for the last key; it fails when an
    intermediate segment is missing or is not a container, and on the
    empty path. *)
Fixpoint traversePath (o : obj A) (p : path) : option PathData :=
  match p with
  | [] => None
  | k :: rest =>
      match rest with
      | [] => Some (mkPathData o k (prop o k))
      | _ :: _ =>
          match getField o k with
          | Some (Node child) => traversePath child rest
          | _ => None
          end
      end
  end.

(** Modelled from the spec: [pathExists] of traversal.js (spec 4.2,
    [exists(tree, path) -> {parent, key, value} | undefined]). *)
Definition pathExists (o : obj A) (p : path) : option PathData :=
  traversePath o p.

(** Modelled from the spec: the visitor of [setPaths] of traversal.js
    (spec 4.2): the object a writing walk goes into below key [k] is the
    one found there, or a fresh one. *)
Definition childOf (o : obj A) (k : string) : obj A :=
  match getField o k with Some (Node c) => c | _ => [] end.

(** Modelled from the spec: one round of the loop of [setPaths] of
    traversal.js (spec 4.2): intermediate containers are created as
    needed, a missing, undefined or non-container intermediate value
    giving way to a fresh object, and the leaf is set to what the updater
    returns for [(path, {parent, key, value})].  Nothing is written for
    the empty path. *)
Fixpoint setPath (o : obj A) (p : path) (f : PathData -> tree A) : obj A :=
  match p with
  | [] => o
  | k :: rest =>
      match rest with
      | [] => setField o k (f (mkPathData o k (prop o k)))
      | _ :: _ => setField o k (Node (setPath (childOf o k) rest f))
      end
  end.

(** Modelled from the spec: [setPaths(tree, paths, valueOrUpdater)] of
    traversal.js, with an updater. *)
Definition setPaths (o : obj A) (ps : list path)
    (f : path -> PathData -> tree A) : obj A :=
  fold_left (fun acc p => setPath acc p (f p)) ps o.

(** Modelled from the spec: [setPaths(tree, paths, value)] of
    traversal.js, with a literal value. *)
Definition setPathsTo (o : obj A) (ps : list path) (v : tree A) : obj A :=
  setPaths o ps (fun _ _ => v).

(** Modelled from the spec: [traversePaths] of traversal.js (spec 4.2,
    [traverseAll]): every node below the root, depth first, a node before
    what is below it, each with its full path; arrays are leaves and are
    not descended into. *)
Fixpoint traverseTree (t : tree A) : list (path * tree A) :=
  match t with
  | Node fs =>
      flat_map (fun '(k, v) =>
                  ([k], v) :: map (fun '(p, w) => (k :: p, w)) (traverseTree v))
               fs
  | _ => []
  end.

(** Modelled from the spec: [traversePaths(parent, visitor)] of
    traversal.js, as the list of what the visitor is called with. *)
Definition traversePaths (o : obj A) : list (path * tree A) :=
  traverseTree (Node o).

(** Modelled from the spec: [isLeaf] of the data a traversal of
    traversal.js hands over: a value that is not a container. *)
Definition isLeaf (v : tree A) : bool :=
  match v with Node _ => false | _ => true end.

End Generic.

Definition path_eqb (p q : path) : bool :=
  if list_eq_dec string_dec p q then true else false.

(** Modelled from the spec: paths are equal when their keys are (spec
    3); the diff keeps the first occurrence of each. *)
Fixpoint dedupe (seen : list path) (ps : list path) : list path :=
  match ps with
  | [] => []
  | p :: r =>
      if existsb (path_eqb p) seen then dedupe seen r
      else p :: dedupe (p :: seen) r
  end.

(** Modelled from the spec: the value equality of [comparePaths] (spec
    4.2): a date by its instant, a file by reference, every other scalar
    by value. *)
Definition sameScalar (a b : scalar) : bool :=
  match a, b with
  | SDate _ t, SDate _ t' => Z.eqb t t'
  | _, _ => strictEq a b
  end.

Definition sameValue (v w : tree scalar) : bool :=
  match v, w with
  | Undef, Undef => true
  | Leaf a, Leaf b => sameScalar a b
  | _, _ => false
  end.

(** Modelled from the spec: one direction of [comparePaths]: the leaf
    paths of [a] whose value is not found, or differs, in [b]. *)
Definition checkPaths (a b : DataTree) : list path :=
  map fst
    (filter (fun '(p, v) =>
               isLeaf v &&
               match traversePath b p with
               | None => true
               | Some d => negb (sameValue v (value d))
               end)
            (traversePaths a)).

(** Modelled from the spec: [comparePaths(newObj, oldObj)] of
    traversal.js (spec 4.2): every leaf path whose value differs, depth
    first, in field order; the leaves of the new tree first, then those
    of the old one, each path once. *)
Definition comparePaths (newObj oldObj : DataTree) : list path :=
  dedupe [] (checkPaths newObj oldObj ++ checkPaths oldObj newObj).

End Traversal.

Import Traversal.

(** ** stringPath.js *)

Module StringPath.

Definition isDigit (c : ascii) : bool :=
  let n := nat_of_ascii c in (48 <=? n)%nat && (n <=? 57)%nat.

(** [/^\d+$/.test(s)] *)
Definition allDigits (s : string) : bool :=
  negb (String.eqb s EmptyString) && forallb isDigit (list_ascii_of_string s).

(** Modelled from the spec: [mergePath] of stringPath.js (spec 4.1,
    [merge]): segments joined with a dot, a numeric segment in bracket
    form. *)
Definition mergePath (p : path) : string :=
  fold_left
    (fun acc k =>
       if allDigits k then acc ++ "[" ++ k ++ "]"
       else if String.eqb acc EmptyString then k
       else acc ++ "." ++ k)%string
    p EmptyString.

Definition isSeparator (c : ascii) : bool :=
  Ascii.eqb c "." || Ascii.eqb c "[" || Ascii.eqb c "]".

Fixpoint splitOn (cur : string) (s : string) : list string :=
  match s with
  | EmptyString => [cur]
  | String c r =>
      if isSeparator c then cur :: splitOn EmptyString r
      else splitOn (cur ++ String c EmptyString)%string r
  end.

(** Modelled from the spec: [splitPath] of stringPath.js (spec 4.1,
    [split]): splits on dots and brackets; empty segments are left out. *)
Definition splitPath (s : string) : path :=
  filter (fun k => negb (String.eqb k EmptyString)) (splitOn EmptyString s).

End StringPath.

Import StringPath.

(** ** errors.js *)

Module Errors.

(** What a call raises. *)
Inductive exn : Type :=
| SuperFormError (msg : string)
| TypeError (msg : string)
| ReferenceError (msg : string).

(** How a call ends.  [ArrayAsObject] stands for the runs in which the
    code goes on to use a message array as a container (a JS array takes
    named properties): the resulting value is not an [ErrorTree]. *)
Inductive outcome (A : Type) : Type :=
| Ok (a : A)
| Throw (e : exn)
| ArrayAsObject.

Arguments Ok {A} _.
Arguments Throw {A} _.
Arguments ArrayAsObject {A}.

Definition bind {A B : Type} (x : outcome A) (f : A -> outcome B) : outcome B :=
  match x with
  | Ok a => f a
  | Throw e => Throw e
  | ArrayAsObject => ArrayAsObject
  end.

(** A path segment of a validation issue: a string or a number. *)
Inductive seg : Type :=
| SegStr (s : string)
| SegNum (n : Z).

(** [String(p)] *)
Definition segString (p : seg) : string :=
  match p with
  | SegStr s => s
  | SegNum n => NilZero.string_of_int (Z.to_int n)
  end.

(** [!p] *)
Definition segFalsy (p : seg) : bool :=
  match p with
  | SegStr s => String.eqb s EmptyString
  | SegNum n => Z.eqb n 0
  end.

(** [{ path, message }]; [None] is a path that is [null] or [undefined]. *)
Record ValidationIssue : Type := mkIssue {
  issue_path : option (list seg);
  issue_message : string
}.

(** [/^\d$/.test(s)] *)
Definition isOneDigit (s : string) : bool :=
  match s with
  | String c EmptyString => isDigit c
  | _ => false
  end.

(** [/\D/.test(s)] *)
Definition hasNonDigit (s : string) : bool :=
  existsb (fun c => negb (isDigit c)) (list_ascii_of_string s).

(** [String(path[path.length - 1])], the string ["undefined"] for the
    empty path. *)
Definition lastSegString (p : list seg) : string :=
  match rev p with
  | [] => "undefined"
  | s :: _ => segString s
  end.

(** Truthiness of [pathExists(shape, p)?.value]. *)
Definition shapeValueTruthy (shape : Shape) (p : path) : bool :=
  match pathExists shape p with
  | None => false
  | Some d =>
      match value d with
      | Undef => false
      | Leaf a => truthy a
      | Node _ => true
      end
  end.

(** [addFormLevelError] inside [mapErrors].  No [ErrorTree] holds a
    string at [_errors], so the branch that wraps a string is not
    modelled. *)
Definition addFormLevelError (output : ErrorTree) (message : string)
    : outcome ErrorTree :=
  let output1 :=
    if hasKey output "_errors" then output
    else setField output "_errors" (Leaf []) in
  match prop output1 "_errors" with
  | Leaf l => Ok (setField output1 "_errors" (Leaf (l ++ [message])))
  | _ => Throw (SuperFormError "Form-level error was not an array.")
  end.

(** The two branches that store a message at [{ parent, key }]. *)
Definition addObjectError (parent : ErrorTree) (key message : string)
    : outcome ErrorTree :=
  let parent1 :=
    if hasKey parent key then parent else setField parent key (Node []) in
  match prop parent1 key with
  | Node o =>
      if hasKey o "_errors" then
        match prop o "_errors" with
        | Leaf l =>
            Ok (setField parent1 key
                  (Node (setField o "_errors" (Leaf (l ++ [message])))))
        | _ => Throw (TypeError "parent[key]._errors.push is not a function")
        end
      else Ok (setField parent1 key (Node (setField o "_errors" (Leaf [message]))))
  | Leaf _ => ArrayAsObject
  | Undef =>
      Throw (TypeError "Cannot use 'in' operator to search for '_errors' in undefined")
  end.

Definition addLeafError (parent : ErrorTree) (key message : string)
    : outcome ErrorTree :=
  if hasKey parent key then
    match prop parent key with
    | Leaf l => Ok (setField parent key (Leaf (l ++ [message])))
    | _ => Throw (TypeError "parent[key].push is not a function")
    end
  else Ok (setField parent key (Leaf [message])).

(** [traversePath(output, error.path, visitor)] followed by the store at
    the leaf it yields.  The visitor of [mapErrors] puts a fresh object
    where the value is [undefined] and goes on into [parent[key]].  The
    result is [None] where [traversePath] yields no leaf (the empty
    path). *)
Fixpoint storeAt (leafStore : ErrorTree -> string -> outcome ErrorTree)
    (o : ErrorTree) (p : path) : outcome (option ErrorTree) :=
  match p with
  | [] => Ok None
  | k :: rest =>
      match rest with
      | [] => bind (leafStore o k) (fun o' => Ok (Some o'))
      | _ :: _ =>
          match prop o k with
          | Leaf _ => ArrayAsObject
          | v =>
              let child := match v with Node c => c | _ => [] end in
              bind (storeAt leafStore child rest)
                (fun r =>
                   match r with
                   | None => Ok None
                   | Some child' => Ok (Some (setField o k (Node child')))
                   end)
          end
      end
  end.

(** The form-level test: [!error.path || (error.path.length == 1 &&
    !error.path[0])]. *)
Definition isFormLevel (error : ValidationIssue) : bool :=
  match issue_path error with
  | None => true
  | Some [s] => segFalsy s
  | Some _ => false
  end.

Definition isLastIndexNumeric (p : list seg) : bool :=
  isOneDigit (lastSegString p).

Definition isObjectError (shape : Shape) (p : list seg) : bool :=
  negb (isLastIndexNumeric p)
  && shapeValueTruthy shape
       (filter hasNonDigit (map segString p)).

(** The body of the loop of [mapErrors]. *)
Definition mapErrors_step (shape : Shape) (output : ErrorTree)
    (error : ValidationIssue) : outcome ErrorTree :=
  if isFormLevel error then addFormLevelError output (issue_message error)
  else
    let p := match issue_path error with Some p => p | None => [] end in
    let objectError := isObjectError shape p in
    let store :=
      if objectError then
        fun parent key => addObjectError parent key (issue_message error)
      else
        fun parent key => addLeafError parent key (issue_message error) in
    bind (storeAt store output (map segString p))
      (fun r =>
         match r with
         | None => addFormLevelError output (issue_message error)
         | Some output' => Ok output'
         end).

Fixpoint mapErrors_from (shape : Shape) (output : ErrorTree)
    (errors : list ValidationIssue) : outcome ErrorTree :=
  match errors with
  | [] => Ok output
  | error :: rest =>
      bind (mapErrors_step shape output error)
        (fun output' => mapErrors_from shape output' rest)
  end.

Definition mapErrors (errors : list ValidationIssue) (shape : Shape)
    : outcome ErrorTree :=
  mapErrors_from shape [] errors.

(** First traversal of [updateErrors]: every array of [Previous] is set
    to [undefined]. *)
Definition clearPrevious (Previous : ErrorTree) : ErrorTree :=
  fold_left
    (fun acc '(p, v) => if isArray v then setPathsTo acc [p] Undef else acc)
    (traversePaths Previous) Previous.

(** Second traversal of [updateErrors]: every array and every explicit
    [undefined] of [New] is written into [Previous] at its path. *)
Definition writeNew (New Previous : ErrorTree) : ErrorTree :=
  fold_left
    (fun acc '(p, v) =>
       if negb (isArray v) && negb (isUndef v) then acc
       else setPathsTo acc [p] v)
    (traversePaths New) Previous.

(** The two arguments of [updateErrors] are objects: references into a
    store.  Only the two roots are references; what hangs below them is
    kept by value. *)
Definition ref : Type := nat.
Definition heap : Type := ref -> ErrorTree.

Definition heapSet (h : heap) (r : ref) (t : ErrorTree) : heap :=
  fun r' => if Nat.eqb r' r then t else h r'.

(** [updateErrors(New, Previous, force)]: the object returned and the
    store it leaves. *)
Definition updateErrors (h : heap) (New Previous : ref) (force : bool)
    : ref * heap :=
  if force then (New, h)
  else
    let h1 := heapSet h Previous (clearPrevious (h Previous)) in
    let h2 := heapSet h1 Previous (writeNew (h1 New) (h1 Previous)) in
    (Previous, h2).

(** The tree [updateErrors] returns when its two arguments are different
    objects. *)
Definition updateErrorsTree (New Previous : ErrorTree) (force : bool)
    : ErrorTree :=
  if force then New else writeNew New (clearPrevious Previous).

End Errors.

Import Errors.

(** ** client/superForm.js *)

Module SuperForm.

Inductive ValidationMethod : Type :=
| Auto | OnInput | OnBlur | OnSubmit | SubmitOnly.

(** The [taint] option of [Form.set]; ['ignore'] is the one the form
    itself passes when it applies data returned by the server. *)
Inductive TaintOption : Type :=
| TaintBool (b : bool)
| Untaint
| UntaintAll
| UntaintForm
| Ignore.

Inductive EventType : Type := InputEvent | BlurEvent.

(** What the code asks of [event.target]: whether it is an
    [HTMLInputElement] of type [file]. *)
Inductive Target : Type := FileInput | OtherTarget.

(** A form element of the page. *)
Definition Element : Type := nat.

(** The change event that [NextChange] collects.  A field that was never
    assigned reads as [undefined]: [None], or [false] for a flag. *)
Record ChangeEvent : Type := mkEvent {
  paths : list path;
  type : option EventType;
  immediate : bool;
  multiple : bool;
  formElement : option Element;
  target : option Target
}.

(** [{ paths }] *)
Definition pathsEvent (ps : list path) : ChangeEvent :=
  mkEvent ps None false false None None.

(** What a validation adapter answers. *)
Inductive Status : Type :=
| Success (data : DataTree)
| Failure (issues : list ValidationIssue).

Record Adapter : Type := mkAdapter {
  validate : DataTree -> Status;
  adapterShape : option Shape;
  isInitialValidator : bool;
  hasJsonSchema : bool
}.

(** [options.validators]: [undefined] or [false], ['clear'], or an
    adapter. *)
Inductive ValidatorsOption : Type :=
| NoValidators
| ClearValidators
| Validators (a : Adapter).

(** What the form does to its surroundings. *)
Inductive Effect : Type :=
| CallValidate (data : DataTree)
| ChangeEventTimer (event : ChangeEvent)
| ClientValidationTimer
| ClearCustomValidity (el : Element) (ps : list path)
| Tick.

(** The state the closures of [superForm] share: the options read here,
    the [Data] snapshots of the stores, the [Tainted] role, [NextChange]
    and [EnhancedForm]; [log] collects the effects, oldest first. *)
Record Engine : Type := mkEngine {
  validationMethod : ValidationMethod;
  validators : ValidatorsOption;
  customValidity : bool;
  Data_form : DataTree;
  Data_errors : ErrorTree;
  Data_shape : option Shape;
  Tainted_state : option TaintedTree;
  Tainted_clean : DataTree;
  NextChange : option ChangeEvent;
  EnhancedForm : option Element;
  log : list Effect
}.

Definition withForm (s : Engine) (d : DataTree) : Engine :=
  mkEngine (validationMethod s) (validators s) (customValidity s) d
    (Data_errors s) (Data_shape s) (Tainted_state s) (Tainted_clean s)
    (NextChange s) (EnhancedForm s) (log s).

Definition withErrors (s : Engine) (e : ErrorTree) : Engine :=
  mkEngine (validationMethod s) (validators s) (customValidity s)
    (Data_form s) e (Data_shape s) (Tainted_state s) (Tainted_clean s)
    (NextChange s) (EnhancedForm s) (log s).

Definition withTainted (s : Engine) (t : option TaintedTree) : Engine :=
  mkEngine (validationMethod s) (validators s) (customValidity s)
    (Data_form s) (Data_errors s) (Data_shape s) t (Tainted_clean s)
    (NextChange s) (EnhancedForm s) (log s).

Definition withNextChange (s : Engine) (e : option ChangeEvent) : Engine :=
  mkEngine (validationMethod s) (validators s) (customValidity s)
    (Data_form s) (Data_errors s) (Data_shape s) (Tainted_state s)
    (Tainted_clean s) e (EnhancedForm s) (log s).

Definition emit (s : Engine) (e : Effect) : Engine :=
  mkEngine (validationMethod s) (validators s) (customValidity s)
    (Data_form s) (Data_errors s) (Data_shape s) (Tainted_state s)
    (Tainted_clean s) (NextChange s) (EnhancedForm s) (log s ++ [e]).

(** *** Errors *)

(** [Errors.set(value, options)]: the store takes what [updateErrors]
    returns for [value] and the [Data.errors] snapshot. *)
Definition Errors_set (s : Engine) (value : ErrorTree) (force : bool) : Engine :=
  withErrors s (updateErrorsTree value (Data_errors s) force).

(** [Errors.update(updater, options)] *)
Definition Errors_update (s : Engine) (updater : ErrorTree -> ErrorTree)
    (force : bool) : Engine :=
  withErrors s (updateErrorsTree (updater (Data_errors s)) (Data_errors s) force).

(** *** NextChange *)

Definition isFileInput (t : option Target) : bool :=
  match t with Some FileInput => true | _ => false end.

(** [NextChange_setHtmlEvent({ paths })] *)
Definition NextChange_setHtmlEvent (s : Engine) (ps : list path) : Engine :=
  let s1 :=
    match NextChange s with
    | Some nc =>
        if negb (Nat.eqb (length ps) 0) && isFileInput (target nc) then
          withNextChange s
            (Some (mkEvent ps (type nc) (immediate nc) (multiple nc)
                     (formElement nc) (target nc)))
        else withNextChange s (Some (pathsEvent ps))
    | None => withNextChange s (Some (pathsEvent ps))
    end in
  emit s1 ClientValidationTimer.

(** *** Tainted *)

(** [Tainted_hasBeenTainted(path)] *)
Definition Tainted_hasBeenTainted (s : Engine) (p : string) : bool :=
  match Tainted_state s with
  | None => false
  | Some tainted =>
      if String.eqb p EmptyString then true
      else
        match pathExists tainted (splitPath p) with
        | None => false
        | Some field => hasKey (parent field) (key field)
        end
  end.

Fixpoint Tainted__isObjectTainted (obj : tree bool) : bool :=
  match obj with
  | Undef => false
  | Leaf b => b
  | Node fs => existsb (fun kv => Tainted__isObjectTainted (snd kv)) fs
  end.

(** [path.join()] *)
Definition joinComma (p : path) : string := String.concat "," p.

(** [currentValue && cleanPath && currentValue.value === cleanPath.value] *)
Definition sameAsClean (newData clean : DataTree) (p : path) : bool :=
  match traversePath newData p, traversePath clean p with
  | Some currentValue, Some cleanPath =>
      match value currentValue, value cleanPath with
      | Undef, Undef => true
      | Leaf a, Leaf b => strictEq a b
      | _, _ => false
      end
  | _, _ => false
  end.

(** The updater [Tainted_update] hands to [setPaths]. *)
Definition taintUpdater (newData clean : DataTree) (newTainted : list string)
    (taintOptions : TaintOption) (p : path) (data : PathData (A:=bool))
    : tree bool :=
  if negb (existsb (String.eqb (joinComma p)) newTainted) then Undef
  else if sameAsClean newData clean p then Undef
  else
    match taintOptions with
    | TaintBool true => Leaf true
    | Untaint => Undef
    | _ => value data
    end.

(** [Tainted_update(newData, taintOptions)] *)
Definition Tainted_update (s : Engine) (newData : DataTree)
    (taintOptions : TaintOption) : Engine :=
  match taintOptions with
  | Ignore => s
  | _ =>
      let ps := comparePaths newData (Data_form s) in
      let newTainted := map joinComma (comparePaths newData (Tainted_clean s)) in
      let s1 :=
        match ps with
        | [] => s
        | _ :: _ =>
            match taintOptions with
            | UntaintAll | UntaintForm => withTainted s None
            | _ =>
                let currentlyTainted :=
                  match Tainted_state s with Some t => t | None => [] end in
                withTainted s
                  (Some (setPaths currentlyTainted ps
                           (taintUpdater newData (Tainted_clean s) newTainted
                              taintOptions)))
            end
        end in
      NextChange_setHtmlEvent s1 ps
  end.

(** [Form.set(value, { taint })]: the tainted state is updated, then the
    form store takes the new data. *)
Definition Form_set (s : Engine) (value : DataTree) (taint : TaintOption)
    : Engine :=
  withForm (Tainted_update s value taint) value.

(** The tainted value the code finds at a path: [undefined] for every
    path that leads nowhere. *)
Definition taintedAt (s : Engine) (p : path) : tree bool :=
  match Tainted_state s with
  | None => Undef
  | Some t =>
      match traversePath t p with
      | Some d => value d
      | None => Undef
      end
  end.

(** *** Form *)

(** [{ ...a, ...b }] *)
Definition spread {A : Type} (a b : obj A) : obj A :=
  fold_left (fun acc kv => setField acc (fst kv) (snd kv)) b a.

(** What [Form_validate] returns, as far as the form reads it. *)
Record SuperValidated : Type := mkValidated {
  valid : bool;
  errors : ErrorTree;
  data : DataTree
}.

(** One round of [Form_validate({ adapter })] once the validator is known
    to be an object; [recheck] is [opts.recheckValidData !== false]. *)
Definition Form_validateWith (s : Engine) (validator : Adapter) (recheck : bool)
    : Engine * outcome (option SuperValidated) :=
  if negb (isInitialValidator validator) && negb (hasJsonSchema validator) then
    (s, Throw (SuperFormError "Client validation adapter found in options.validators."))
  else
    let dataToValidate := Data_form s in
    let s1 := emit s (CallValidate dataToValidate) in
    match validate validator dataToValidate with
    | Failure issues =>
        let shape :=
          match adapterShape validator, Data_shape s with
          | Some sh, _ => sh
          | None, Some sh => sh
          | None, None => []
          end in
        (s1, bind (mapErrors issues shape)
               (fun errs =>
                  Ok (Some (mkValidated false errs
                              (spread (Data_form s) dataToValidate)))))
    | Success d =>
        if recheck then (s1, Ok None)
        else
          (s1, Ok (Some (mkValidated true []
                           (spread (spread (Data_form s) dataToValidate) d))))
    end.

(** [Form_validate({ adapter })]: valid data is validated a second time,
    in case the first round transformed it. *)
Definition Form_validate (s : Engine) (adapter : option Adapter)
    : Engine * outcome SuperValidated :=
  let validator :=
    match adapter with
    | Some a => Some a
    | None => match validators s with Validators a => Some a | _ => None end
    end in
  match validator with
  | None => (s, Ok (mkValidated true [] (spread (Data_form s) (Data_form s))))
  | Some v =>
      match Form_validateWith s v true with
      | (s1, Ok (Some r)) => (s1, Ok r)
      | (s1, Ok None) =>
          match Form_validateWith s1 v false with
          | (s2, Ok (Some r)) => (s2, Ok r)
          | (s2, Ok None) =>
              (s2, Ok (mkValidated true [] (spread (Data_form s) (Data_form s))))
          | (s2, Throw e) => (s2, Throw e)
          | (s2, ArrayAsObject) => (s2, ArrayAsObject)
          end
      | (s1, Throw e) => (s1, Throw e)
      | (s1, ArrayAsObject) => (s1, ArrayAsObject)
      end
  end.

(** [path.join('.')] *)
Definition joinDot (p : path) : string := String.concat "." p.

(** [error.path[error.path.length - 1] == '_errors'] *)
Definition isObjectErrorPath (p : path) : bool :=
  match rev p with
  | k :: _ => String.eqb k "_errors"
  | [] => false
  end.

(** [currentPath]: the path without a final [_errors]. *)
Definition currentPathOf (p : path) : path :=
  if isObjectErrorPath p then removelast p else p.

(** [isEventError], for an array [error.value]. *)
Definition isEventError (event : ChangeEvent) (p : path) : bool :=
  existsb
    (fun q =>
       if isObjectErrorPath p then
         match currentPathOf p, q with
         | c :: _, k :: _ => String.eqb c k
         | _, _ => false
         end
       else String.eqb (joinDot (currentPathOf p)) (joinDot q))
    (paths event).

(** The test for [multiple]: some error of the same parent is on
    display. *)
Definition siblingDisplayed (store : ErrorTree) (p : path) : bool :=
  match pathExists store (removelast p) with
  | Some errorPath =>
      match value errorPath with
      | Node fs => existsb (fun kv => isArray (snd kv)) fs
      | _ => false
      end
  | None => false
  end.

(** [previousError && previousError.key in previousError.parent] *)
Definition previousErrorExists (previous : ErrorTree) (p : path) : bool :=
  match pathExists previous p with
  | Some previousError => hasKey (parent previousError) (key previousError)
  | None => false
  end.

Definition isBlur (t : option EventType) : bool :=
  match t with Some BlurEvent => true | _ => false end.

Definition isInput (t : option EventType) : bool :=
  match t with Some InputEvent => true | _ => false end.

Definition isOnInput (m : ValidationMethod) : bool :=
  match m with OnInput => true | _ => false end.

(** Whether the visitor of [Form__displayNewErrors] calls [addError] for
    the array at [p] when [force] is not set: the tests in the order of
    the code. *)
Definition displaysError (s : Engine) (event : ChangeEvent) (p : path) : bool :=
  if isEventError event p && isOnInput (validationMethod s) then true
  else if immediate event && negb (multiple event) && isEventError event p then true
  else if multiple event && siblingDisplayed (Data_errors s) p then true
  else if previousErrorExists (Data_errors s) p then true
  else if isObjectErrorPath p then
    isOnInput (validationMethod s)
    || (isBlur (type event)
        && Tainted_hasBeenTainted s (mergePath (removelast p)))
  else isBlur (type event) && isEventError event p.

(** The [output] tree of [Form__displayNewErrors]. *)
Definition displayOutput (s : Engine) (errs : ErrorTree) (event : ChangeEvent)
    (force : bool) : ErrorTree :=
  fold_left
    (fun output '(p, v) =>
       if isArray v then
         if force || displaysError s event p then setPathsTo output [p] v
         else output
       else output)
    (traversePaths errs) [].

(** [Form__displayNewErrors(errors, event, force)].  The messages set on
    the elements of the page are not part of the state.  With [force]
    and [options.customValidity], [addError] reads [isEventError] before
    the visitor has initialised it. *)
Definition Form__displayNewErrors (s : Engine) (errs : ErrorTree)
    (event : ChangeEvent) (force : bool) : outcome Engine :=
  let s1 :=
    match formElement event, EnhancedForm s with
    | Some el, _ => emit s (ClearCustomValidity el (paths event))
    | None, Some el => emit s (ClearCustomValidity el (paths event))
    | None, None => s
    end in
  if force && customValidity s
     && existsb (fun pv => isArray (snd pv)) (traversePaths errs)
  then Throw (ReferenceError "Cannot access 'isEventError' before initialization")
  else Ok (Errors_set s1 (displayOutput s errs event force) false).

(** [Form_clientValidation(event, force, adapter)]: the state it leaves
    and what it resolves to; [None] is [undefined]. *)
Definition Form_clientValidation (s : Engine) (event : option ChangeEvent)
    (force : bool) (adapter : option Adapter)
    : Engine * outcome (option SuperValidated) :=
  let s1 :=
    match event with
    | Some ev =>
        let s0 :=
          match validators s with
          | ClearValidators =>
              Errors_update s (fun e => setPathsTo e (paths ev) Undef) false
          | _ => s
          end in
        emit s0 (ChangeEventTimer ev)
    | None => s
    end in
  let skipValidation :=
    if force then false
    else
      match validationMethod s with
      | OnSubmit | SubmitOnly => true
      | OnBlur => match event with Some ev => isInput (type ev) | None => false end
      | OnInput => match event with Some ev => isBlur (type ev) | None => false end
      | Auto => false
      end in
  let noValidators :=
    match validators s with Validators _ => false | _ => true end in
  match event with
  | None => (s1, Ok None)
  | Some ev =>
      if skipValidation || noValidators then
        match formElement ev, EnhancedForm s with
        | Some el, _ => (emit s1 (ClearCustomValidity el (paths ev)), Ok None)
        | None, Some el => (emit s1 (ClearCustomValidity el (paths ev)), Ok None)
        | None, None => (s1, Ok None)
        end
      else
        match Form_validate s1 adapter with
        | (s2, Ok result) =>
            let s3 :=
              if valid result && (immediate ev || negb (isInput (type ev)))
              then Form_set s2 (data result) Ignore
              else s2 in
            let s4 := emit s3 Tick in
            match Form__displayNewErrors s4 (errors result) ev force with
            | Ok s5 => (s5, Ok (Some result))
            | _ => (s4, Ok (Some result))
            end
        | (s2, Throw e) => (s2, Throw e)
        | (s2, ArrayAsObject) => (s2, ArrayAsObject)
        end
  end.

(** *** Submitting *)

(** [Math.ceil(a / b)] for a positive [b]. *)
Definition ceilDiv (a b : nat) : nat :=
  (a / b + if Nat.eqb (a mod b) 0 then 0 else 1)%nat.

(** The loop of [chunkSubstr]: [n] rounds are left and [o] is the
    offset; [str.substring(o, o + size)]. *)
Fixpoint chunkLoop (str : string) (size n o : nat) : list string :=
  match n with
  | O => []
  | S n' => String.substring o size str :: chunkLoop str size n' (o + size)
  end.

(** [chunkSubstr(str, size)]; a size of zero makes [new Array] raise a
    [RangeError]: [None]. *)
Definition chunkSubstr (str : string) (size : nat) : option (list string) :=
  if Nat.eqb size 0 then None
  else Some (chunkLoop str size (ceilDiv (String.length str) size) 0).

End SuperForm.

Import SuperForm.

(** ** formData.js *)

Module FormData.

(** What [request.formData()] raises: the class the code tests for and
    the message. *)
Record JsError : Type := mkError {
  isTypeError : bool;
  errorMessage : string
}.

(** [s.includes(pat)] *)
Fixpoint includes (s pat : string) : bool :=
  String.prefix pat s
  || match s with
     | EmptyString => false
     | String _ r => includes r pat
     end.

Section Parse.

(** The form data of a request and the parsed data are opaque here. *)
Variable FormDataT : Type.
Variable Parsed : Type.

(** [{ id, data, posted }] *)
Record ParsedForm : Type := mkParsed {
  id : option string;
  parsedData : option Parsed;
  posted : bool
}.

(** How [await request.formData()] ends. *)
Inductive BodyRead : Type :=
| Resolves (formData : FormDataT)
| Rejects (e : JsError).

(** How a call of this module ends. *)
Inductive Completion : Type :=
| Returns (r : ParsedForm)
| Throws (e : JsError).

(** [parseFormData] reads the schema through modules that are not part of
    this development. *)
Variable parseFormData : FormDataT -> Completion.

(** The entries of a [URLSearchParams], and the [FormData] that the loop
    of [parseSearchParams] fills with them. *)
Variable SearchParams : Type.
Variable toFormData : SearchParams -> FormDataT.

(** [tryParseFormData(request, schemaData, options)] *)
Definition tryParseFormData (request : BodyRead) : Completion :=
  match request with
  | Rejects e =>
      if isTypeError e && includes (errorMessage e) "already been consumed"
      then Throws e
      else Returns (mkParsed None None false)
  | Resolves formData => parseFormData formData
  end.

(** [parseSearchParams(data, schemaData, options)] *)
Definition parseSearchParams (data : SearchParams) : Completion :=
  match parseFormData (toFormData data) with
  | Returns output => Returns (mkParsed (id output) (parsedData output) false)
  | Throws e => Throws e
  end.

(** What [parseRequest] is given: a [FormData], a [URL] or
    [URLSearchParams], a [Request], a [RequestEvent], or anything else. *)
Inductive RequestData : Type :=
| IsFormData (formData : FormDataT)
| IsSearchParams (params : SearchParams)
| IsRequest (request : BodyRead)
| IsRequestEvent (request : BodyRead)
| IsOther (data : option Parsed).

(** [parseRequest(data, schemaData, options)] *)
Definition parseRequest (data : RequestData) : Completion :=
  match data with
  | IsFormData formData => parseFormData formData
  | IsSearchParams params => parseSearchParams params
  | IsRequest request => tryParseFormData request
  | IsRequestEvent request => tryParseFormData request
  | IsOther d => Returns (mkParsed None d false)
  end.

End Parse.

End FormData.

Import FormData.

(** ** errors.js, continued *)

Module Flatten.

(** An entry of [flattenErrors]: [{ path, messages }]. *)
Record FlatError : Type := mkFlat {
  flat_path : string;
  flat_messages : list string
}.

(** [_flattenErrors(errors, path)]: the entries that are [undefined] are
    left out, an array with a message gives one entry, and everything
    else is gone into; an empty array has no entries to go into. *)
Fixpoint flattenTree (errors : tree (list string)) (p : path)
    : list FlatError :=
  match errors with
  | Node fs =>
      flat_map
        (fun '(key, messages) =>
           match messages with
           | Undef => []
           | Leaf [] => []
           | Leaf (m :: ms) => [mkFlat (mergePath (p ++ [key])) (m :: ms)]
           | Node _ => flattenTree messages (p ++ [key])
           end)
        fs
  | _ => []
  end.

(** [flattenErrors(errors)] *)
Definition flattenErrors (errors : ErrorTree) : list FlatError :=
  flattenTree (Node errors) [].

End Flatten.

Import Flatten.

(** ** client/superForm.js, continued *)

Module SuperFormMore.

(** What [Tainted_isTainted] is called with: a boolean, a tainted tree, a
    path, or nothing. *)
Inductive TaintedArg : Type :=
| ArgBool (b : bool)
| ArgTree (t : tree bool)
| ArgPath (p : string)
| ArgNone.

(** [Tainted_isTainted(path)] *)
Definition Tainted_isTainted (s : Engine) (arg : TaintedArg) : bool :=
  match arg with
  | ArgBool b => b
  | ArgTree t => Tainted__isObjectTainted t
  | ArgPath p =>
      match Tainted_state s with
      | None => false
      | Some tainted =>
          if String.eqb p EmptyString
          then Tainted__isObjectTainted (Node tainted)
          else
            match pathExists tainted (splitPath p) with
            | Some field => Tainted__isObjectTainted (value field)
            | None => false
            end
      end
  | ArgNone =>
      match Tainted_state s with
      | None => false
      | Some tainted => Tainted__isObjectTainted (Node tainted)
      end
  end.

(** [Errors.clear()]: [Errors.set({})]. *)
Definition Errors_clear (s : Engine) : Engine := Errors_set s [] false.

(** [info.value instanceof File]; data trees hold no [FileList]. *)
Definition isFile (v : tree scalar) : bool :=
  match v with Leaf (SFile _) => true | _ => false end.

(** The visitor of the traversal in the function [Form_set], for the
    node [info]: a [File] is put into the new data where the new data
    has no key for it. *)
Definition keepFile (data : DataTree) (info : path * tree scalar) : DataTree :=
  let '(p, v) := info in
  if isFile v then
    match pathExists data p with
    | Some dataPath =>
        if hasKey (parent dataPath) (key dataPath) then data
        else setPathsTo data [p] v
    | None => setPathsTo data [p] v
    end
  else data.

Definition keepFilesOf (current data : DataTree) : DataTree :=
  fold_left keepFile (traversePaths current) data.

(** The function [Form_set(data, options)], which [rebind] calls; the
    name [Form_set] stands for the store method [Form.set] above. *)
Definition Form_setData (s : Engine) (data : DataTree) (taint : TaintOption)
    (keepFiles : bool) : Engine :=
  Form_set s (if keepFiles then keepFilesOf (Data_form s) data else data) taint.

(** [validateForm(opts)] of the object [superForm] returns: [update] is
    [opts.update], [schema] is [opts.schema].  The second component tells
    whether the timer that scrolls to the first error was set. *)
Definition validateForm (s : Engine) (update : bool) (schema : option Adapter)
    : Engine * bool * outcome SuperValidated :=
  match validators s, schema with
  | NoValidators, None =>
      (s, false,
       Throw (SuperFormError
                "options.validators or the schema option must be set to use the validateForm method."))
  | _, _ =>
      if update then
        let scroll := match EnhancedForm s with Some _ => true | None => false end in
        match Form_clientValidation s (Some (pathsEvent [])) true schema with
        | (s1, Ok (Some result)) => (s1, scroll, Ok result)
        | (s1, Ok None) =>
            let (s2, r) := Form_validate s1 schema in (s2, scroll, r)
        | (s1, Throw e) => (s1, false, Throw e)
        | (s1, ArrayAsObject) => (s1, false, ArrayAsObject)
        end
      else
        let (s1, r) := Form_validate s schema in (s1, false, r)
  end.

(** [Form_validate(opts)] with [opts.formData]: the data to validate is
    [opts.formData ?? Data.form]; [Form_validate] above is the case
    without it. *)
Definition Form_validateDataWith (s : Engine) (dataToValidate : DataTree)
    (validator : Adapter) (recheck : bool)
    : Engine * outcome (option SuperValidated) :=
  if negb (isInitialValidator validator) && negb (hasJsonSchema validator) then
    (s, Throw (SuperFormError "Client validation adapter found in options.validators."))
  else
    let s1 := emit s (CallValidate dataToValidate) in
    match validate validator dataToValidate with
    | Failure issues =>
        let shape :=
          match adapterShape validator, Data_shape s with
          | Some sh, _ => sh
          | None, Some sh => sh
          | None, None => []
          end in
        (s1, bind (mapErrors issues shape)
               (fun errs =>
                  Ok (Some (mkValidated false errs
                              (spread (Data_form s) dataToValidate)))))
    | Success d =>
        if recheck then (s1, Ok None)
        else
          (s1, Ok (Some (mkValidated true []
                           (spread (spread (Data_form s) dataToValidate) d))))
    end.

Definition Form_validateData (s : Engine) (formData : option DataTree)
    (adapter : option Adapter) : Engine * outcome SuperValidated :=
  let dataToValidate :=
    match formData with Some d => d | None => Data_form s end in
  let validator :=
    match adapter with
    | Some a => Some a
    | None => match validators s with Validators a => Some a | _ => None end
    end in
  match validator with
  | None => (s, Ok (mkValidated true [] (spread (Data_form s) dataToValidate)))
  | Some v =>
      match Form_validateDataWith s dataToValidate v true with
      | (s1, Ok (Some r)) => (s1, Ok r)
      | (s1, Ok None) =>
          match Form_validateDataWith s1 dataToValidate v false with
          | (s2, Ok (Some r)) => (s2, Ok r)
          | (s2, Ok None) =>
              (s2, Ok (mkValidated true [] (spread (Data_form s) dataToValidate)))
          | (s2, Throw e) => (s2, Throw e)
          | (s2, ArrayAsObject) => (s2, ArrayAsObject)
          end
      | (s1, Throw e) => (s1, Throw e)
      | (s1, ArrayAsObject) => (s1, ArrayAsObject)
      end
  end.

(** [opts.update] of [validate]: [true], [false], ['errors'] or
    ['value']. *)
Inductive UpdateOption : Type :=
| UpdateAll | UpdateNothing | UpdateErrors | UpdateValue.

(** The options of [validate(path, opts)]; [None] is a field that is not
    set.  [errorsOpt] is [opts.errors] once a string has been wrapped in
    an array; [valueOpt] is [Some] when ['value' in opts]. *)
Record ValidateOptions : Type := mkValidateOptions {
  updateOpt : option UpdateOption;
  taintOpt : option TaintOption;
  errorsOpt : option (list string);
  valueOpt : option (tree scalar)
}.

(** [error?.value] once the custom error has replaced what was found. *)
Definition errorValue (errs : ErrorTree) (p : path)
    (custom : option (list string)) : tree (list string) :=
  match pathExists errs p with
  | Some error =>
      match value error, custom with
      | Undef, _ => Undef
      | _, Some es => Leaf es
      | v, None => v
      end
  | None => Undef
  end.

(** [validate(path, opts)] of the object [superForm] returns: the state
    it leaves and the error it resolves to, [Undef] being [undefined].
    The name [validate] stands for the method of an adapter above. *)
Definition validatePath (s : Engine) (p : string) (opts : ValidateOptions)
    : Engine * outcome (tree (list string)) :=
  match validators s with
  | NoValidators =>
      (s, Throw (SuperFormError
                   "options.validators must be set to use the validate method."))
  | _ =>
      let update :=
        match updateOpt opts with Some u => u | None => UpdateAll end in
      let taint :=
        match taintOpt opts with Some t => t | None => TaintBool false end in
      let splittedPath := splitPath p in
      let '(s1, data) :=
        match valueOpt opts with
        | Some v =>
            match update with
            | UpdateAll | UpdateValue =>
                (Form_set s (setPathsTo (Data_form s) [splittedPath] v) taint,
                 None)
            | _ => (s, Some (setPathsTo (Data_form s) [splittedPath] v))
            end
        | None => (s, None)
        end in
      match Form_validateData s1 data None with
      | (s2, Ok result) =>
          let error := errorValue (errors result) splittedPath (errorsOpt opts) in
          let s3 :=
            match update with
            | UpdateAll | UpdateErrors =>
                Errors_update s2 (fun e => setPathsTo e [splittedPath] error)
                  false
            | _ => s2
            end in
          (s3, Ok error)
      | (s2, Throw e) => (s2, Throw e)
      | (s2, ArrayAsObject) => (s2, ArrayAsObject)
      end
  end.

End SuperFormMore.

Import SuperFormMore.

(** ** The JSON of a submit: client/superForm.js and formData.js *)

Module JsonSubmit.

(** An entry of a [FormData]: a string or a file. *)
Inductive FormDataEntry : Type :=
| EntryString (s : string)
| EntryFile (ref : nat) (size : nat).

(** A [FormData]: its entries in order, a name as often as it was
    appended. *)
Definition FormDataT : Type := list (string * FormDataEntry).

(** [formData.getAll(name)] *)
Definition fd_getAll (formData : FormDataT) (name : string)
    : list FormDataEntry :=
  map snd (filter (fun kv => String.eqb (fst kv) name) formData).

(** [formData.get(name)]: the first entry of that name. *)
Definition fd_get (formData : FormDataT) (name : string)
    : option FormDataEntry :=
  match fd_getAll formData name with
  | [] => None
  | e :: _ => Some e
  end.

(** [formData.has(name)] *)
Definition fd_has (formData : FormDataT) (name : string) : bool :=
  existsb (fun kv => String.eqb (fst kv) name) formData.

(** [formData.append(name, value)] *)
Definition fd_append (formData : FormDataT) (name : string)
    (e : FormDataEntry) : FormDataT :=
  formData ++ [(name, e)].

(** [formData.delete(name)] *)
Definition fd_delete (formData : FormDataT) (name : string) : FormDataT :=
  filter (fun kv => negb (String.eqb (fst kv) name)) formData.

(** [formData.set(name, value)]: the first entry of that name takes the
    value and the other ones go; a new name is appended. *)
Fixpoint fd_set (formData : FormDataT) (name : string) (e : FormDataEntry)
    : FormDataT :=
  match formData with
  | [] => [(name, e)]
  | (k, v) :: r =>
      if String.eqb k name then (k, e) :: fd_delete r name
      else (k, v) :: fd_set r name e
  end.

(** [formData.keys()] *)
Definition fd_keys (formData : FormDataT) : list string := map fst formData.

(** [String(entry)] *)
Definition entryString (e : FormDataEntry) : string :=
  match e with
  | EntryString s => s
  | EntryFile _ _ => "[object File]"
  end.

(** The entry as a value of a data tree. *)
Definition entryValue (e : FormDataEntry) : tree scalar :=
  match e with
  | EntryString s => Leaf (SStr s)
  | EntryFile r _ => Leaf (SFile r)
  end.

(** The end of the submit callback of [superFormEnhance] for
    [dataType: 'json']: the text [stringify(postData)] is cut by
    [chunkSubstr], [size] being [options.jsonChunkSize ?? 500000], and
    every chunk is appended as [__superform_json]; [None] where
    [chunkSubstr] raises. *)
Definition appendJson (submitData : FormDataT) (json : string) (size : nat)
    : option FormDataT :=
  match chunkSubstr json size with
  | Some chunks =>
      Some (fold_left
              (fun fd chunk => fd_append fd "__superform_json" (EntryString chunk))
              chunks submitData)
  | None => None
  end.

(** The form id is added when the data has none and [Data.formId] is not
    [undefined]. *)
Definition addFormId (submitData : FormDataT) (formId : option string)
    : FormDataT :=
  if fd_has submitData "__superform_id" then submitData
  else
    match formId with
    | Some i => fd_set submitData "__superform_id" (EntryString i)
    | None => submitData
    end.

(** What [parse] of devalue makes of a text: it throws, it yields an
    object, or it yields something [parseFormData] does not use ([null]
    or a value that is no object). *)
Inductive Devalued : Type :=
| ParseThrows
| ParsedObject (output : DataTree)
| ParsedOther.

(** [str.substring(n)] *)
Definition substringFrom (n : nat) (s : string) : string :=
  String.substring n (String.length s - n) s.

(** An array of entries as a value of a data tree: the object of its
    indices. *)
Definition entriesArray (es : list FormDataEntry) : tree scalar :=
  Node (combine
          (map (fun i => NilZero.string_of_uint (Nat.to_uint i))
             (seq 0 (length es)))
          (map entryValue es)).

(** The text [tryParseSuperJson] hands to [parse]. *)
Definition superJsonText (formData : FormDataT) : string :=
  String.concat EmptyString
    (map entryString (fd_getAll formData "__superform_json")).

(** The files of the form data put back into the parsed object. *)
Definition restoreFiles (formData : FormDataT) (output : DataTree)
    : DataTree :=
  let filePaths := fd_keys formData in
  let output1 :=
    fold_left
      (fun acc p =>
         match fd_get formData p with
         | Some e => setPathsTo acc [splitPath (substringFrom 17 p)] (entryValue e)
         | None => acc
         end)
      (filter (fun p => String.prefix "__superform_file_" p) filePaths)
      output in
  fold_left
    (fun acc p =>
       setPathsTo acc [splitPath (substringFrom 18 p)]
         (entriesArray (fd_getAll formData p)))
    (filter (fun p => String.prefix "__superform_files_" p) filePaths)
    output1.

Section ParseFormData.

(** [parse] of devalue, and [_parseFormData] with its schema and options,
    which returns the data or throws; the latter reads the schema through
    modules that are not part of this development. *)
Variable parse : string -> Devalued.
Variable parseFields : FormDataT -> DataTree + JsError.

(** [tryParseSuperJson()] inside [parseFormData]; [None] is [null]. *)
Definition tryParseSuperJson (formData : FormDataT) : option DataTree :=
  if fd_has formData "__superform_json" then
    match parse (superJsonText formData) with
    | ParsedObject output => Some (restoreFiles formData output)
    | _ => None
    end
  else None.

(** [parseFormData(formData, schemaData, options)] *)
Definition parseFormData (formData : FormDataT) : Completion DataTree :=
  let data := tryParseSuperJson formData in
  let id := option_map entryString (fd_get formData "__superform_id") in
  match data with
  | Some d => Returns (mkParsed id (Some d) true)
  | None =>
      match parseFields formData with
      | inl d => Returns (mkParsed id (Some d) true)
      | inr e => Throws DataTree e
      end
  end.

End ParseFormData.

End JsonSubmit.

Import JsonSubmit.

(* ================================================================= *)
(** * Part II: what the properties speak of *)

Module Lookup.

Section Defs.
Context {A : Type}.

(** The property a path leads to: [Some v] when the walk reaches the
    parent of the last key and that key is [in] the parent, [None]
    otherwise. *)
Definition valueAt (o : obj A) (p : path) : option (tree A) :=
  match pathExists o p with
  | Some d => getField (parent d) (key d)
  | None => None
  end.

(** The value the code finds at a path: [undefined] where the path leads
    nowhere. *)
Definition valueOrUndef (o : obj A) (p : path) : tree A :=
  match valueAt o p with Some v => v | None => Undef end.

(** [prefixb p q]: the path [p] is the beginning of [q]. *)
Fixpoint prefixb (p q : path) : bool :=
  match p, q with
  | [], _ => true
  | k :: p', j :: q' => String.eqb k j && prefixb p' q'
  | _ :: _, [] => false
  end.

(** The proper prefixes of a path, the empty one left out. *)
Fixpoint properPrefixes (p : path) : list path :=
  match p with
  | [] => []
  | k :: r =>
      match r with
      | [] => []
      | _ :: _ => [k] :: map (cons k) (properPrefixes r)
      end
  end.

(** Some proper prefix of [p] leads to a value of [o] that is not a
    container. *)
Definition leafAbove (o : obj A) (p : path) : bool :=
  existsb
    (fun q => match valueAt o q with Some v => isLeaf v | None => false end)
    (properPrefixes p).

(** The shape the traversals of [updateErrors] and of
    [Form__displayNewErrors] share: the nodes selected by [sel] are
    written, as [w] gives them, at their path. *)
Definition writes (sel : path -> tree A -> bool) (w : tree A -> tree A)
    (l : list (path * tree A)) (init : obj A) : obj A :=
  fold_left
    (fun acc qu => if sel (fst qu) (snd qu)
                   then setPathsTo acc [fst qu] (w (snd qu)) else acc)
    l init.

(** An updater that, for a given path, writes a value that is not a
    container or writes back the value it finds. *)
Definition gentle (f : path -> PathData (A:=A) -> tree A) (q : path) : Prop :=
  (forall d, isLeaf (f q d) = true) \/ (forall d, f q d = value d).

End Defs.

(** No path of [ps] other than [p] itself runs through [p]. *)
Definition noneBelow (p : path) (ps : list path) : bool :=
  forallb (fun q => negb (prefixb p q) || path_eqb q p) ps.

(** The string without its first [n] characters. *)
Fixpoint dropString (n : nat) (s : string) : string :=
  match n, s with
  | O, _ => s
  | S n', EmptyString => EmptyString
  | S n', String _ r => dropString n' r
  end.

(** The effects that are no call of a validator: the timer of the change
    event and the clearing of custom validity. *)
Definition isBookkeeping (e : Effect) : bool :=
  match e with
  | ChangeEventTimer _ | ClearCustomValidity _ _ => true
  | _ => false
  end.

End Lookup.

Import Lookup.

(** ** Sample forms *)

Module Samples.

(** The error a request raises when its body was read before. *)
Definition bodyConsumed : JsError :=
  mkError true "Body is unusable: Body has already been consumed.".

(** A form validated on submit only, with a validator that finds [name]
    too short. *)
Definition onSubmitEngine : Engine :=
  mkEngine OnSubmit
    (Validators (mkAdapter (fun _ => Failure [mkIssue (Some [SegStr "name"]) "Too short"])
                   None true true))
    false [("name", Leaf (SStr "Al"))] [] None None [("name", Leaf (SStr EmptyString))]
    None (Some 1) [].

(** A store with [{ email: ['Invalid'] }] as the new tree and
    [{ name: ['Too short'] }] as the previous one. *)
Definition mergeHeap : heap :=
  fun r => if Nat.eqb r 0 then [("email", Leaf ["Invalid"])]
           else [("name", Leaf ["Too short"])].

(** A store in which the new tree holds an array at [a] and the previous
    one an array at [a.b]. *)
Definition overwriteHeap : heap :=
  fun r => if Nat.eqb r 0 then [("a", Leaf ["Invalid"])]
           else [("a", Node [("b", Leaf ["Too short"])])].

(** A form validated on every change ([auto]) with no error on display. *)
Definition autoEngine : Engine :=
  mkEngine Auto NoValidators false
    [("name", Leaf (SStr "Al")); ("email", Leaf (SStr EmptyString))] [] None
    (Some [("name", Leaf true)])
    [("name", Leaf (SStr EmptyString)); ("email", Leaf (SStr EmptyString))]
    None None [].

(** An input event and a blur event on [name]. *)
Definition nameInput : ChangeEvent :=
  mkEvent [["name"]] (Some InputEvent) false false None None.

Definition nameBlur : ChangeEvent :=
  mkEvent [["name"]] (Some BlurEvent) false false None None.

Definition nameAndEmailErrors : ErrorTree :=
  [("name", Leaf ["Too short"]); ("email", Leaf ["Required"])].

(** A form whose only field, [name], is clean and empty. *)
Definition cleanEngine : Engine :=
  mkEngine Auto NoValidators false [("name", Leaf (SStr EmptyString))] [] None None
    [("name", Leaf (SStr EmptyString))] None None [].

(** A form whose field [a] is a nullable object, clean and [null]. *)
Definition nullableEngine : Engine :=
  mkEngine Auto NoValidators false [("a", Leaf SNull)] [] None None
    [("a", Leaf SNull)] None None [].

End Samples.

Import Samples.

(** ** What the further properties speak of *)

Module Observe.




(** What storing a message leaves at the place it is stored at: the
    array found there with the message at its end, or a new array. *)
Definition appendMessage (message : string) (d : PathData (A:=list string))
    : tree (list string) :=
  match value d with
  | Leaf l => Leaf (l ++ [message])
  | _ => Leaf [message]
  end.

(** The path of the array [mapErrors] puts the message of an issue
    into. *)
Definition targetPath (shape : Shape) (error : ValidationIssue) : path :=
  if isFormLevel error then ["_errors"]
  else
    match issue_path error with
    | None | Some [] => ["_errors"]
    | Some p =>
        if isObjectError shape p then map segString p ++ ["_errors"]
        else map segString p
    end.

(** Neither path is the beginning of the other. *)
Definition apart (p q : path) : bool :=
  negb (prefixb p q) && negb (prefixb q p).

(** Every path of [ps] is apart from [p]. *)
Definition apartFromAll (p : path) (ps : list path) : bool :=
  forallb (apart p) ps.

(** Every path of [ps] is [p] itself or apart from it. *)
Definition aloneAmong (p : path) (ps : list path) : bool :=
  forallb (fun q => path_eqb q p || apart p q) ps.

(** The state after a list of effects. *)
Definition emits (s : Engine) (l : list Effect) : Engine :=
  fold_left emit l s.

(** The rule by which [Form_clientValidation] skips the validation of an
    event when it is not forced. *)
Definition skipsEvent (m : ValidationMethod) (ev : ChangeEvent) : bool :=
  match m with
  | OnSubmit | SubmitOnly => true
  | OnBlur => isInput (type ev)
  | OnInput => isBlur (type ev)
  | Auto => false
  end.

(** The second state has the form data, the tainted tree, the clean
    data and the next change event of the first one. *)
Definition keepsData (s s' : Engine) : Prop :=
  Data_form s' = Data_form s
  /\ Tainted_state s' = Tainted_state s
  /\ Tainted_clean s' = Tainted_clean s
  /\ NextChange s' = NextChange s.

(** A form whose [name] is tainted and whose [email] is being typed. *)
Definition typedEmail : DataTree :=
  [("name", Leaf (SStr "Al")); ("email", Leaf (SStr "al@"))].

Definition renamed : DataTree :=
  [("name", Leaf (SStr "Alma")); ("email", Leaf (SStr EmptyString))].

(** A call of [Form_clientValidation] that did not validate: it resolves
    to [undefined], the validator was not called and the errors are as
    they were. *)
Definition notValidated (s : Engine)
    (r : Engine * outcome (option SuperValidated)) : Prop :=
  snd r = Ok None
  /\ Data_errors (fst r) = Data_errors s
  /\ exists extra,
       log (fst r) = log s ++ extra /\ forallb isBookkeeping extra = true.

(** A full adapter that finds [name] too short, and one that accepts
    everything. *)
Definition shortName : Adapter :=
  mkAdapter (fun _ => Failure [mkIssue (Some [SegStr "name"]) "Too short"])
    None true true.

Definition acceptAll : Adapter :=
  mkAdapter (fun d => Success d) None true true.

(** A form validated on blur, and an input event on its field. *)
Definition onBlurEngine : Engine :=
  mkEngine OnBlur (Validators shortName) false
    [("name", Leaf (SStr "Al"))] [] None None
    [("name", Leaf (SStr EmptyString))] None None [].



Definition sampleErrors : ErrorTree :=
  [("name", Leaf ["Too short"; "Not a name"]);
   ("tags", Node [("1", Leaf ["Empty"]); ("_errors", Leaf ["Too few"])]);
   ("_errors", Leaf ["Not allowed"])].

(** A form that shows an error for [name], and one that sets the
    validity of its elements itself. *)
Definition shownEngine : Engine :=
  mkEngine Auto (Validators shortName) false
    [("name", Leaf (SStr "Al"))] [("name", Leaf ["Too short"])] None
    (Some [("name", Leaf true)]) [("name", Leaf (SStr EmptyString))]
    None None [].

Definition customEngine : Engine :=
  mkEngine Auto (Validators shortName) true
    [("name", Leaf (SStr "Al"))] [] None None
    [("name", Leaf (SStr EmptyString))] None None [].

(** No entry of the form data is named as a file that was taken out of
    the posted JSON. *)
Definition noFileKeys (formData : FormDataT) : bool :=
  forallb
    (fun k => negb (String.prefix "__superform_file_" k)
              && negb (String.prefix "__superform_files_" k))
    (fd_keys formData).

(** The [id] that [parseFormData] reads. *)
Definition postedId (formData : FormDataT) : option string :=
  option_map entryString (fd_get formData "__superform_id").

(** A form that posts a file next to its JSON, a text, and a parser that
    knows that text. *)
Definition avatarForm : FormDataT := [("avatar", EntryFile 7 1024)].

Definition nameJson : string := "[{name:1},Al]".

Definition parseName (text : string) : Devalued :=
  if String.eqb text nameJson then ParsedObject [("name", Leaf (SStr "Al"))]
  else ParseThrows.

Definition noFields (formData : FormDataT) : DataTree + JsError := inl [].

(** A form that holds a file, and data of the server that has no key for
    it. *)
Definition uploadEngine : Engine :=
  mkEngine Auto NoValidators false
    [("name", Leaf (SStr "Al")); ("avatar", Leaf (SFile 7))] [] None None
    [("name", Leaf (SStr "Al"))] None None [].

Definition serverData : DataTree := [("name", Leaf (SStr "Alma"))].

(** A store in which one object holds [{ name: ['Too short'] }]. *)
Definition oneHeap : heap := fun _ => [("name", Leaf ["Too short"])].

(** A form that clears errors instead of validating, with an error on
    display for each of its fields. *)
Definition clearingEngine : Engine :=
  mkEngine Auto ClearValidators false
    [("name", Leaf (SStr "Al")); ("email", Leaf (SStr EmptyString))]
    nameAndEmailErrors None None
    [("name", Leaf (SStr EmptyString)); ("email", Leaf (SStr EmptyString))]
    None None [].

(** The options of [validate] when none is given. *)
Definition noOptions : ValidateOptions := mkValidateOptions None None None None.

(** An adapter that has the [jsonSchema] field or is the initial
    validator. *)
Definition fullAdapter (a : Adapter) : bool :=
  isInitialValidator a || hasJsonSchema a.

(** The shape [Form_validate] hands to [mapErrors]:
    [validator.shape ?? Data.shape ?? {}]. *)
Definition shapeFor (s : Engine) (a : Adapter) : Shape :=
  match adapterShape a, Data_shape s with
  | Some sh, _ => sh
  | None, Some sh => sh
  | None, None => []
  end.

End Observe.

Import Observe.

(* ================================================================= *)
(** * Part III: properties *)

(** ** Fields of an object *)

Section FieldFacts.
Context {A : Type}.
Implicit Types (o : obj A) (k j : string) (v : tree A).

Lemma getField_setField_same o k v :
  getField (setField o k v) k = Some v.
Proof.
  induction o as [|[k' v'] r IH]; simpl.
  - now rewrite String.eqb_refl.
  - destruct (String.eqb k' k) eqn:E; simpl; rewrite E; auto.
Qed.

Lemma getField_setField_other o k j v :
  k <> j -> getField (setField o k v) j = getField o j.
Proof.
  intros Hkj. induction o as [|[k' v'] r IH]; simpl.
  - destruct (String.eqb k j) eqn:E; auto.
    apply String.eqb_eq in E. contradiction.
  - destruct (String.eqb k' k) eqn:E; simpl.
    + apply String.eqb_eq in E. subst k'.
      destruct (String.eqb k j) eqn:E'; auto.
      apply String.eqb_eq in E'. contradiction.
    + destruct (String.eqb k' j); auto.
Qed.

Lemma setField_setField_same o k v w :
  setField (setField o k v) k w = setField o k w.
Proof.
  induction o as [|[k' v'] r IH]; simpl.
  - now rewrite String.eqb_refl.
  - destruct (String.eqb k' k) eqn:E; simpl; rewrite E; auto.
    now rewrite IH.
Qed.

Lemma hasKey_setField_same o k v : hasKey (setField o k v) k = true.
Proof. unfold hasKey. now rewrite getField_setField_same. Qed.

Lemma prop_setField_same o k v : prop (setField o k v) k = v.
Proof. unfold prop. now rewrite getField_setField_same. Qed.

Lemma map_fst_setField_in o k v j :
  In j (map fst (setField o k v)) -> j = k \/ In j (map fst o).
Proof.
  induction o as [|[k' v'] r IH]; simpl.
  - intros [H|[]]; auto.
  - destruct (String.eqb k' k) eqn:E; simpl.
    + intros [H|H]; auto.
    + intros [H|H]; auto. destruct (IH H); auto.
Qed.

Lemma existsb_eqb_In k (ks : list string) :
  existsb (String.eqb k) ks = true <-> In k ks.
Proof.
  rewrite existsb_exists. split.
  - intros [x [Hin Hx]]. apply String.eqb_eq in Hx. now subst.
  - intros H. exists k. split; auto. apply String.eqb_refl.
Qed.

Lemma keys_distinct_setField o k v :
  keys_distinct (map fst o) = true ->
  keys_distinct (map fst (setField o k v)) = true.
Proof.
  induction o as [|[k' v'] r IH]; simpl; auto.
  intros H. apply andb_true_iff in H as [Hn Hd].
  destruct (String.eqb k' k) eqn:E; simpl.
  - now rewrite Hn, Hd.
  - rewrite (IH Hd), andb_true_r.
    apply negb_true_iff. apply negb_true_iff in Hn.
    destruct (existsb (String.eqb k') (map fst (setField r k v))) eqn:Ex; auto.
    apply existsb_eqb_In in Ex. apply map_fst_setField_in in Ex as [->|Hin].
    + now rewrite String.eqb_refl in E.
    + apply existsb_eqb_In in Hin. congruence.
Qed.

Lemma forallb_setField (P : tree A -> bool) o k v :
  forallb (fun kv => P (snd kv)) o = true -> P v = true ->
  forallb (fun kv => P (snd kv)) (setField o k v) = true.
Proof.
  intros Ho Hv. induction o as [|[k' v'] r IH]; simpl in *.
  - now rewrite Hv.
  - apply andb_true_iff in Ho as [H1 H2].
    destruct (String.eqb k' k); simpl.
    + now rewrite Hv, H2.
    + now rewrite H1, IH.
Qed.

Lemma wf_obj_setField o k v :
  wf_obj o = true -> wf_tree v = true -> wf_obj (setField o k v) = true.
Proof.
  unfold wf_obj. simpl. intros H Hv.
  apply andb_true_iff in H as [H1 H2].
  rewrite keys_distinct_setField by assumption.
  simpl. now apply forallb_setField.
Qed.

Lemma wf_getField o k v :
  wf_obj o = true -> getField o k = Some v -> wf_tree v = true.
Proof.
  unfold wf_obj. simpl. intros H.
  apply andb_true_iff in H as [_ H]. revert H.
  induction o as [|[k' v'] r IH]; simpl; [discriminate|].
  intros H. apply andb_true_iff in H as [H1 H2].
  destruct (String.eqb k' k); auto. intros [= <-]. exact H1.
Qed.

Lemma wf_In_getField o k v :
  wf_obj o = true -> In (k, v) o -> getField o k = Some v.
Proof.
  unfold wf_obj. simpl. intros H.
  apply andb_true_iff in H as [H _]. revert H.
  induction o as [|[k' v'] r IH]; simpl; [tauto|].
  intros H. apply andb_true_iff in H as [Hn Hd].
  intros [[= -> ->]|Hin].
  - now rewrite String.eqb_refl.
  - destruct (String.eqb k' k) eqn:E; auto.
    apply String.eqb_eq in E. subst k'.
    apply negb_true_iff in Hn.
    assert (existsb (String.eqb k) (map fst r) = true) as Hx.
    { apply existsb_eqb_In. change k with (fst (k, v)). now apply in_map. }
    congruence.
Qed.

Lemma getField_In o k v : getField o k = Some v -> In (k, v) o.
Proof.
  induction o as [|[k' v'] r IH]; simpl; [discriminate|].
  destruct (String.eqb k' k) eqn:E; auto.
  apply String.eqb_eq in E. subst. intros [= ->]. now left.
Qed.

End FieldFacts.

(** ** Reading and writing at a path *)

Section PathFacts.
Context {A : Type}.
Implicit Types (o : obj A) (k j : string) (v : tree A) (p q r : path).

Lemma valueAt_nil o : valueAt o [] = None.
Proof. reflexivity. Qed.

Lemma valueAt_single o k : valueAt o [k] = getField o k.
Proof. reflexivity. Qed.

Lemma valueAt_cons o k j r :
  valueAt o (k :: j :: r) =
  match getField o k with
  | Some (Node c) => valueAt c (j :: r)
  | _ => None
  end.
Proof.
  unfold valueAt, pathExists. simpl.
  destruct (getField o k) as [[| |c]|]; reflexivity.
Qed.

Lemma valueAt_empty p : valueAt (A:=A) [] p = None.
Proof. destruct p as [|k [|j r]]; reflexivity. Qed.

Lemma valueAt_childOf o k j r :
  valueAt o (k :: j :: r) = valueAt (childOf o k) (j :: r).
Proof.
  rewrite valueAt_cons. unfold childOf.
  destruct (getField o k) as [[| |c]|]; auto; now rewrite valueAt_empty.
Qed.

Lemma setPath_single o k f :
  setPath o [k] f = setField o k (f (mkPathData o k (prop o k))).
Proof. reflexivity. Qed.

Lemma setPath_cons o k j r f :
  setPath o (k :: j :: r) f =
  setField o k (Node (setPath (childOf o k) (j :: r) f)).
Proof. reflexivity. Qed.

(** What was written is read back. *)
Lemma valueAt_setPath_same p : forall o f,
  p <> [] -> exists d, valueAt (setPath o p f) p = Some (f d).
Proof.
  induction p as [|k [|j r] IH]; intros o f Hp.
  - contradiction.
  - eexists. rewrite setPath_single, valueAt_single.
    apply getField_setField_same.
  - destruct (IH (childOf o k) f) as [d Hd]; [discriminate|].
    exists d. rewrite setPath_cons, valueAt_cons.
    now rewrite getField_setField_same.
Qed.

Lemma valueAt_setPathsTo_same p o v :
  p <> [] -> valueAt (setPathsTo o [p] v) p = Some v.
Proof.
  intros Hp. unfold setPathsTo, setPaths. simpl.
  destruct (valueAt_setPath_same o (fun _ => v) Hp) as [d Hd]. exact Hd.
Qed.

(** A write leaves alone every path that neither runs through the written
    one nor lies on the way to it. *)
Lemma valueAt_setPath_frame q : forall o p f,
  prefixb p q = false -> prefixb q p = false ->
  valueAt (setPath o q f) p = valueAt o p.
Proof.
  induction q as [|k [|j r] IH]; intros o p f Hpq Hqp.
  - discriminate.
  - destruct p as [|k' [|j' r']]; try discriminate.
    + simpl in Hqp. rewrite andb_true_r in Hqp.
      rewrite setPath_single, !valueAt_single.
      apply getField_setField_other.
      intros ->. now rewrite String.eqb_refl in Hqp.
    + simpl in Hqp. rewrite andb_true_r in Hqp.
      rewrite setPath_single, !valueAt_cons.
      rewrite getField_setField_other; auto.
      intros ->. now rewrite String.eqb_refl in Hqp.
  - destruct p as [|k' [|j' r']]; try discriminate.
    + simpl in Hpq. rewrite andb_true_r in Hpq.
      rewrite setPath_cons, !valueAt_single.
      apply getField_setField_other.
      intros ->. now rewrite String.eqb_refl in Hpq.
    + rewrite setPath_cons.
      destruct (String.eqb k k') eqn:E.
      * apply String.eqb_eq in E. subst k'.
        rewrite valueAt_cons, getField_setField_same.
        rewrite (valueAt_childOf o).
        apply IH.
        -- simpl in Hpq. now rewrite String.eqb_refl in Hpq.
        -- simpl in Hqp. now rewrite String.eqb_refl in Hqp.
      * rewrite !valueAt_cons, getField_setField_other; auto.
        intros ->. now rewrite String.eqb_refl in E.
Qed.

(** A value that is not a container, written on the way to [p], cuts [p]
    off. *)
Lemma valueAt_setPath_above_leaf q : forall o p f,
  q <> [] -> prefixb q p = true -> prefixb p q = false ->
  (forall d, isLeaf (f d) = true) ->
  valueAt (setPath o q f) p = None.
Proof.
  induction q as [|k [|j r] IH]; intros o p f Hq Hqp Hpq Hf.
  - contradiction.
  - destruct p as [|k' [|j' r']]; try discriminate.
    + simpl in Hqp, Hpq. rewrite andb_true_r in Hqp, Hpq.
      apply String.eqb_eq in Hqp. subst. now rewrite String.eqb_refl in Hpq.
    + simpl in Hqp. rewrite andb_true_r in Hqp.
      apply String.eqb_eq in Hqp. subst k'.
      rewrite setPath_single, valueAt_cons, getField_setField_same.
      specialize (Hf (mkPathData o k (prop o k))).
      destruct (f _); auto; discriminate.
  - destruct p as [|k' [|j' r']]; try discriminate.
    + simpl in Hqp. apply andb_true_iff in Hqp as [_ Hqp]. discriminate.
    + simpl in Hqp. apply andb_true_iff in Hqp as [E Hqp].
      apply String.eqb_eq in E. subst k'.
      rewrite setPath_cons, valueAt_cons, getField_setField_same.
      apply IH; auto; try discriminate.
      simpl in Hpq. now rewrite String.eqb_refl in Hpq.
Qed.

(** Writing back the value found on the way to [p] leaves [p] as it
    was. *)
Lemma valueAt_setPath_above_same q : forall o p f,
  q <> [] -> prefixb q p = true -> prefixb p q = false ->
  (forall d, f d = value d) ->
  valueAt (setPath o q f) p = valueAt o p.
Proof.
  induction q as [|k [|j r] IH]; intros o p f Hq Hqp Hpq Hf.
  - contradiction.
  - destruct p as [|k' [|j' r']]; try discriminate.
    + simpl in Hqp, Hpq. rewrite andb_true_r in Hqp, Hpq.
      apply String.eqb_eq in Hqp. subst. now rewrite String.eqb_refl in Hpq.
    + simpl in Hqp. rewrite andb_true_r in Hqp.
      apply String.eqb_eq in Hqp. subst k'.
      rewrite setPath_single, !valueAt_cons, getField_setField_same.
      rewrite Hf. simpl. unfold prop.
      destruct (getField o k) as [[| |c]|]; reflexivity.
  - destruct p as [|k' [|j' r']]; try discriminate.
    + simpl in Hqp. apply andb_true_iff in Hqp as [_ Hqp]. discriminate.
    + simpl in Hqp. apply andb_true_iff in Hqp as [E Hqp].
      apply String.eqb_eq in E. subst k'.
      rewrite setPath_cons, valueAt_cons, getField_setField_same.
      rewrite (valueAt_childOf o).
      apply IH; auto; try discriminate.
      simpl in Hpq. now rewrite String.eqb_refl in Hpq.
Qed.

Lemma prefixb_refl p : prefixb p p = true.
Proof. induction p; simpl; auto. now rewrite String.eqb_refl. Qed.

Lemma prefixb_antisym p : forall q,
  prefixb p q = true -> prefixb q p = true -> p = q.
Proof.
  induction p as [|k p IH]; intros [|j q]; simpl; auto; try discriminate.
  intros H1 H2. apply andb_true_iff in H1 as [E H1].
  apply andb_true_iff in H2 as [_ H2].
  apply String.eqb_eq in E. subst. f_equal. auto.
Qed.

Lemma prefixb_trans p : forall q r,
  prefixb p q = true -> prefixb q r = true -> prefixb p r = true.
Proof.
  induction p as [|k p IH]; intros [|j q] [|i r]; simpl; auto; try discriminate.
  intros H1 H2. apply andb_true_iff in H1 as [E1 H1].
  apply andb_true_iff in H2 as [E2 H2].
  apply String.eqb_eq in E1. subst. rewrite E2. simpl. eauto.
Qed.

(** Every non-empty beginning of a path that leads somewhere leads
    somewhere. *)
Lemma valueAt_prefix p : forall o q v,
  p <> [] -> prefixb p q = true -> valueAt o q = Some v ->
  valueAt o p <> None.
Proof.
  induction p as [|k [|j r] IH]; intros o q v Hp Hpq Hq.
  - contradiction.
  - destruct q as [|k' [|j' r']]; try discriminate.
    + simpl in Hpq. rewrite andb_true_r in Hpq.
      apply String.eqb_eq in Hpq. subst.
      rewrite valueAt_single in *. congruence.
    + simpl in Hpq. rewrite andb_true_r in Hpq.
      apply String.eqb_eq in Hpq. subst.
      rewrite valueAt_cons in Hq. rewrite valueAt_single.
      destruct (getField o k'); discriminate.
  - destruct q as [|k' [|j' r']]; try discriminate.
    + simpl in Hpq. apply andb_true_iff in Hpq as [_ Hpq]. discriminate.
    + simpl in Hpq. apply andb_true_iff in Hpq as [E Hpq].
      apply String.eqb_eq in E. subst k'.
      rewrite valueAt_cons in *.
      destruct (getField o k) as [[| |c]|]; try discriminate.
      eapply IH; [discriminate| |exact Hq]. exact Hpq.
Qed.

(** Nothing is found below a value that is not a container. *)
Lemma valueAt_below_leaf p : forall o q v,
  valueAt o p = Some v -> isLeaf v = true ->
  prefixb p q = true -> prefixb q p = false ->
  valueAt o q = None.
Proof.
  induction p as [|k [|j r] IH]; intros o q v Hp Hv Hpq Hqp.
  - discriminate.
  - destruct q as [|k' [|j' r']]; try discriminate.
    + simpl in Hqp, Hpq. rewrite andb_true_r in Hqp, Hpq.
      apply String.eqb_eq in Hpq. subst. now rewrite String.eqb_refl in Hqp.
    + simpl in Hpq. rewrite andb_true_r in Hpq.
      apply String.eqb_eq in Hpq. subst.
      rewrite valueAt_single in Hp. rewrite valueAt_cons, Hp.
      destruct v; auto; discriminate.
  - destruct q as [|k' [|j' r']]; try discriminate.
    + simpl in Hpq. apply andb_true_iff in Hpq as [_ Hpq]. discriminate.
    + simpl in Hpq. apply andb_true_iff in Hpq as [E Hpq].
      apply String.eqb_eq in E. subst k'.
      rewrite valueAt_cons in *.
      destruct (getField o k) as [[| |c]|]; try discriminate.
      eapply IH; eauto.
      simpl in Hqp. now rewrite String.eqb_refl in Hqp.
Qed.

End PathFacts.

(** ** Traversals *)

Section TraversalFacts.
Context {A : Type}.
Implicit Types (o : obj A) (k j : string) (v : tree A) (p q r : path).

Lemma In_traverseTree_Node (fs : obj A) p v :
  In (p, v) (traverseTree (Node fs)) <->
  exists k child,
    In (k, child) fs /\
    ((p = [k] /\ v = child) \/
     exists p', p = k :: p' /\ In (p', v) (traverseTree child)).
Proof.
  simpl. rewrite in_flat_map. split.
  - intros [[k child] [Hin H]]. exists k, child. split; auto.
    destruct H as [[= <- <-]|H]; auto.
    right. apply in_map_iff in H as [[p' w] [[= <- <-] H]]. eauto.
  - intros [k [child [Hin H]]]. exists (k, child). split; auto.
    destruct H as [[-> ->]|[p' [-> H]]]; [now left|right].
    apply in_map_iff. exists (p', v). auto.
Qed.

Lemma traverseTree_leaf v p w :
  isLeaf v = true -> ~ In (p, w) (traverseTree v).
Proof. destruct v; simpl; auto; discriminate. Qed.

Lemma wf_childOf o k : wf_obj o = true -> wf_obj (childOf o k) = true.
Proof.
  intros H. unfold childOf.
  destruct (getField o k) as [[| |c]|] eqn:E; auto.
  exact (wf_getField _ _ H E).
Qed.

Lemma wf_obj_setPath p : forall o f,
  wf_obj o = true -> (forall d, wf_tree (f d) = true) ->
  wf_obj (setPath o p f) = true.
Proof.
  induction p as [|k [|j r] IH]; intros o f Ho Hf; auto.
  - rewrite setPath_single. apply wf_obj_setField; auto.
  - rewrite setPath_cons. apply wf_obj_setField; auto.
    apply (IH (childOf o k) f); auto. now apply wf_childOf.
Qed.

(** In a well-formed object a traversal meets, at every path, the value
    that a walk along the path finds. *)
Lemma traversePaths_valueAt p : forall o v,
  wf_obj o = true -> In (p, v) (traversePaths o) -> valueAt o p = Some v.
Proof.
  induction p as [|k p IH]; intros o v Ho Hin;
    apply In_traverseTree_Node in Hin as [k' [child [Hin H]]].
  - destruct H as [[[=] _]|[p' [[=] _]]].
  - destruct H as [[[= <- ->] ->]|[p' [[= <- <-] H]]].
    + rewrite valueAt_single. now apply wf_In_getField.
    + pose proof (wf_In_getField _ _ _ Ho Hin) as Hg.
      destruct child as [|a|c]; try (now apply traverseTree_leaf in H).
      destruct p as [|j r].
      * apply In_traverseTree_Node in H as [? [? [_ [[[=] _]|[? [[=] _]]]]]].
      * rewrite valueAt_cons, Hg. apply IH; auto.
        exact (wf_getField _ _ Ho Hg).
Qed.

Lemma valueAt_traversePaths p : forall o v,
  valueAt o p = Some v -> In (p, v) (traversePaths o).
Proof.
  induction p as [|k [|j r] IH]; intros o v H.
  - discriminate.
  - rewrite valueAt_single in H. apply getField_In in H.
    apply In_traverseTree_Node. exists k, v. auto.
  - rewrite valueAt_cons in H.
    destruct (getField o k) as [[| |c]|] eqn:E; try discriminate.
    apply getField_In in E. apply In_traverseTree_Node.
    exists k, (Node c). split; auto. right. exists (j :: r). split; auto.
    now apply IH.
Qed.

Lemma traversePaths_nonempty o v : ~ In ([], v) (traversePaths o).
Proof.
  intros H. apply In_traverseTree_Node in H as [? [? [_ [[[=] _]|[? [[=] _]]]]]].
Qed.

End TraversalFacts.

(** Folding writes over a list: what holds before and is kept by every
    write holds at the end. *)
Lemma fold_left_invariant {S X : Type} (P : S -> Prop) (step : S -> X -> S)
    (l : list X) : forall init,
  P init -> (forall acc x, In x l -> P acc -> P (step acc x)) ->
  P (fold_left step l init).
Proof.
  induction l as [|x l IH]; simpl; intros init H0 Hs; [assumption|].
  apply IH.
  - apply Hs; auto.
  - intros acc y Hy. apply Hs. auto.
Qed.

(** ** updateErrors with force *)

(** C5: with [force] set, [updateErrors] returns the object [New] itself
    and leaves the store as it was: [Previous] is neither read nor
    written, and the tree returned is the one [New] holds. *)
Theorem updateErrors_force_returns_New :
  forall (h : heap) (New Previous : ref),
    updateErrors h New Previous true = (New, h)
    /\ updateErrorsTree (h New) (h Previous) true = h New.
Proof. intros h New Previous. split; reflexivity. Qed.

(** ** The taint policy ['ignore'] *)

(** C8: an update with the policy ['ignore'] returns at once: the tainted
    tree, the clean snapshot and every other part of the state are left
    as they were. *)
Theorem Tainted_update_ignore_is_noop :
  forall (s : Engine) (newData : DataTree),
    Tainted_update s newData Ignore = s
    /\ Tainted_state (Tainted_update s newData Ignore) = Tainted_state s
    /\ Tainted_clean (Tainted_update s newData Ignore) = Tainted_clean s.
Proof. intros s newData. repeat split; reflexivity. Qed.

(** ** tryParseFormData *)

Section ParseFacts.
Variable FormDataT Parsed SearchParams : Type.
Variable parseFormData : FormDataT -> Completion Parsed.
Variable toFormData : SearchParams -> FormDataT.

(** C7, as amended: when reading the body of a request fails,
    [tryParseFormData], and [parseRequest] through it, returns the empty
    form, unless the failure is a [TypeError] whose message includes
    "already been consumed": that one is thrown again. *)
Theorem tryParseFormData_rejected :
  forall e : JsError,
    (isTypeError e && includes (errorMessage e) "already been consumed" = false ->
     tryParseFormData parseFormData (Rejects FormDataT e)
     = Returns (mkParsed None None false)
     /\ parseRequest parseFormData toFormData
          (IsRequest Parsed SearchParams (Rejects FormDataT e))
        = Returns (mkParsed None None false)
     /\ parseRequest parseFormData toFormData
          (IsRequestEvent Parsed SearchParams (Rejects FormDataT e))
        = Returns (mkParsed None None false))
    /\ (isTypeError e && includes (errorMessage e) "already been consumed" = true ->
        tryParseFormData parseFormData (Rejects FormDataT e) = Throws Parsed e
        /\ parseRequest parseFormData toFormData
             (IsRequest Parsed SearchParams (Rejects FormDataT e))
           = Throws Parsed e).
Proof.
  intros e. unfold parseRequest, tryParseFormData.
  split; intros ->; repeat split.
Qed.

End ParseFacts.

Lemma tryParseFormData_rejected_witness :
  tryParseFormData (fun _ : unit => Returns (mkParsed (Parsed:=unit) None None false))
    (Rejects unit (mkError false "Unexpected end of form"))
  = Returns (mkParsed None None false)
  /\ tryParseFormData (fun _ : unit => Returns (mkParsed (Parsed:=unit) None None false))
       (Rejects unit bodyConsumed)
     = Throws unit bodyConsumed.
Proof.
  split.
  - apply (proj1 (@tryParseFormData_rejected unit unit unit
                    (fun _ : unit => Returns (mkParsed (Parsed:=unit) None None false))
                    (fun x => x)
                    (mkError false "Unexpected end of form"))).
    reflexivity.
  - apply (proj2 (@tryParseFormData_rejected unit unit unit
                    (fun _ : unit => Returns (mkParsed (Parsed:=unit) None None false))
                    (fun x => x)
                    bodyConsumed)).
    reflexivity.
Defined.

(** A body that cannot be read, for which [tryParseFormData] throws
    instead of returning the empty form. *)
Lemma tryParseFormData_may_throw :
  tryParseFormData (fun _ : unit => Returns (mkParsed (Parsed:=unit) None None false))
    (Rejects unit bodyConsumed)
  = Throws unit bodyConsumed
  /\ tryParseFormData (fun _ : unit => Returns (mkParsed (Parsed:=unit) None None false))
       (Rejects unit bodyConsumed)
     <> Returns (mkParsed None None false).
Proof. split; [reflexivity | discriminate]. Qed.

(** ** Validation methods that wait for the submit *)

Lemma log_Errors_update s f b : log (Errors_update s f b) = log s.
Proof. reflexivity. Qed.

Lemma log_Form_validateWith s a recheck :
  isInitialValidator a = true \/ hasJsonSchema a = true ->
  log (fst (Form_validateWith s a recheck))
  = log s ++ [CallValidate (Data_form s)].
Proof.
  intros H. unfold Form_validateWith.
  replace (negb (isInitialValidator a) && negb (hasJsonSchema a)) with false
    by (destruct H as [-> | ->]; [reflexivity | now rewrite andb_false_r]).
  destruct (validate a (Data_form s)); [destruct recheck|]; reflexivity.
Qed.

(** The validation a submit runs, [Form_validate], calls the validator
    whatever the validation method is. *)
Lemma Form_validate_calls_validator s a :
  validators s = Validators a ->
  isInitialValidator a = true \/ hasJsonSchema a = true ->
  In (CallValidate (Data_form s)) (log (fst (Form_validate s None))).
Proof.
  intros Hv Ha. unfold Form_validate. rewrite Hv.
  pose proof (log_Form_validateWith s a true Ha) as H1.
  destruct (Form_validateWith s a true) as [s1 [[r|]|e|]] eqn:E1;
    simpl in H1; simpl.
  - rewrite H1. apply in_or_app. right. now left.
  - pose proof (log_Form_validateWith s1 a false Ha) as H2.
    destruct (Form_validateWith s1 a false) as [s2 [[r|]|e|]] eqn:E2;
      simpl in H2; simpl; rewrite H2, H1;
      apply in_or_app; left; apply in_or_app; right; now left.
  - rewrite H1. apply in_or_app. right. now left.
  - rewrite H1. apply in_or_app. right. now left.
Qed.

(** C6: with the validation method ['onsubmit'] or ['submit-only'], a
    call of [Form_clientValidation] without [force], for any event,
    resolves to [undefined] and calls no validator: all it adds to the
    effects is the timer of the change event and the clearing of custom
    validity.  The validation that a submit runs calls the validator all
    the same. *)
Theorem clientValidation_waits_for_submit :
  forall (s : Engine) (event : option ChangeEvent) (adapter : option Adapter),
    validationMethod s = OnSubmit \/ validationMethod s = SubmitOnly ->
    (exists extra,
        log (fst (Form_clientValidation s event false adapter)) = log s ++ extra
        /\ forallb isBookkeeping extra = true
        /\ (forall d, ~ In (CallValidate d) extra)
        /\ snd (Form_clientValidation s event false adapter) = Ok None
        /\ Data_form (fst (Form_clientValidation s event false adapter))
           = Data_form s)
    /\ (forall a,
          validators s = Validators a ->
          isInitialValidator a = true \/ hasJsonSchema a = true ->
          In (CallValidate (Data_form s)) (log (fst (Form_validate s None)))).
Proof.
  intros s event adapter Hm.
  split; [|intros a; apply Form_validate_calls_validator].
  assert (forall extra, forallb isBookkeeping extra = true ->
                        forall d, ~ In (CallValidate d) extra) as Hno.
  { intros extra H d Hin. rewrite forallb_forall in H.
    specialize (H _ Hin). discriminate. }
  unfold Form_clientValidation.
  destruct event as [ev|].
  - assert (exists s0, log s0 = log s /\ Data_form s0 = Data_form s /\
                       (match validators s with
                        | ClearValidators =>
                            Errors_update s (fun e => setPathsTo e (paths ev) Undef) false
                        | _ => s
                        end) = s0) as [s0 [Hl [Hd ->]]].
    { destruct (validators s);
        [exists s
        |exists (Errors_update s (fun e => setPathsTo e (paths ev) Undef) false)
        |exists s]; repeat split. }
    replace (if false then false else
               match validationMethod s with
               | OnSubmit | SubmitOnly => true
               | OnBlur => isInput (type ev)
               | OnInput => isBlur (type ev)
               | Auto => false
               end) with true by (destruct Hm as [-> | ->]; reflexivity).
    simpl orb. cbv iota.
    destruct (formElement ev) as [el|]; [|destruct (EnhancedForm s) as [el|]];
      simpl; rewrite Hl, Hd.
    + exists [ChangeEventTimer ev; ClearCustomValidity el (paths ev)].
      rewrite <- app_assoc. repeat split; auto.
    + exists [ChangeEventTimer ev; ClearCustomValidity el (paths ev)].
      rewrite <- app_assoc. repeat split; auto.
    + exists [ChangeEventTimer ev]. repeat split; auto.
  - exists []. simpl. rewrite app_nil_r. repeat split; auto.
Qed.

Lemma clientValidation_waits_for_submit_witness :
  validationMethod onSubmitEngine = OnSubmit
  /\ (exists extra,
        log (fst (Form_clientValidation onSubmitEngine (Some nameInput) false None))
        = log onSubmitEngine ++ extra
        /\ forallb isBookkeeping extra = true)
  /\ In (CallValidate (Data_form onSubmitEngine))
       (log (fst (Form_validate onSubmitEngine None))).
Proof.
  split; [reflexivity|].
  destruct (clientValidation_waits_for_submit onSubmitEngine
              (Some nameInput) None (or_introl eq_refl))
    as [[extra [H1 [H2 _]]] Hsubmit].
  split.
  - exists extra. split; assumption.
  - apply (Hsubmit _ eq_refl). left. reflexivity.
Defined.

(** ** chunkSubstr *)

Lemma substring_empty o m : String.substring o m EmptyString = EmptyString.
Proof. destruct o, m; reflexivity. Qed.

Lemma substring_drop d : forall s o m,
  String.substring (d + o) m s = String.substring o m (dropString d s).
Proof.
  induction d as [|d IH]; intros s o m; [reflexivity|].
  destruct s as [|c r].
  - cbn [dropString]. now rewrite !substring_empty.
  - simpl. apply IH.
Qed.

Lemma chunkLoop_drop str size n : forall d o,
  chunkLoop str size n (d + o) = chunkLoop (dropString d str) size n o.
Proof.
  induction n as [|n IH]; intros d o; simpl; auto.
  rewrite substring_drop. f_equal.
  rewrite <- Nat.add_assoc. apply IH.
Qed.

Lemma take_drop_string m : forall s,
  (String.substring 0 m s ++ dropString m s)%string = s.
Proof.
  induction m as [|m IH]; intros [|c r]; simpl; auto.
  now rewrite IH.
Qed.

Lemma length_dropString d : forall s,
  String.length (dropString d s) = String.length s - d.
Proof.
  induction d as [|d IH]; intros [|c r]; simpl; auto.
Qed.

Lemma length_substring_0 m : forall s,
  String.length (String.substring 0 m s) = Nat.min m (String.length s).
Proof.
  induction m as [|m IH]; intros [|c r]; simpl; auto.
Qed.

Lemma length_substring o m s :
  String.length (String.substring o m s) = Nat.min m (String.length s - o).
Proof.
  replace o with (o + 0) at 1 by lia.
  rewrite substring_drop, length_substring_0, length_dropString. reflexivity.
Qed.

Lemma length_zero_empty s : String.length s = 0 -> s = EmptyString.
Proof. destruct s; simpl; auto; discriminate. Qed.

Lemma concat_empty_cons x xs :
  String.concat EmptyString (x :: xs) = (x ++ String.concat EmptyString xs)%string.
Proof.
  destruct xs; simpl; auto.
  induction x; simpl; auto. now rewrite <- IHx.
Qed.

Lemma concat_chunkLoop size n : forall str,
  String.length str <= n * size ->
  String.concat EmptyString (chunkLoop str size n 0) = str.
Proof.
  induction n as [|n IH]; intros str Hlen.
  - simpl in *. symmetry. apply length_zero_empty. lia.
  - cbn [chunkLoop]. rewrite concat_empty_cons.
    replace (0 + size) with (size + 0) by lia.
    rewrite chunkLoop_drop, IH.
    + apply take_drop_string.
    + rewrite length_dropString. simpl in Hlen. lia.
Qed.

Lemma length_chunkLoop str size n o : length (chunkLoop str size n o) = n.
Proof. revert o. induction n; simpl; auto. Qed.

Lemma nth_chunkLoop str size n : forall o i,
  i < n ->
  nth i (chunkLoop str size n o) EmptyString = String.substring (o + i * size) size str.
Proof.
  induction n as [|n IH]; intros o i Hi; [lia|].
  destruct i as [|i]; simpl.
  - now rewrite Nat.add_0_r.
  - rewrite IH by lia. f_equal. lia.
Qed.

Lemma ceilDiv_bounds a b :
  0 < b -> a <= ceilDiv a b * b /\ ceilDiv a b * b < a + b.
Proof.
  intros Hb. unfold ceilDiv.
  pose proof (Nat.div_mod_eq a b) as E.
  pose proof (Nat.mod_upper_bound a b ltac:(lia)) as U.
  destruct (Nat.eqb (a mod b) 0) eqn:Z.
  - apply Nat.eqb_eq in Z. nia.
  - apply Nat.eqb_neq in Z. nia.
Qed.

(** C9: for a positive size, [chunkSubstr] yields the ceiling of
    [length / size] chunks, none longer than the size and all but the
    last of exactly that length, and joining the chunks in order, as
    [parseFormData] does, gives the string back. *)
Theorem chunkSubstr_reassembles :
  forall (str : string) (size : nat),
    0 < size ->
    exists chunks,
      chunkSubstr str size = Some chunks
      /\ length chunks = ceilDiv (String.length str) size
      /\ String.length str <= length chunks * size < String.length str + size
      /\ Forall (fun c => String.length c <= size) chunks
      /\ (forall i, S i < length chunks ->
                    String.length (nth i chunks EmptyString) = size)
      /\ String.concat EmptyString chunks = str.
Proof.
  intros str size Hs.
  pose proof (ceilDiv_bounds (String.length str) Hs) as [B1 B2].
  unfold chunkSubstr.
  destruct (Nat.eqb size 0) eqn:E; [apply Nat.eqb_eq in E; lia|].
  eexists. split; [reflexivity|].
  rewrite length_chunkLoop.
  repeat split; auto.
  - apply Forall_forall. intros c Hc.
    apply (In_nth _ _ EmptyString) in Hc as [i [Hi <-]].
    rewrite length_chunkLoop in Hi.
    rewrite nth_chunkLoop, length_substring by assumption. lia.
  - intros i Hi. rewrite nth_chunkLoop, length_substring by lia.
    simpl. nia.
  - now apply concat_chunkLoop.
Qed.

Lemma chunkSubstr_reassembles_witness :
  0 < 3
  /\ exists chunks,
      chunkSubstr "superforms" 3 = Some chunks
      /\ length chunks = 4
      /\ String.concat EmptyString chunks = "superforms".
Proof.
  split; [lia|].
  destruct (chunkSubstr_reassembles "superforms" (size:=3) ltac:(lia))
    as [chunks [H1 [H2 [_ [_ [_ H3]]]]]].
  exists chunks. repeat split; assumption.
Defined.

(** ** mapErrors *)

Lemma bind_Ok {X Y : Type} (x : X) (f : X -> outcome Y) : bind (Ok x) f = f x.
Proof. reflexivity. Qed.








(** A last segment of one digit never makes an object error. *)
Lemma isObjectError_one_digit shape p :
  isLastIndexNumeric p = true -> isObjectError shape p = false.
Proof. intros H. unfold isObjectError. now rewrite H. Qed.

(** C2, at the input on which the code departs from it: the index [10]
    is no single digit, so an issue for element 10 of [tags] is stored
    under [_errors], as an error of an object. *)
Theorem mapErrors_two_digit_index :
  mapErrors [mkIssue (Some [SegStr "tags"; SegNum 10]) "Invalid"]
    [("tags", Node [])]
  = Ok [("tags", Node [("10", Node [("_errors", Leaf ["Invalid"])])])]
  /\ mapErrors [mkIssue (Some [SegStr "tags"; SegNum 9]) "Invalid"]
       [("tags", Node [])]
     = Ok [("tags", Node [("9", Leaf ["Invalid"])])].
Proof. split; reflexivity. Qed.

(** ** Folds of writes *)

Section WriteFacts.
Context {A : Type}.
Implicit Types (o : obj A) (v u : tree A) (p q : path).
Implicit Types (sel : path -> tree A -> bool) (w : tree A -> tree A).

Lemma writes_cons sel w q u l init :
  writes sel w ((q, u) :: l) init
  = writes sel w l (if sel q u then setPathsTo init [q] (w u) else init).
Proof. reflexivity. Qed.

Lemma writes_app sel w l1 l2 init :
  writes sel w (l1 ++ l2) init = writes sel w l2 (writes sel w l1 init).
Proof. unfold writes. apply fold_left_app. Qed.

Lemma fold_left_writes (step : obj A -> path * tree A -> obj A)
    (sel : path -> tree A -> bool) (w : tree A -> tree A) l :
  (forall acc q u,
      step acc (q, u) = if sel q u then setPathsTo acc [q] (w u) else acc) ->
  forall init, fold_left step l init = writes sel w l init.
Proof.
  intros Hstep. induction l as [|[q u] l IH]; intros init; simpl; auto.
  rewrite IH, Hstep. reflexivity.
Qed.

Lemma setPathsTo_single o q v : setPathsTo o [q] v = setPath o q (fun _ => v).
Proof. reflexivity. Qed.

Lemma writes_frame sel w p l : forall init,
  (forall q u, In (q, u) l -> sel q u = true ->
               prefixb p q = false /\ prefixb q p = false) ->
  valueAt (writes sel w l init) p = valueAt init p.
Proof.
  induction l as [|[q u] l IH]; intros init H; auto.
  rewrite writes_cons, IH.
  - destruct (sel q u) eqn:E; auto.
    destruct (H q u (or_introl eq_refl) E) as [H1 H2].
    rewrite setPathsTo_single. now apply valueAt_setPath_frame.
  - intros q' u' Hin. apply H. now right.
Qed.

Lemma writes_absent sel w p l : forall init,
  valueAt init p = None ->
  (forall q u, In (q, u) l -> sel q u = true ->
               isLeaf (w u) = true /\ prefixb p q = false) ->
  valueAt (writes sel w l init) p = None.
Proof.
  induction l as [|[q u] l IH]; intros init H0 H; auto.
  rewrite writes_cons. apply IH.
  - destruct (sel q u) eqn:E; auto.
    destruct (H q u (or_introl eq_refl) E) as [H1 H2].
    rewrite setPathsTo_single.
    destruct (prefixb q p) eqn:Hqp.
    + destruct q as [|k q]; [exact H0|].
      apply valueAt_setPath_above_leaf; auto. discriminate.
    + rewrite valueAt_setPath_frame; auto.
  - intros q' u' Hin. apply H. now right.
Qed.

Lemma writes_keep sel w p v l : forall init,
  p <> [] ->
  valueAt init p = Some (w v) ->
  (forall q u, In (q, u) l -> sel q u = true ->
               (q = p /\ u = v)
               \/ (prefixb p q = false /\ prefixb q p = false)) ->
  valueAt (writes sel w l init) p = Some (w v).
Proof.
  induction l as [|[q u] l IH]; intros init Hp H0 H; auto.
  rewrite writes_cons. apply IH; auto.
  - destruct (sel q u) eqn:E; auto.
    destruct (H q u (or_introl eq_refl) E) as [[-> ->]|[H1 H2]].
    + now apply valueAt_setPathsTo_same.
    + rewrite setPathsTo_single, valueAt_setPath_frame; auto.
  - intros q' u' Hin. apply H. now right.
Qed.

Lemma writes_target sel w p v l : forall init,
  In (p, v) l -> sel p v = true -> p <> [] ->
  (forall q u, In (q, u) l -> sel q u = true ->
               (q = p /\ u = v)
               \/ (prefixb p q = false /\ prefixb q p = false)) ->
  valueAt (writes sel w l init) p = Some (w v).
Proof.
  intros init Hin Hsel Hp H.
  apply in_split in Hin as [l1 [l2 ->]].
  rewrite writes_app, writes_cons, Hsel.
  apply writes_keep; auto.
  - now apply valueAt_setPathsTo_same.
  - intros q u Hq. apply H. apply in_or_app. right. now right.
Qed.

Lemma wf_obj_writes sel w l : forall init,
  wf_obj init = true ->
  (forall q u, In (q, u) l -> sel q u = true -> wf_tree (w u) = true) ->
  wf_obj (writes sel w l init) = true.
Proof.
  induction l as [|[q u] l IH]; intros init H0 H; auto.
  rewrite writes_cons. apply IH.
  - destruct (sel q u) eqn:E; auto.
    rewrite setPathsTo_single. apply wf_obj_setPath; auto.
    intros _. apply (H q u); auto. now left.
  - intros q' u' Hin. apply H. now right.
Qed.

(** Two values of a well-formed object that are not containers sit at the
    same path or at paths that do not run through one another. *)
Lemma leaves_unrelated o p q v u :
  valueAt o p = Some v -> isLeaf v = true ->
  valueAt o q = Some u -> isLeaf u = true ->
  (q = p /\ u = v) \/ (prefixb p q = false /\ prefixb q p = false).
Proof.
  intros Hp Hv Hq Hu.
  destruct (prefixb p q) eqn:Epq, (prefixb q p) eqn:Eqp.
  - left. assert (p = q) by now apply prefixb_antisym. subst. split; congruence.
  - assert (valueAt o q = None)
      by (apply valueAt_below_leaf with (p := p) (v := v); assumption).
    congruence.
  - assert (valueAt o p = None)
      by (apply valueAt_below_leaf with (p := q) (v := u); assumption).
    congruence.
  - now right.
Qed.

Lemma In_properPrefixes q : forall p,
  q <> [] -> prefixb q p = true -> prefixb p q = false ->
  In q (properPrefixes p).
Proof.
  induction q as [|k [|j r] IH]; intros p Hq Hqp Hpq.
  - contradiction.
  - destruct p as [|k' [|j' r']]; try discriminate.
    + simpl in Hqp, Hpq. rewrite andb_true_r in Hqp, Hpq.
      apply String.eqb_eq in Hqp. subst. now rewrite String.eqb_refl in Hpq.
    + simpl in Hqp. rewrite andb_true_r in Hqp.
      apply String.eqb_eq in Hqp. subst. now left.
  - destruct p as [|k' [|j' r']]; try discriminate.
    + simpl in Hqp. apply andb_true_iff in Hqp as [_ Hqp]. discriminate.
    + simpl in Hqp. apply andb_true_iff in Hqp as [E Hqp].
      apply String.eqb_eq in E. subst k'.
      change (properPrefixes (k :: j' :: r'))
        with ([k] :: map (cons k) (properPrefixes (j' :: r'))).
      right. apply in_map. apply IH; auto; try discriminate.
      simpl in Hpq. now rewrite String.eqb_refl in Hpq.
Qed.

End WriteFacts.

(** ** updateErrors without force *)

Lemma clearPrevious_writes Previous :
  clearPrevious Previous
  = writes (fun _ v => isArray v) (fun _ => Undef)
      (traversePaths Previous) Previous.
Proof.
  unfold clearPrevious. apply fold_left_writes. intros acc q u. reflexivity.
Qed.

Lemma writeNew_writes New Previous :
  writeNew New Previous
  = writes (fun _ v => isArray v || isUndef v) (fun v => v)
      (traversePaths New) Previous.
Proof.
  unfold writeNew. apply fold_left_writes. intros acc q u.
  destruct u; reflexivity.
Qed.

Lemma isLeaf_array_or_undef {A : Type} (v : tree A) :
  isArray v || isUndef v = isLeaf v.
Proof. destruct v; reflexivity. Qed.

Lemma clearPrevious_array Previous p msgs :
  wf_obj Previous = true ->
  valueAt Previous p = Some (Leaf msgs) ->
  valueAt (clearPrevious Previous) p = Some Undef.
Proof.
  intros Hwf Hp. rewrite clearPrevious_writes.
  apply (writes_target (fun _ v => isArray v) (fun _ => Undef)
           (p := p) (v := Leaf msgs)); auto.
  - now apply valueAt_traversePaths.
  - intros ->. discriminate.
  - intros q u Hin Hu. apply (leaves_unrelated Previous); auto.
    + now apply traversePaths_valueAt.
    + destruct u; auto; discriminate.
Qed.

Lemma clearPrevious_absent Previous p :
  wf_obj Previous = true ->
  valueAt Previous p = None ->
  valueAt (clearPrevious Previous) p = None.
Proof.
  intros Hwf Hp. rewrite clearPrevious_writes.
  destruct p as [|k p]; [reflexivity|].
  apply writes_absent; auto.
  intros q u Hin Hu. split; auto.
  destruct (prefixb (k :: p) q) eqn:E; auto.
  apply traversePaths_valueAt in Hin; auto.
  exfalso. eapply valueAt_prefix; eauto. discriminate.
Qed.

Lemma writeNew_leaf New Previous q v :
  wf_obj New = true ->
  In (q, v) (traversePaths New) -> isLeaf v = true ->
  valueAt (writeNew New Previous) q = Some v.
Proof.
  intros Hwf Hin Hv. rewrite writeNew_writes.
  apply (writes_target (fun _ v => isArray v || isUndef v) (fun v => v)
           (p := q) (v := v)); auto.
  - now rewrite isLeaf_array_or_undef.
  - intros ->. now apply traversePaths_nonempty in Hin.
  - intros q' u Hin' Hu. rewrite isLeaf_array_or_undef in Hu.
    apply (leaves_unrelated New); auto; now apply traversePaths_valueAt.
Qed.

Lemma writeNew_frame New Previous p :
  wf_obj New = true ->
  valueAt New p = None -> leafAbove New p = false ->
  valueAt (writeNew New Previous) p = valueAt Previous p.
Proof.
  intros Hwf Hp Habove. rewrite writeNew_writes.
  destruct p as [|k p].
  { now rewrite !valueAt_nil. }
  apply writes_frame. intros q u Hin Hu.
  rewrite isLeaf_array_or_undef in Hu.
  pose proof (@traversePaths_valueAt _ q New u Hwf Hin) as Hq.
  assert (prefixb (k :: p) q = false) as H1.
  { destruct (prefixb (k :: p) q) eqn:E; auto.
    exfalso. eapply valueAt_prefix; eauto. discriminate. }
  split; auto.
  destruct (prefixb q (k :: p)) eqn:E; auto.
  assert (leafAbove New (k :: p) = true); [|congruence].
  unfold leafAbove. apply existsb_exists. exists q. split.
  - apply In_properPrefixes; auto.
    intros ->. now apply traversePaths_nonempty in Hin.
  - now rewrite Hq.
Qed.

(** C4, as amended: without [force], [updateErrors] returns the object
    [Previous] and leaves [New] as it was; in [Previous] every array is
    first set to [undefined], its key staying, and then every array and
    every explicit [undefined] of [New] is written at its path.  Hence an
    array of [Previous] whose path is absent from [New] is there with the
    value [undefined] afterwards, provided [New] holds no array and no
    [undefined] on the way to that path. *)
Theorem updateErrors_merges_into_Previous :
  forall (h : heap) (New Previous : ref),
    New <> Previous ->
    wf_obj (h New) = true -> wf_obj (h Previous) = true ->
    fst (updateErrors h New Previous false) = Previous
    /\ snd (updateErrors h New Previous false) New = h New
    /\ snd (updateErrors h New Previous false) Previous
       = writeNew (h New) (clearPrevious (h Previous))
    /\ (forall p msgs,
          valueAt (h Previous) p = Some (Leaf msgs) ->
          valueAt (clearPrevious (h Previous)) p = Some Undef)
    /\ (forall q v,
          In (q, v) (traversePaths (h New)) -> isLeaf v = true ->
          valueAt (snd (updateErrors h New Previous false) Previous) q = Some v)
    /\ (forall p msgs,
          valueAt (h Previous) p = Some (Leaf msgs) ->
          valueAt (h New) p = None ->
          leafAbove (h New) p = false ->
          valueAt (snd (updateErrors h New Previous false) Previous) p
          = Some Undef).
Proof.
  intros h New Previous Hne HN HP.
  assert (snd (updateErrors h New Previous false) Previous
          = writeNew (h New) (clearPrevious (h Previous))) as Hres.
  { unfold updateErrors, heapSet. simpl. rewrite Nat.eqb_refl.
    apply Nat.eqb_neq in Hne. now rewrite Hne. }
  split; [reflexivity|]. split.
  { unfold updateErrors, heapSet. simpl.
    apply Nat.eqb_neq in Hne. now rewrite Hne. }
  split; [exact Hres|]. split.
  { intros p msgs. now apply clearPrevious_array. }
  rewrite Hres. split.
  - intros q v. now apply writeNew_leaf.
  - intros p msgs Hp Hn Ha. rewrite writeNew_frame; auto.
    now apply clearPrevious_array with (msgs := msgs).
Qed.

Lemma updateErrors_merges_into_Previous_witness :
  0 <> 1
  /\ wf_obj (mergeHeap 0) = true /\ wf_obj (mergeHeap 1) = true
  /\ valueAt (snd (updateErrors mergeHeap 0 1 false) 1) ["name"] = Some Undef
  /\ valueAt (snd (updateErrors mergeHeap 0 1 false) 1) ["email"]
     = Some (Leaf ["Invalid"]).
Proof.
  assert (0 <> 1) as Hne by discriminate.
  destruct (updateErrors_merges_into_Previous mergeHeap Hne eq_refl eq_refl)
    as [_ [_ [_ [_ [Hnew Hold]]]]].
  split; [exact Hne|]. split; [reflexivity|]. split; [reflexivity|]. split.
  - apply (Hold ["name"] ["Too short"]); reflexivity.
  - apply (Hnew ["email"] (Leaf ["Invalid"])); [|reflexivity].
    left. reflexivity.
Defined.

(** The array of [Previous] at [a.b], absent from [New], is not there
    with the value [undefined] afterwards: the array that [New] holds at
    [a] took the place of its parent. *)
Lemma updateErrors_leaf_removed :
  valueAt (overwriteHeap 1) ["a"; "b"] = Some (Leaf ["Too short"])
  /\ valueAt (overwriteHeap 0) ["a"; "b"] = None
  /\ snd (updateErrors overwriteHeap 0 1 false) 1 = [("a", Leaf ["Invalid"])]
  /\ valueAt (snd (updateErrors overwriteHeap 0 1 false) 1) ["a"; "b"] = None.
Proof. repeat split. Qed.

(** ** Form__displayNewErrors *)

Lemma displayOutput_writes s errs event force :
  displayOutput s errs event force
  = writes (fun p v => isArray v && (force || displaysError s event p))
      (fun v => v) (traversePaths errs) [].
Proof.
  unfold displayOutput. apply fold_left_writes. intros acc q u.
  destruct (isArray u); reflexivity.
Qed.

Lemma isArray_isLeaf {A : Type} (v : tree A) : isArray v = true -> isLeaf v = true.
Proof. destruct v; auto. Qed.

Lemma wf_obj_displayOutput s errs event force :
  wf_obj (displayOutput s errs event force) = true.
Proof.
  rewrite displayOutput_writes. apply wf_obj_writes; auto.
  intros q u _ H. apply andb_true_iff in H as [H _]. destruct u; auto; discriminate.
Qed.

Lemma displayOutput_suppressed s errs event p msgs :
  wf_obj errs = true ->
  In (p, Leaf msgs) (traversePaths errs) ->
  displaysError s event p = false ->
  valueAt (displayOutput s errs event false) p = None.
Proof.
  intros Hwf Hin Hd. rewrite displayOutput_writes.
  apply writes_absent; [apply valueAt_empty|].
  intros q u Hq Hsel. apply andb_true_iff in Hsel as [Hu Hdq].
  split; [now apply isArray_isLeaf|].
  destruct (@leaves_unrelated _ errs p q (Leaf msgs) u)
    as [[-> _]|[H _]]; auto.
  - now apply traversePaths_valueAt.
  - now apply traversePaths_valueAt.
  - now apply isArray_isLeaf.
  - simpl in Hdq. congruence.
Qed.

Lemma displayOutput_displayed s errs event p msgs :
  wf_obj errs = true ->
  In (p, Leaf msgs) (traversePaths errs) ->
  displaysError s event p = true ->
  valueAt (displayOutput s errs event false) p = Some (Leaf msgs).
Proof.
  intros Hwf Hin Hd. rewrite displayOutput_writes.
  apply (writes_target
           (fun p v => isArray v && (false || displaysError s event p))
           (fun v => v) (p := p) (v := Leaf msgs)).
  - exact Hin.
  - simpl. exact Hd.
  - intros ->. now apply traversePaths_nonempty in Hin.
  - intros q u Hq Hsel. apply andb_true_iff in Hsel as [Hu _].
    apply (leaves_unrelated errs); auto.
    + now apply traversePaths_valueAt.
    + now apply traversePaths_valueAt.
    + now apply isArray_isLeaf.
Qed.

Lemma previousErrorExists_valueAt previous p :
  previousErrorExists previous p = false -> valueAt previous p = None.
Proof.
  unfold previousErrorExists, valueAt, hasKey.
  destruct (pathExists previous p) as [d|]; auto.
  destruct (getField (parent d) (key d)); auto; discriminate.
Qed.

Lemma displaysError_false_previous s event p :
  displaysError s event p = false -> valueAt (Data_errors s) p = None.
Proof.
  unfold displaysError. intros H. apply previousErrorExists_valueAt.
  destruct (isEventError event p && isOnInput (validationMethod s)); [discriminate|].
  destruct (immediate event && negb (multiple event) && isEventError event p);
    [discriminate|].
  destruct (multiple event && siblingDisplayed (Data_errors s) p); [discriminate|].
  destruct (previousErrorExists (Data_errors s) p); [discriminate|reflexivity].
Qed.

Lemma Data_errors_displayNewErrors s errs event :
  exists s',
    Form__displayNewErrors s errs event false = Ok s'
    /\ Data_errors s'
       = writeNew (displayOutput s errs event false)
           (clearPrevious (Data_errors s)).
Proof.
  unfold Form__displayNewErrors. simpl.
  destruct (formElement event); [|destruct (EnhancedForm s)];
    eexists; split; reflexivity.
Qed.

(** C1, as amended: when an event is processed without [force], an array
    of the new error tree that the tests select is in the error store
    afterwards, at its path; one that no test selects is written nowhere:
    it is not in the output tree, its path was no key of the previous
    store, and it is no key of the resulting store either. *)
Theorem displayNewErrors_drops_unselected :
  forall (s : Engine) (errs : ErrorTree) (event : ChangeEvent)
         (p : path) (msgs : list string),
    wf_obj errs = true -> wf_obj (Data_errors s) = true ->
    In (p, Leaf msgs) (traversePaths errs) ->
    exists s',
      Form__displayNewErrors s errs event false = Ok s'
      /\ (displaysError s event p = true ->
          valueAt (Data_errors s') p = Some (Leaf msgs))
      /\ (displaysError s event p = false ->
          valueAt (displayOutput s errs event false) p = None
          /\ valueAt (Data_errors s) p = None
          /\ valueAt (Data_errors s') p = None).
Proof.
  intros s errs event p msgs Herrs Hprev Hin.
  destruct (Data_errors_displayNewErrors s errs event) as [s' [Hs' Hd]].
  exists s'. split; [exact Hs'|]. rewrite Hd.
  pose proof (wf_obj_displayOutput s errs event false) as Hout.
  split.
  - intros Hdisp. apply writeNew_leaf; auto.
    apply valueAt_traversePaths. now apply displayOutput_displayed.
  - intros Hdisp.
    pose proof (@displayOutput_suppressed s errs event p msgs Herrs Hin Hdisp)
      as Hnone.
    pose proof (@displaysError_false_previous s event p Hdisp) as Hp.
    split; [exact Hnone|]. split; [exact Hp|].
    rewrite writeNew_writes.
    assert (p <> []) as Hne.
    { intros ->. now apply traversePaths_nonempty in Hin. }
    apply writes_absent; [now apply clearPrevious_absent|].
    intros q u Hq Hu. rewrite isLeaf_array_or_undef in Hu. split; auto.
    destruct (prefixb p q) eqn:E; auto.
    apply traversePaths_valueAt in Hq; auto.
    exfalso. eapply valueAt_prefix; eauto.
Qed.

Lemma displayNewErrors_drops_unselected_witness :
  wf_obj nameAndEmailErrors = true /\ wf_obj (Data_errors autoEngine) = true
  /\ exists s',
      Form__displayNewErrors autoEngine nameAndEmailErrors nameBlur false = Ok s'
      /\ valueAt (Data_errors s') ["name"] = Some (Leaf ["Too short"])
      /\ valueAt (Data_errors s') ["email"] = None.
Proof.
  split; [reflexivity|]. split; [reflexivity|].
  destruct (@displayNewErrors_drops_unselected autoEngine nameAndEmailErrors
              nameBlur ["name"] ["Too short"]
              eq_refl eq_refl (or_introl eq_refl))
    as [s' [Hs' [Hshown _]]].
  destruct (@displayNewErrors_drops_unselected autoEngine nameAndEmailErrors
              nameBlur ["email"] ["Required"]
              eq_refl eq_refl (or_intror (or_introl eq_refl)))
    as [s'' [Hs'' [_ Hdropped]]].
  exists s'. split; [exact Hs'|]. split.
  - apply Hshown. reflexivity.
  - assert (s'' = s') as -> by congruence.
    apply Hdropped. reflexivity.
Defined.

(** An input event on [name]: the new error of [name] is selected by no
    test, and the resulting store has no key for it, where the claim
    has the key with the value [undefined]. *)
Lemma displayNewErrors_input_error_dropped :
  displaysError autoEngine nameInput ["name"] = false
  /\ exists s',
      Form__displayNewErrors autoEngine [("name", Leaf ["Too short"])]
        nameInput false = Ok s'
      /\ Data_errors s' = []
      /\ valueAt (Data_errors s') ["name"] <> Some Undef.
Proof.
  split; [reflexivity|].
  eexists. split; [reflexivity|]. split; [reflexivity|]. discriminate.
Qed.

(** ** Tainted_update *)

Section TaintFacts.

Lemma traversePath_value {A : Type} p : forall (o : obj A) d,
  traversePath o p = Some d -> value d = prop (parent d) (key d).
Proof.
  induction p as [|k [|j r] IH]; intros o d H.
  - discriminate.
  - injection H as <-. reflexivity.
  - simpl in H. destruct (getField o k) as [[| |c]|]; try discriminate.
    now apply IH in H.
Qed.

Lemma traversePath_valueOrUndef {A : Type} (o : obj A) p :
  match traversePath o p with Some d => value d | None => Undef end
  = valueOrUndef o p.
Proof.
  unfold valueOrUndef, valueAt, pathExists.
  destruct (traversePath o p) as [d|] eqn:E; auto.
  rewrite (traversePath_value _ _ E). reflexivity.
Qed.

Lemma setPaths_app {A : Type} (o : obj A) l1 l2 f :
  setPaths o (l1 ++ l2) f = setPaths (setPaths o l1 f) l2 f.
Proof. unfold setPaths. apply fold_left_app. Qed.

Lemma setPaths_cons {A : Type} (o : obj A) q l f :
  setPaths o (q :: l) f = setPaths (setPath o q (f q)) l f.
Proof. reflexivity. Qed.

Lemma setPaths_keeps_undef {A : Type} (f : path -> PathData (A:=A) -> tree A) p l :
  forall o,
    p <> [] ->
    valueOrUndef o p = Undef ->
    (forall d, f p d = Undef) ->
    (forall q, In q l -> gentle f q) ->
    (forall q, In q l -> prefixb p q = true -> q = p) ->
    valueOrUndef (setPaths o l f) p = Undef.
Proof.
  induction l as [|q l IH]; intros o Hp H0 Hfp Hg Hb; auto.
  rewrite setPaths_cons. apply IH; auto.
  - unfold valueOrUndef in *.
    destruct (prefixb p q) eqn:Epq.
    + rewrite (Hb q (or_introl eq_refl) Epq).
      destruct (valueAt_setPath_same o (f p) Hp) as [d ->]. apply Hfp.
    + destruct (prefixb q p) eqn:Eqp.
      * destruct q as [|k q]; [exact H0|].
        destruct (Hg (k :: q) (or_introl eq_refl)) as [Hleaf|Hsame].
        -- rewrite valueAt_setPath_above_leaf; auto. discriminate.
        -- rewrite valueAt_setPath_above_same; auto. discriminate.
      * rewrite valueAt_setPath_frame; auto.
  - intros q' Hq'. apply Hg. now right.
  - intros q' Hq'. apply Hb. now right.
Qed.

Lemma setPaths_heals {A : Type} (f : path -> PathData (A:=A) -> tree A) p l o :
  In p l ->
  (forall d, f p d = Undef) ->
  (forall q, In q l -> gentle f q) ->
  (forall q, In q l -> prefixb p q = true -> q = p) ->
  valueOrUndef (setPaths o l f) p = Undef.
Proof.
  intros Hin Hfp Hg Hb.
  destruct p as [|k p]; [reflexivity|].
  apply in_split in Hin as [l1 [l2 ->]].
  rewrite setPaths_app, setPaths_cons.
  apply setPaths_keeps_undef; auto.
  - discriminate.
  - unfold valueOrUndef.
    destruct (valueAt_setPath_same (setPaths o l1 f) (f (k :: p))
                (p := k :: p) ltac:(discriminate)) as [d ->].
    apply Hfp.
  - intros q Hq. apply Hg. apply in_or_app. right. now right.
  - intros q Hq. apply Hb. apply in_or_app. right. now right.
Qed.

Lemma taintUpdater_gentle newData clean newTainted taintOptions q :
  gentle (taintUpdater newData clean newTainted taintOptions) q.
Proof.
  unfold gentle, taintUpdater.
  destruct (negb (existsb (String.eqb (joinComma q)) newTainted)); [now left|].
  destruct (sameAsClean newData clean q); [now left|].
  destruct taintOptions as [[|]| | | |]; auto.
Qed.

Lemma Tainted_state_setHtmlEvent s ps :
  Tainted_state (NextChange_setHtmlEvent s ps) = Tainted_state s.
Proof.
  unfold NextChange_setHtmlEvent.
  destruct (NextChange s) as [nc|]; auto.
  destruct (negb (Nat.eqb (length ps) 0) && isFileInput (target nc)); auto.
Qed.

Lemma Tainted_clean_setHtmlEvent s ps :
  Tainted_clean (NextChange_setHtmlEvent s ps) = Tainted_clean s.
Proof.
  unfold NextChange_setHtmlEvent.
  destruct (NextChange s) as [nc|]; auto.
  destruct (negb (Nat.eqb (length ps) 0) && isFileInput (target nc)); auto.
Qed.

Lemma Tainted_clean_update s newData taintOptions :
  Tainted_clean (Tainted_update s newData taintOptions) = Tainted_clean s.
Proof.
  unfold Tainted_update.
  destruct taintOptions as [b| | | |]; auto;
    rewrite Tainted_clean_setHtmlEvent;
    destruct (comparePaths newData (Data_form s)); auto.
Qed.

Lemma noneBelow_spec p ps :
  noneBelow p ps = true ->
  forall q, In q ps -> prefixb p q = true -> q = p.
Proof.
  unfold noneBelow. rewrite forallb_forall. intros H q Hq Hpq.
  specialize (H q Hq). rewrite Hpq in H. simpl in H.
  unfold path_eqb in H. destruct (list_eq_dec string_dec q p); auto.
  discriminate.
Qed.

(** The general step: after an update with a policy other than
    ['ignore'], a changed path that the code finds equal to the clean
    value, and through which no other changed path runs, is [undefined]
    in the tainted tree. *)
Lemma Tainted_update_heals_path s newData taintOptions p :
  taintOptions <> Ignore ->
  In p (comparePaths newData (Data_form s)) ->
  existsb (String.eqb (joinComma p))
    (map joinComma (comparePaths newData (Tainted_clean s))) = false
  \/ sameAsClean newData (Tainted_clean s) p = true ->
  noneBelow p (comparePaths newData (Data_form s)) = true ->
  taintedAt (Tainted_update s newData taintOptions) p = Undef.
Proof.
  intros Hpol Hin Hclean Hbelow.
  unfold taintedAt, Tainted_update.
  assert (forall d,
             taintUpdater newData (Tainted_clean s)
               (map joinComma (comparePaths newData (Tainted_clean s)))
               taintOptions p d = Undef) as Hfp.
  { intros d. unfold taintUpdater.
    destruct Hclean as [-> | H]; auto.
    destruct (negb _); auto. now rewrite H. }
  destruct (comparePaths newData (Data_form s)) as [|q0 ps] eqn:Eps;
    [contradiction|].
  destruct taintOptions as [b| | | |]; try contradiction;
    rewrite Tainted_state_setHtmlEvent;
    cbn [Tainted_state withTainted]; cbv beta iota; auto;
    rewrite traversePath_valueOrUndef;
    (apply setPaths_heals;
     [exact Hin | exact Hfp
     | intros q _; apply taintUpdater_gentle
     | now apply noneBelow_spec]).
Qed.

Lemma sameScalar_refl a : sameScalar a a = true.
Proof.
  destruct a; simpl; auto using Z.eqb_refl, String.eqb_refl, Nat.eqb_refl.
  destruct b; reflexivity.
Qed.

Lemma filter_none {X : Type} (f : X -> bool) l :
  (forall x, In x l -> f x = false) -> filter f l = [].
Proof.
  induction l as [|x l IH]; intros H; simpl; auto.
  rewrite (H x (or_introl eq_refl)). apply IH. intros y Hy. apply H. now right.
Qed.

Lemma checkPaths_refl x : wf_obj x = true -> checkPaths x x = [].
Proof.
  intros Hwf. unfold checkPaths. rewrite filter_none; auto.
  intros [p v] Hin.
  pose proof (@traversePaths_valueAt _ p x v Hwf Hin) as Hv.
  unfold valueAt, pathExists in Hv.
  destruct (traversePath x p) as [d|] eqn:E; [|discriminate].
  rewrite (traversePath_value _ _ E). unfold prop. rewrite Hv.
  destruct v as [|a|c]; simpl; auto.
  now rewrite sameScalar_refl.
Qed.

(** The diff of a well-formed tree with itself is empty. *)
Lemma comparePaths_refl x : wf_obj x = true -> comparePaths x x = [].
Proof.
  intros Hwf. unfold comparePaths. now rewrite checkPaths_refl.
Qed.

(** *** A subtree without a tainted leaf *)

Lemma existsb_setField_false (P : tree bool -> bool) (o : obj bool) k v :
  existsb (fun kv => P (snd kv)) o = false -> P v = false ->
  existsb (fun kv => P (snd kv)) (setField o k v) = false.
Proof.
  intros Ho Hv. induction o as [|[k' v'] r IH]; simpl in *.
  - now rewrite Hv.
  - apply orb_false_iff in Ho as [H1 H2].
    destruct (String.eqb k' k); simpl.
    + now rewrite Hv, H2.
    + now rewrite H1, IH.
Qed.

Lemma untainted_getField (o : obj bool) k v :
  Tainted__isObjectTainted (Node o) = false -> getField o k = Some v ->
  Tainted__isObjectTainted v = false.
Proof.
  simpl. intros Ho Hg. apply getField_In in Hg.
  destruct (Tainted__isObjectTainted v) eqn:E; auto.
  assert (existsb (fun kv => Tainted__isObjectTainted (snd kv)) o = true);
    [|congruence].
  apply existsb_exists. exists (k, v). auto.
Qed.

Lemma untainted_childOf (o : obj bool) k :
  Tainted__isObjectTainted (Node o) = false ->
  Tainted__isObjectTainted (Node (childOf o k)) = false.
Proof.
  intros Ho. unfold childOf.
  destruct (getField o k) as [[| |c]|] eqn:E; auto.
  exact (untainted_getField _ _ Ho E).
Qed.

Lemma untainted_setPath r : forall (c : obj bool) f,
  (forall d, f d = Undef) ->
  Tainted__isObjectTainted (Node c) = false ->
  Tainted__isObjectTainted (Node (setPath c r f)) = false.
Proof.
  induction r as [|k [|j r] IH]; intros c f Hf Hc; auto.
  - rewrite setPath_single, Hf.
    apply (existsb_setField_false Tainted__isObjectTainted); auto.
  - rewrite setPath_cons.
    apply (existsb_setField_false Tainted__isObjectTainted); auto.
    apply IH; auto. now apply untainted_childOf.
Qed.

Lemma untainted_setPath_below p : forall (o : obj bool) q f,
  p <> [] -> prefixb p q = true -> prefixb q p = false ->
  (forall d, f d = Undef) ->
  Tainted__isObjectTainted (valueOrUndef o p) = false ->
  Tainted__isObjectTainted (valueOrUndef (setPath o q f) p) = false.
Proof.
  induction p as [|k [|j r] IH]; intros o q f Hp Hpq Hqp Hf H0.
  - contradiction.
  - destruct q as [|k' [|j' r']]; try discriminate.
    + simpl in Hqp, Hpq. rewrite andb_true_r in Hqp, Hpq.
      apply String.eqb_eq in Hpq. subst. now rewrite String.eqb_refl in Hqp.
    + simpl in Hpq. rewrite andb_true_r in Hpq.
      apply String.eqb_eq in Hpq. subst k'.
      unfold valueOrUndef in *.
      rewrite setPath_cons, valueAt_single, getField_setField_same.
      apply untainted_setPath; auto.
      rewrite valueAt_single in H0. unfold childOf.
      destruct (getField o k) as [[| |c]|]; auto.
  - destruct q as [|k' [|j' r']]; try discriminate.
    + simpl in Hpq. apply andb_true_iff in Hpq as [_ Hpq]. discriminate.
    + simpl in Hpq. apply andb_true_iff in Hpq as [E Hpq].
      apply String.eqb_eq in E. subst k'.
      unfold valueOrUndef in *.
      rewrite setPath_cons, valueAt_cons, getField_setField_same.
      rewrite (valueAt_childOf o) in H0.
      apply IH; auto; try discriminate.
      simpl in Hqp. now rewrite String.eqb_refl in Hqp.
Qed.

Lemma setPaths_keeps_untainted (f : path -> PathData (A:=bool) -> tree bool) p l :
  forall o,
    p <> [] ->
    (forall q d, In q l -> f q d = Undef) ->
    Tainted__isObjectTainted (valueOrUndef o p) = false ->
    Tainted__isObjectTainted (valueOrUndef (setPaths o l f) p) = false.
Proof.
  induction l as [|q l IH]; intros o Hp Hf H0; auto.
  rewrite setPaths_cons. apply IH; auto.
  - intros q' d Hq'. apply Hf. now right.
  - assert (forall d, f q d = Undef) as Hq by (intros d; apply Hf; now left).
    destruct (prefixb p q) eqn:Epq, (prefixb q p) eqn:Eqp.
    + assert (p = q) by now apply prefixb_antisym. subst q.
      unfold valueOrUndef.
      destruct (valueAt_setPath_same o (f p) Hp) as [d ->]. now rewrite Hq.
    + now apply untainted_setPath_below.
    + destruct q as [|k q]; [exact H0|].
      unfold valueOrUndef. rewrite valueAt_setPath_above_leaf; auto.
      * discriminate.
      * intros d. now rewrite Hq.
    + unfold valueOrUndef in *. rewrite valueAt_setPath_frame; auto.
Qed.

Lemma setPaths_untaints (f : path -> PathData (A:=bool) -> tree bool) p l o :
  In p l ->
  (forall q d, In q l -> f q d = Undef) ->
  Tainted__isObjectTainted (valueOrUndef (setPaths o l f) p) = false.
Proof.
  intros Hin Hf.
  destruct p as [|k p]; [reflexivity|].
  apply in_split in Hin as [l1 [l2 E]]. subst l.
  rewrite setPaths_app, setPaths_cons.
  apply setPaths_keeps_untainted.
  - discriminate.
  - intros q d Hq. apply Hf. apply in_or_app. right. now right.
  - unfold valueOrUndef.
    destruct (valueAt_setPath_same (setPaths o l1 f) (f (k :: p))
                (p := k :: p) ltac:(discriminate)) as [d ->].
    rewrite Hf; auto. apply in_or_app. right. now left.
Qed.

(** Setting the data back to the clean snapshot leaves no tainted leaf at
    or below any path that changes back. *)
Lemma Tainted_update_back_to_clean s newData taintOptions p :
  wf_obj (Tainted_clean s) = true ->
  newData = Tainted_clean s ->
  taintOptions <> Ignore ->
  In p (comparePaths newData (Data_form s)) ->
  Tainted__isObjectTainted
    (taintedAt (Tainted_update s newData taintOptions) p) = false.
Proof.
  intros Hwf -> Hpol Hin.
  unfold taintedAt, Tainted_update.
  rewrite comparePaths_refl by assumption.
  destruct (comparePaths (Tainted_clean s) (Data_form s)) as [|q0 ps] eqn:Eps;
    [contradiction|].
  destruct taintOptions as [b| | | |]; try contradiction;
    rewrite Tainted_state_setHtmlEvent;
    cbn [Tainted_state withTainted]; cbv beta iota; auto;
    rewrite traversePath_valueOrUndef;
    (apply setPaths_untaints; [exact Hin | reflexivity]).
Qed.

End TaintFacts.

(** C3, as amended: after an update with a policy other than ['ignore'],
    every changed path that the code finds equal to the clean value, and
    through which no other changed path runs, is [undefined] in the
    tainted tree.  Hence, when the data is changed away from the clean
    snapshot, under any policy, and is then set back to it, every path
    that changes back, and through which no other changed path runs, is
    [undefined] in the tainted tree. *)
Theorem Tainted_update_heals :
  (forall (s : Engine) (newData : DataTree) (taintOptions : TaintOption)
          (p : path),
      taintOptions <> Ignore ->
      In p (comparePaths newData (Data_form s)) ->
      existsb (String.eqb (joinComma p))
        (map joinComma (comparePaths newData (Tainted_clean s))) = false
      \/ sameAsClean newData (Tainted_clean s) p = true ->
      noneBelow p (comparePaths newData (Data_form s)) = true ->
      taintedAt (Tainted_update s newData taintOptions) p = Undef)
  /\ (forall (s : Engine) (away : DataTree) (first second : TaintOption)
             (p : path),
        wf_obj (Tainted_clean s) = true ->
        second <> Ignore ->
        In p (comparePaths (Tainted_clean s) away) ->
        noneBelow p (comparePaths (Tainted_clean s) away) = true ->
        taintedAt
          (Tainted_update (Form_set s away first) (Tainted_clean s) second) p
        = Undef)
  /\ (forall (s : Engine) (away : DataTree) (first second : TaintOption)
             (p : path),
        wf_obj (Tainted_clean s) = true ->
        second <> Ignore ->
        In p (comparePaths (Tainted_clean s) away) ->
        Tainted__isObjectTainted
          (taintedAt
             (Tainted_update (Form_set s away first) (Tainted_clean s) second) p)
        = false).
Proof.
  split; [|split].
  - intros s newData taintOptions p. apply Tainted_update_heals_path.
  - intros s away first second p Hwf Hpol Hin Hbelow.
    apply Tainted_update_heals_path; auto.
    left. unfold Form_set. cbn [Tainted_clean withForm].
    rewrite Tainted_clean_update, comparePaths_refl; auto.
  - intros s away first second p Hwf Hpol Hin.
    apply Tainted_update_back_to_clean; auto.
    + unfold Form_set. cbn [Tainted_clean withForm].
      now rewrite Tainted_clean_update.
    + unfold Form_set. cbn [Tainted_clean withForm].
      now rewrite Tainted_clean_update.
Qed.

Lemma Tainted_update_heals_witness :
  wf_obj (Tainted_clean cleanEngine) = true
  /\ TaintBool true <> Ignore
  /\ taintedAt (Form_set cleanEngine [("name", Leaf (SStr "Al"))] (TaintBool true))
       ["name"] = Leaf true
  /\ taintedAt
       (Tainted_update
          (Form_set cleanEngine [("name", Leaf (SStr "Al"))] (TaintBool true))
          (Tainted_clean cleanEngine) (TaintBool true)) ["name"]
     = Undef.
Proof.
  split; [reflexivity|]. split; [discriminate|]. split; [reflexivity|].
  apply (proj1 (proj2 Tainted_update_heals) cleanEngine
           [("name", Leaf (SStr "Al"))] (TaintBool true) (TaintBool true)
           ["name"]).
  - reflexivity.
  - discriminate.
  - left. reflexivity.
  - reflexivity.
Defined.

(** [a] is set to [{ b: 2 }] and then back to [null]: [a] changes back to
    its clean value, and the tainted tree holds an object at [a]. *)
Lemma Tainted_update_leaves_object :
  In ["a"]
    (comparePaths (Tainted_clean nullableEngine)
       [("a", Node [("b", Leaf (SNum 2))])])
  /\ Tainted_state
       (Tainted_update
          (Form_set nullableEngine [("a", Node [("b", Leaf (SNum 2))])]
             (TaintBool true))
          (Tainted_clean nullableEngine) (TaintBool true))
     = Some [("a", Node [("b", Undef)])]
  /\ taintedAt
       (Tainted_update
          (Form_set nullableEngine [("a", Node [("b", Leaf (SNum 2))])]
             (TaintBool true))
          (Tainted_clean nullableEngine) (TaintBool true)) ["a"]
     <> Undef.
Proof.
  split; [left; reflexivity|]. split; [reflexivity|]. discriminate.
Qed.

(* ================================================================= *)
(** * Part IV: further properties of the code *)

(** ** Reading after writing, once more *)

Section MorePathFacts.
Context {A : Type}.
Implicit Types (o : obj A) (k j : string) (v : tree A) (p q r : path).

(** What was written is read back, and the updater was given the value
    that was there. *)
Lemma valueAt_setPath_updated p : forall o (f : PathData (A:=A) -> tree A),
  p <> [] ->
  exists d, valueAt (setPath o p f) p = Some (f d)
            /\ value d = valueOrUndef o p.
Proof.
  induction p as [|k r IH]; intros o f Hp; [contradiction|].
  destruct r as [|j r'].
  - rewrite setPath_single, valueAt_single, getField_setField_same.
    eexists. split; [reflexivity|]. simpl.
    unfold valueOrUndef. rewrite valueAt_single. reflexivity.
  - rewrite setPath_cons, valueAt_cons, getField_setField_same.
    destruct (IH (childOf o k) f) as [d [H1 H2]]; [discriminate|].
    exists d. split; [exact H1|]. rewrite H2.
    unfold valueOrUndef. now rewrite valueAt_childOf.
Qed.

(** A write below a path leaves an object at that path. *)
Lemma valueAt_setPath_below p : forall o q (f : PathData (A:=A) -> tree A),
  p <> [] -> prefixb p q = true -> prefixb q p = false ->
  exists c, valueAt (setPath o q f) p = Some (Node c).
Proof.
  induction p as [|k r IH]; intros o q f Hp Hpq Hqp; [contradiction|].
  destruct q as [|k' q']; [discriminate|].
  simpl in Hpq, Hqp. apply andb_true_iff in Hpq as [Hk Hr].
  apply String.eqb_eq in Hk. subst k'. rewrite String.eqb_refl in Hqp.
  simpl in Hqp.
  destruct q' as [|j q''].
  - destruct r; simpl in Hr, Hqp; discriminate.
  - rewrite setPath_cons. destruct r as [|j' r'].
    + rewrite valueAt_single, getField_setField_same. eexists. reflexivity.
    + rewrite valueAt_cons, getField_setField_same.
      apply IH; [discriminate|exact Hr|exact Hqp].
Qed.

(** Above a path that leads somewhere there are objects only. *)
Lemma valueAt_above_Node q : forall o p v,
  valueAt o p = Some v ->
  q <> [] -> prefixb q p = true -> prefixb p q = false ->
  exists c, valueAt o q = Some (Node c).
Proof.
  induction q as [|k r IH]; intros o p v Hv Hq Hqp Hpq; [contradiction|].
  destruct p as [|k' p']; [discriminate|].
  simpl in Hqp, Hpq. apply andb_true_iff in Hqp as [Hk Hr].
  apply String.eqb_eq in Hk. subst k'. rewrite String.eqb_refl in Hpq.
  simpl in Hpq.
  destruct p' as [|j p''].
  - destruct r; simpl in Hr, Hpq; discriminate.
  - rewrite valueAt_cons in Hv.
    destruct (getField o k) as [[| |c]|] eqn:E; try discriminate.
    destruct r as [|j' r'].
    + rewrite valueAt_single, E. eexists. reflexivity.
    + rewrite valueAt_cons, E.
      apply IH with (p := j :: p'') (v := v); auto. discriminate.
Qed.

Lemma setPaths_frame (f : path -> PathData (A:=A) -> tree A) p l : forall o,
  (forall q, In q l -> prefixb p q = false /\ prefixb q p = false) ->
  valueAt (setPaths o l f) p = valueAt o p.
Proof.
  induction l as [|q l IH]; intros o Hl; [reflexivity|].
  rewrite setPaths_cons, IH.
  - destruct (Hl q (or_introl eq_refl)) as [H1 H2].
    now apply valueAt_setPath_frame.
  - intros q' Hq'. apply Hl. now right.
Qed.

(** A path that is written, and that every other written path is apart
    from, holds what the updater gives for it, when that does not depend
    on what is found. *)
Lemma setPaths_keep (f : path -> PathData (A:=A) -> tree A) p v l : forall o,
  valueAt o p = Some v -> p <> [] -> (forall d, f p d = v) ->
  (forall q, In q l ->
             q = p \/ (prefixb p q = false /\ prefixb q p = false)) ->
  valueAt (setPaths o l f) p = Some v.
Proof.
  induction l as [|q l IH]; intros o Ho Hp Hf Hl; [exact Ho|].
  rewrite setPaths_cons. apply IH; auto.
  - destruct (Hl q (or_introl eq_refl)) as [->|[H1 H2]].
    + destruct (@valueAt_setPath_same A p o (f p) Hp) as [d Hd].
      rewrite Hd. now rewrite Hf.
    + rewrite valueAt_setPath_frame; auto.
  - intros q' Hq'. apply Hl. now right.
Qed.

Lemma setPaths_target (f : path -> PathData (A:=A) -> tree A) p v l :
  forall o,
    In p l -> p <> [] -> (forall d, f p d = v) ->
    (forall q, In q l ->
               q = p \/ (prefixb p q = false /\ prefixb q p = false)) ->
    valueAt (setPaths o l f) p = Some v.
Proof.
  induction l as [|q l IH]; intros o Hin Hp Hf Hl; [contradiction|].
  assert (forall q', In q' l ->
            q' = p \/ (prefixb p q' = false /\ prefixb q' p = false)) as Hl'.
  { intros q' Hq'. apply Hl. now right. }
  rewrite setPaths_cons.
  destruct (Hl q (or_introl eq_refl)) as [->|[H1 H2]].
  - apply setPaths_keep; auto.
    destruct (@valueAt_setPath_same A p o (f p) Hp) as [d Hd].
    rewrite Hd. now rewrite Hf.
  - destruct Hin as [->|Hin].
    + now rewrite prefixb_refl in H1.
    + now apply IH.
Qed.

(** A path that is written back as it is found, and that every other
    written path is apart from, reads as before. *)
Lemma setPaths_same_value (f : path -> PathData (A:=A) -> tree A) p l :
  forall o,
    p <> [] -> (forall d, f p d = value d) ->
    (forall q, In q l ->
               q = p \/ (prefixb p q = false /\ prefixb q p = false)) ->
    valueOrUndef (setPaths o l f) p = valueOrUndef o p.
Proof.
  induction l as [|q l IH]; intros o Hp Hf Hl; [reflexivity|].
  rewrite setPaths_cons, IH; auto.
  - destruct (Hl q (or_introl eq_refl)) as [->|[H1 H2]].
    + destruct (@valueAt_setPath_updated p o (f p) Hp) as [d [Hd Hv]].
      unfold valueOrUndef at 1. rewrite Hd, Hf. exact Hv.
    + unfold valueOrUndef. rewrite valueAt_setPath_frame; auto.
  - intros q' Hq'. apply Hl. now right.
Qed.

End MorePathFacts.

Lemma apart_spec p q :
  apart p q = true -> prefixb p q = false /\ prefixb q p = false.
Proof.
  unfold apart. intros H. apply andb_true_iff in H as [H1 H2].
  apply negb_true_iff in H1. apply negb_true_iff in H2. now split.
Qed.

Lemma apartFromAll_spec p ps :
  apartFromAll p ps = true ->
  forall q, In q ps -> prefixb p q = false /\ prefixb q p = false.
Proof.
  unfold apartFromAll. rewrite forallb_forall. intros H q Hq.
  apply apart_spec. now apply H.
Qed.

Lemma aloneAmong_spec p ps :
  aloneAmong p ps = true ->
  forall q, In q ps ->
            q = p \/ (prefixb p q = false /\ prefixb q p = false).
Proof.
  unfold aloneAmong. rewrite forallb_forall. intros H q Hq.
  specialize (H q Hq). apply orb_true_iff in H as [H|H].
  - left. unfold path_eqb in H.
    destruct (list_eq_dec string_dec q p); [assumption|discriminate].
  - right. now apply apart_spec.
Qed.

Lemma In_dedupe ps : forall seen p, In p (dedupe seen ps) -> In p ps.
Proof.
  induction ps as [|q r IH]; intros seen p; simpl; [tauto|].
  destruct (existsb (path_eqb q) seen).
  - intros H. right. now apply IH with (seen := seen).
  - intros [H|H]; [now left|]. right. now apply IH with (seen := q :: seen).
Qed.

Lemma In_checkPaths_nonempty a b p : In p (checkPaths a b) -> p <> [].
Proof.
  unfold checkPaths. rewrite in_map_iff. intros [[q v] [Hq Hin]].
  simpl in Hq. subst q. apply filter_In in Hin as [Hin _].
  intros ->. exact (traversePaths_nonempty _ _ Hin).
Qed.

Lemma In_comparePaths_nonempty a b p : In p (comparePaths a b) -> p <> [].
Proof.
  unfold comparePaths. intros H. apply In_dedupe in H.
  apply in_app_or in H as [H|H]; now apply In_checkPaths_nonempty in H.
Qed.

(** ** The tainted tree *)

Lemma tainted_traversePath p : forall (t : obj bool) d,
  traversePath t p = Some d ->
  Tainted__isObjectTainted (value d) = true ->
  hasKey (parent d) (key d) = true
  /\ Tainted__isObjectTainted (Node t) = true.
Proof.
  induction p as [|k r IH]; intros t d; [discriminate|].
  destruct r as [|j r'].
  - simpl. intros [= <-]. simpl. unfold prop, hasKey.
    destruct (getField t k) as [v|] eqn:E; [|discriminate].
    intros Hv. split; [reflexivity|].
    apply existsb_exists. exists (k, v). split; [now apply getField_In|exact Hv].
  - change (traversePath t (k :: j :: r'))
      with (match getField t k with
            | Some (Node child) => traversePath child (j :: r')
            | _ => None
            end).
    destruct (getField t k) as [[| |c]|] eqn:E; try discriminate.
    intros Hd Hv. destruct (IH c d Hd Hv) as [H1 H2]. split; [exact H1|].
    simpl. apply existsb_exists. exists (k, Node c).
    split; [now apply getField_In|exact H2].
Qed.

Lemma valueOrUndef_tainted p (t : obj bool) :
  Tainted__isObjectTainted (valueOrUndef t p) = true ->
  Tainted__isObjectTainted (Node t) = true.
Proof.
  rewrite <- traversePath_valueOrUndef.
  destruct (traversePath t p) as [d|] eqn:E; [|discriminate].
  intros H. exact (proj2 (tainted_traversePath p t E H)).
Qed.

(** X1: a path that [isTainted] finds tainted has been tainted, for
    [hasBeenTainted], and the form as a whole is tainted. *)
Theorem Tainted_isTainted_path :
  forall (s : Engine) (p : string),
    Tainted_isTainted s (ArgPath p) = true ->
    Tainted_hasBeenTainted s p = true
    /\ Tainted_isTainted s ArgNone = true.
Proof.
  intros s p. unfold Tainted_isTainted, Tainted_hasBeenTainted.
  destruct (Tainted_state s) as [tainted|]; [|discriminate].
  destruct (String.eqb p EmptyString); [auto|].
  unfold pathExists.
  destruct (traversePath tainted (splitPath p)) as [field|] eqn:E;
    [|discriminate].
  intros H. exact (tainted_traversePath _ _ E H).
Qed.

Lemma Tainted_isTainted_path_witness :
  Tainted_isTainted autoEngine (ArgPath "name") = true
  /\ Tainted_hasBeenTainted autoEngine "name" = true
  /\ Tainted_isTainted autoEngine ArgNone = true.
Proof.
  split; [reflexivity|].
  apply (Tainted_isTainted_path autoEngine "name"). reflexivity.
Defined.

(** X2: with the policy [true], a changed path that differs from the
    clean value, and that every other changed path is apart from, is
    [true] in the tainted tree afterwards, and the form is tainted. *)
Theorem Tainted_update_taints :
  forall (s : Engine) (newData : DataTree) (p : path),
    In p (comparePaths newData (Data_form s)) ->
    existsb (String.eqb (joinComma p))
      (map joinComma (comparePaths newData (Tainted_clean s))) = true ->
    sameAsClean newData (Tainted_clean s) p = false ->
    aloneAmong p (comparePaths newData (Data_form s)) = true ->
    taintedAt (Tainted_update s newData (TaintBool true)) p = Leaf true
    /\ Tainted_isTainted (Tainted_update s newData (TaintBool true)) ArgNone
       = true.
Proof.
  intros s newData p Hin Hnew Hclean Halone.
  assert (taintedAt (Tainted_update s newData (TaintBool true)) p = Leaf true)
    as Hp.
  { unfold taintedAt, Tainted_update.
    destruct (comparePaths newData (Data_form s)) as [|q0 ps] eqn:Eps;
      [contradiction|].
    rewrite Tainted_state_setHtmlEvent.
    cbn [Tainted_state withTainted]. cbv beta iota.
    rewrite traversePath_valueOrUndef. unfold valueOrUndef.
    rewrite setPaths_target with (v := Leaf true); auto.
    - apply (In_comparePaths_nonempty newData (Data_form s)).
      rewrite Eps. exact Hin.
    - intros d. unfold taintUpdater. now rewrite Hnew, Hclean.
    - now apply aloneAmong_spec. }
  split; [exact Hp|].
  unfold taintedAt in Hp. unfold Tainted_isTainted.
  destruct (Tainted_state (Tainted_update s newData (TaintBool true)))
    as [t|]; [|discriminate].
  rewrite traversePath_valueOrUndef in Hp.
  apply valueOrUndef_tainted with (p := p). now rewrite Hp.
Qed.

Lemma Tainted_update_taints_witness :
  In ["name"] (comparePaths [("name", Leaf (SStr "Al"))] (Data_form cleanEngine))
  /\ taintedAt
       (Tainted_update cleanEngine [("name", Leaf (SStr "Al"))] (TaintBool true))
       ["name"] = Leaf true
  /\ Tainted_isTainted
       (Tainted_update cleanEngine [("name", Leaf (SStr "Al"))] (TaintBool true))
       ArgNone = true.
Proof.
  split; [left; reflexivity|].
  apply (Tainted_update_taints cleanEngine [("name", Leaf (SStr "Al"))] ["name"]).
  - left. reflexivity.
  - reflexivity.
  - reflexivity.
  - reflexivity.
Defined.

(** X3: an update with the policy [true], [false] or ['untaint'] leaves
    the tainted value of every path that is apart from all changed paths
    as it was; with the policy [false], a changed path that differs from
    the clean value, and that every other changed path is apart from,
    keeps its tainted value as well. *)
Theorem Tainted_update_keeps_other_paths :
  forall (s : Engine) (newData : DataTree) (taintOptions : TaintOption)
         (p : path),
    (exists b, taintOptions = TaintBool b) \/ taintOptions = Untaint ->
    (apartFromAll p (comparePaths newData (Data_form s)) = true ->
     taintedAt (Tainted_update s newData taintOptions) p = taintedAt s p)
    /\ (taintOptions = TaintBool false ->
        In p (comparePaths newData (Data_form s)) ->
        existsb (String.eqb (joinComma p))
          (map joinComma (comparePaths newData (Tainted_clean s))) = true ->
        sameAsClean newData (Tainted_clean s) p = false ->
        aloneAmong p (comparePaths newData (Data_form s)) = true ->
        taintedAt (Tainted_update s newData taintOptions) p = taintedAt s p).
Proof.
  intros s newData taintOptions p Hpol.
  assert (forall t : option TaintedTree,
             match t with
             | Some t' => match traversePath t' p with
                          | Some d => value d | None => Undef end
             | None => Undef
             end
             = valueOrUndef (match t with Some t' => t' | None => [] end) p)
    as Hread.
  { intros [t'|]; [apply traversePath_valueOrUndef|].
    unfold valueOrUndef. now rewrite valueAt_empty. }
  split.
  - intros Hapart. unfold taintedAt, Tainted_update.
    destruct (comparePaths newData (Data_form s)) as [|q0 ps] eqn:Eps.
    + destruct Hpol as [[b ->]| ->];
        now rewrite Tainted_state_setHtmlEvent.
    + destruct Hpol as [[b ->]| ->];
        rewrite Tainted_state_setHtmlEvent;
        cbn [Tainted_state withTainted]; cbv beta iota;
        rewrite traversePath_valueOrUndef, (Hread (Tainted_state s));
        unfold valueOrUndef;
        (rewrite setPaths_frame; [reflexivity|]);
        now apply apartFromAll_spec.
  - intros -> Hin Hnew Hclean Halone. unfold taintedAt, Tainted_update.
    destruct (comparePaths newData (Data_form s)) as [|q0 ps] eqn:Eps;
      [contradiction|].
    rewrite Tainted_state_setHtmlEvent.
    cbn [Tainted_state withTainted]. cbv beta iota.
    rewrite traversePath_valueOrUndef, (Hread (Tainted_state s)).
    apply setPaths_same_value.
    + apply (In_comparePaths_nonempty newData (Data_form s)).
      rewrite Eps. exact Hin.
    + intros d. unfold taintUpdater. now rewrite Hnew, Hclean.
    + now apply aloneAmong_spec.
Qed.

Lemma Tainted_update_keeps_other_paths_witness :
  (apartFromAll ["name"] (comparePaths typedEmail (Data_form autoEngine)) = true
   /\ taintedAt (Tainted_update autoEngine typedEmail (TaintBool true)) ["name"]
      = taintedAt autoEngine ["name"])
  /\ (In ["name"] (comparePaths renamed (Data_form autoEngine))
      /\ taintedAt (Tainted_update autoEngine renamed (TaintBool false)) ["name"]
         = taintedAt autoEngine ["name"]).
Proof.
  split.
  - split; [reflexivity|].
    apply (proj1 (@Tainted_update_keeps_other_paths autoEngine typedEmail
                    (TaintBool true) ["name"]
                    (or_introl (ex_intro _ true eq_refl)))).
    reflexivity.
  - split; [left; reflexivity|].
    apply (proj2 (@Tainted_update_keeps_other_paths autoEngine renamed
                    (TaintBool false) ["name"]
                    (or_introl (ex_intro _ false eq_refl)))).
    + reflexivity.
    + left. reflexivity.
    + reflexivity.
    + reflexivity.
    + reflexivity.
Defined.

(** X4: setting the form to the data it holds changes neither the
    tainted tree nor the data nor the clean data, whatever the policy;
    the change event with no paths is scheduled all the same, unless the
    policy is ['ignore']. *)
Theorem Form_set_same_data :
  forall (s : Engine) (taint : TaintOption),
    wf_obj (Data_form s) = true ->
    Tainted_state (Form_set s (Data_form s) taint) = Tainted_state s
    /\ Data_form (Form_set s (Data_form s) taint) = Data_form s
    /\ Tainted_clean (Form_set s (Data_form s) taint) = Tainted_clean s
    /\ (taint <> Ignore ->
        log (Form_set s (Data_form s) taint) = log s ++ [ClientValidationTimer]).
Proof.
  intros s taint Hwf. unfold Form_set.
  cbn [Tainted_state Data_form Tainted_clean log withForm].
  rewrite Tainted_clean_update.
  split; [|split; [reflexivity|split; [reflexivity|]]].
  - unfold Tainted_update. rewrite comparePaths_refl by assumption.
    destruct taint; try reflexivity; now rewrite Tainted_state_setHtmlEvent.
  - intros Hpol. unfold Tainted_update.
    rewrite comparePaths_refl by assumption.
    destruct taint; try contradiction;
      unfold NextChange_setHtmlEvent; simpl;
      destruct (NextChange s); reflexivity.
Qed.

Lemma Form_set_same_data_witness :
  wf_obj (Data_form autoEngine) = true
  /\ Tainted_state (Form_set autoEngine (Data_form autoEngine) (TaintBool true))
     = Tainted_state autoEngine.
Proof.
  split; [reflexivity|].
  apply (Form_set_same_data autoEngine (TaintBool true)). reflexivity.
Defined.

(** ** Validation *)

Lemma emits_app s l1 l2 : emits s (l1 ++ l2) = emits (emits s l1) l2.
Proof. unfold emits. apply fold_left_app. Qed.

Lemma keepsData_refl s : keepsData s s.
Proof. now repeat split. Qed.

Lemma keepsData_trans s1 s2 s3 :
  keepsData s1 s2 -> keepsData s2 s3 -> keepsData s1 s3.
Proof.
  unfold keepsData. intros [A1 [A2 [A3 A4]]] [B1 [B2 [B3 B4]]].
  repeat split; congruence.
Qed.

Lemma keepsData_emit s e : keepsData s (emit s e).
Proof. now repeat split. Qed.

Lemma keepsData_emits l : forall s, keepsData s (emits s l).
Proof.
  induction l as [|e l IH]; intros s; [apply keepsData_refl|].
  apply keepsData_trans with (s2 := emit s e);
    [apply keepsData_emit|apply IH].
Qed.

Lemma log_emits l : forall s, log (emits s l) = log s ++ l.
Proof.
  induction l as [|e l IH]; intros s; simpl.
  - now rewrite app_nil_r.
  - unfold emits in *. simpl. rewrite IH. simpl. now rewrite <- app_assoc.
Qed.

Lemma Data_errors_emits l : forall s, Data_errors (emits s l) = Data_errors s.
Proof.
  induction l as [|e l IH]; intros s; [reflexivity|].
  unfold emits in *. simpl. now rewrite IH.
Qed.

Lemma keepsData_withErrors s e : keepsData s (withErrors s e).
Proof. now repeat split. Qed.

(** One round of validation calls the validator at most once and
    changes nothing else. *)
Lemma Form_validateWith_emits s a recheck :
  fst (Form_validateWith s a recheck) = s
  \/ fst (Form_validateWith s a recheck) = emits s [CallValidate (Data_form s)].
Proof.
  unfold Form_validateWith.
  destruct (negb (isInitialValidator a) && negb (hasJsonSchema a));
    [now left|].
  right. destruct (validate a (Data_form s)); [destruct recheck|]; reflexivity.
Qed.

Lemma Form_validateWith_full s a recheck :
  fullAdapter a = true ->
  Form_validateWith s a recheck
  = (emits s [CallValidate (Data_form s)],
     match validate a (Data_form s) with
     | Failure issues =>
         bind (mapErrors issues (shapeFor s a))
           (fun errs =>
              Ok (Some (mkValidated false errs
                          (spread (Data_form s) (Data_form s)))))
     | Success d =>
         if recheck then Ok None
         else Ok (Some (mkValidated true []
                          (spread (spread (Data_form s) (Data_form s)) d)))
     end).
Proof.
  unfold fullAdapter, Form_validateWith. intros H.
  replace (negb (isInitialValidator a) && negb (hasJsonSchema a)) with false
    by (destruct (isInitialValidator a), (hasJsonSchema a);
        simpl in *; congruence).
  destruct (validate a (Data_form s)); [destruct recheck|]; reflexivity.
Qed.

(** [Form_validate] calls the validator on the form data, at most
    twice, and does nothing else. *)
Lemma Form_validate_emits s adapter :
  exists n,
    n <= 2
    /\ fst (Form_validate s adapter)
       = emits s (repeat (CallValidate (Data_form s)) n).
Proof.
  unfold Form_validate.
  destruct (match adapter with
            | Some a => Some a
            | None => match validators s with
                      | Validators a => Some a
                      | _ => None
                      end
            end) as [v|]; [|exists 0; split; [lia|reflexivity]].
  pose proof (Form_validateWith_emits s v true) as H1.
  destruct (Form_validateWith s v true) as [s1 r1].
  simpl in H1.
  assert (exists n, n <= 1
                    /\ s1 = emits s (repeat (CallValidate (Data_form s)) n))
    as [n1 [Hn1 Hs1]].
  { destruct H1 as [->| ->]; [exists 0|exists 1]; split; auto. }
  destruct r1 as [[r|]|e|]; try (exists n1; split; [lia|exact Hs1]).
  pose proof (Form_validateWith_emits s1 v false) as H2.
  destruct (Form_validateWith s1 v false) as [s2 r2].
  simpl in H2.
  assert (Data_form s1 = Data_form s) as Hd.
  { rewrite Hs1. apply (keepsData_emits _ s). }
  rewrite Hd in H2.
  assert (exists n, n <= 2
                    /\ s2 = emits s (repeat (CallValidate (Data_form s)) n))
    as [n2 [Hn2 Hs2]].
  { destruct H2 as [->| ->].
    - exists n1. split; [lia|exact Hs1].
    - exists (n1 + 1). split; [lia|].
      rewrite Hs1, repeat_app, emits_app. reflexivity. }
  destruct r2 as [[r|]|e|]; exists n2; split; auto.
Qed.

Lemma keepsData_Form_validate s adapter :
  keepsData s (fst (Form_validate s adapter)).
Proof.
  destruct (Form_validate_emits s adapter) as [n [_ ->]].
  apply keepsData_emits.
Qed.

Lemma Form_validate_full s a :
  fullAdapter a = true ->
  Form_validate s (Some a)
  = match validate a (Data_form s) with
    | Success d =>
        (emits s [CallValidate (Data_form s); CallValidate (Data_form s)],
         Ok (mkValidated true []
               (spread (spread (Data_form s) (Data_form s)) d)))
    | Failure issues =>
        (emits s [CallValidate (Data_form s)],
         bind (mapErrors issues (shapeFor s a))
           (fun errs =>
              Ok (mkValidated false errs (spread (Data_form s) (Data_form s)))))
    end.
Proof.
  intros Hfull. unfold Form_validate.
  rewrite Form_validateWith_full by assumption.
  destruct (validate a (Data_form s)) as [d|issues] eqn:Ev.
  - rewrite Form_validateWith_full by assumption.
    cbn [Data_form emits fold_left emit]. rewrite Ev. reflexivity.
  - destruct (mapErrors issues (shapeFor s a)) as [errs|e|]; reflexivity.
Qed.

(** X5: [Form_validate] changes nothing of the form: it calls the
    validator on the form data, at most twice, and that is all.  With a
    full adapter, data the validator accepts is validated twice and data
    it rejects once, the result being valid in the first case only and
    its errors what [mapErrors] makes of the issues. *)
Theorem Form_validate_only_validates :
  forall (s : Engine) (adapter : option Adapter),
    (exists n,
        n <= 2
        /\ fst (Form_validate s adapter)
           = emits s (repeat (CallValidate (Data_form s)) n))
    /\ (forall a,
          adapter = Some a -> fullAdapter a = true ->
          match validate a (Data_form s) with
          | Success d =>
              Form_validate s adapter
              = (emits s [CallValidate (Data_form s); CallValidate (Data_form s)],
                 Ok (mkValidated true []
                       (spread (spread (Data_form s) (Data_form s)) d)))
          | Failure issues =>
              fst (Form_validate s adapter)
              = emits s [CallValidate (Data_form s)]
              /\ forall r, snd (Form_validate s adapter) = Ok r ->
                           valid r = false
                           /\ mapErrors issues (shapeFor s a) = Ok (errors r)
          end).
Proof.
  intros s adapter. split; [apply Form_validate_emits|].
  intros a -> Hfull. rewrite Form_validate_full by assumption.
  destruct (validate a (Data_form s)) as [d|issues]; [reflexivity|].
  split; [reflexivity|]. simpl.
  destruct (mapErrors issues (shapeFor s a)) as [errs|e|]; simpl;
    try discriminate.
  intros r [= <-]. now split.
Qed.

Lemma Form_validate_only_validates_witness :
  fullAdapter shortName = true
  /\ fst (Form_validate onBlurEngine (Some shortName))
     = emits onBlurEngine [CallValidate (Data_form onBlurEngine)]
  /\ Form_validate onBlurEngine (Some acceptAll)
     = (emits onBlurEngine
          [CallValidate (Data_form onBlurEngine);
           CallValidate (Data_form onBlurEngine)],
        Ok (mkValidated true []
              (spread (spread (Data_form onBlurEngine) (Data_form onBlurEngine))
                 (Data_form onBlurEngine)))).
Proof.
  split; [reflexivity|]. split.
  - apply (proj1 (proj2 (Form_validate_only_validates onBlurEngine
                           (Some shortName)) shortName eq_refl eq_refl)).
  - apply (proj2 (Form_validate_only_validates onBlurEngine (Some acceptAll))
             acceptAll eq_refl eq_refl).
Defined.

(** ** Client-side validation of an event *)

Lemma keepsData_displayNewErrors s errs ev force s' :
  Form__displayNewErrors s errs ev force = Ok s' -> keepsData s s'.
Proof.
  unfold Form__displayNewErrors.
  destruct (force && customValidity s
            && existsb (fun pv => isArray (snd pv)) (traversePaths errs));
    [discriminate|].
  intros [= <-].
  destruct (formElement ev); [|destruct (EnhancedForm s)]; now repeat split.
Qed.

Lemma log_displayNewErrors s errs ev force s' :
  Form__displayNewErrors s errs ev force = Ok s' ->
  exists extra, log s' = log s ++ extra.
Proof.
  unfold Form__displayNewErrors.
  destruct (force && customValidity s
            && existsb (fun pv => isArray (snd pv)) (traversePaths errs));
    [discriminate|].
  intros [= <-].
  destruct (formElement ev); [|destruct (EnhancedForm s)]; simpl.
  - eexists. reflexivity.
  - eexists. reflexivity.
  - exists []. now rewrite app_nil_r.
Qed.

(** What [Form_clientValidation] does before it decides whether to
    validate. *)
Lemma clientValidation_start s ev :
  validators s <> ClearValidators ->
  emit (match validators s with
        | ClearValidators =>
            Errors_update s (fun e => setPathsTo e (paths ev) Undef) false
        | _ => s
        end) (ChangeEventTimer ev)
  = emit s (ChangeEventTimer ev).
Proof. destruct (validators s); congruence. Qed.

Lemma clientValidation_skipped s ev a adapter :
  validators s = Validators a ->
  skipsEvent (validationMethod s) ev = true ->
  notValidated s (Form_clientValidation s (Some ev) false adapter).
Proof.
  intros Hv Hskip. unfold Form_clientValidation.
  rewrite clientValidation_start by congruence.
  replace (if false then false else
             match validationMethod s with
             | OnSubmit | SubmitOnly => true
             | OnBlur => isInput (type ev)
             | OnInput => isBlur (type ev)
             | Auto => false
             end) with true by (symmetry; exact Hskip).
  simpl orb. cbv iota. unfold notValidated.
  destruct (formElement ev) as [el|]; [|destruct (EnhancedForm s) as [el|]];
    simpl; (split; [reflexivity|split; [reflexivity|]]).
  - exists [ChangeEventTimer ev; ClearCustomValidity el (paths ev)].
    rewrite <- app_assoc. now split.
  - exists [ChangeEventTimer ev; ClearCustomValidity el (paths ev)].
    rewrite <- app_assoc. now split.
  - exists [ChangeEventTimer ev]. now split.
Qed.

Lemma clientValidation_validated s ev a :
  validators s = Validators a ->
  fullAdapter a = true ->
  skipsEvent (validationMethod s) ev = false ->
  In (CallValidate (Data_form s))
     (log (fst (Form_clientValidation s (Some ev) false None))).
Proof.
  intros Hv Hfull Hskip. unfold Form_clientValidation.
  rewrite clientValidation_start by congruence.
  replace (if false then false else
             match validationMethod s with
             | OnSubmit | SubmitOnly => true
             | OnBlur => isInput (type ev)
             | OnInput => isBlur (type ev)
             | Auto => false
             end) with false by (symmetry; exact Hskip).
  rewrite Hv. simpl orb. cbv iota.
  assert (In (CallValidate (Data_form s))
             (log (fst (Form_validate (emit s (ChangeEventTimer ev)) None))))
    as Hin.
  { apply (Form_validate_calls_validator (emit s (ChangeEventTimer ev)) (a:=a));
      [exact Hv|].
    unfold fullAdapter in Hfull. now apply orb_true_iff in Hfull. }
  destruct (Form_validate (emit s (ChangeEventTimer ev)) None) as [s2 r].
  simpl in Hin.
  destruct r as [result|e|]; [|exact Hin|exact Hin].
  set (s3 := if valid result && (immediate ev || negb (isInput (type ev)))
             then Form_set s2 (data result) Ignore else s2).
  assert (log s3 = log s2) as H3.
  { unfold s3. destruct (valid result && _); reflexivity. }
  destruct (Form__displayNewErrors (emit s3 Tick) (errors result) ev false)
    as [s5|e|] eqn:E5; simpl.
  - apply log_displayNewErrors in E5 as [extra ->]. simpl. rewrite H3.
    apply in_or_app. left. apply in_or_app. now left.
  - rewrite H3. apply in_or_app. now left.
  - rewrite H3. apply in_or_app. now left.
Qed.

(** X6: with validators set and without [force], an input event is not
    validated under [onblur] and a blur event is not validated under
    [oninput]: the call resolves to [undefined], the validator is not
    called and the errors stay.  An event under [auto], an event that is
    no input under [onblur] and an event that is no blur under [oninput]
    are validated. *)
Theorem clientValidation_by_method :
  forall (s : Engine) (ev : ChangeEvent) (a : Adapter),
    validators s = Validators a ->
    fullAdapter a = true ->
    (validationMethod s = OnBlur /\ type ev = Some InputEvent
     \/ validationMethod s = OnInput /\ type ev = Some BlurEvent ->
     notValidated s (Form_clientValidation s (Some ev) false None))
    /\ (validationMethod s = Auto
        \/ validationMethod s = OnBlur /\ type ev <> Some InputEvent
        \/ validationMethod s = OnInput /\ type ev <> Some BlurEvent ->
        In (CallValidate (Data_form s))
           (log (fst (Form_clientValidation s (Some ev) false None)))).
Proof.
  intros s ev a Hv Hfull. split.
  - intros H. apply clientValidation_skipped with (a := a); [exact Hv|].
    destruct H as [[Hm Ht]|[Hm Ht]]; rewrite Hm; simpl; now rewrite Ht.
  - intros H. apply clientValidation_validated with (a := a); auto.
    destruct H as [->|[[-> H]|[-> H]]]; simpl; auto.
    + destruct (type ev) as [[|]|]; auto. congruence.
    + destruct (type ev) as [[|]|]; auto. congruence.
Qed.

Lemma clientValidation_by_method_witness :
  validators onBlurEngine = Validators shortName
  /\ fullAdapter shortName = true
  /\ notValidated onBlurEngine
       (Form_clientValidation onBlurEngine (Some nameInput) false None)
  /\ In (CallValidate (Data_form onBlurEngine))
       (log (fst (Form_clientValidation onBlurEngine (Some nameBlur) false None))).
Proof.
  split; [reflexivity|]. split; [reflexivity|]. split.
  - apply (proj1 (clientValidation_by_method onBlurEngine nameInput
                    (a := shortName) eq_refl eq_refl)).
    left. split; reflexivity.
  - apply (proj2 (clientValidation_by_method onBlurEngine nameBlur
                    (a := shortName) eq_refl eq_refl)).
    right. left. split; [reflexivity|discriminate].
Defined.

(** X7: client-side validation taints nothing: whatever the event and
    the options, the tainted tree, the clean data and the next change
    event are as before, although the form data may be replaced by what
    the validator made of it; the data stays as well when the result is
    not valid, and for an input event that is not immediate. *)
Theorem clientValidation_taints_nothing :
  forall (s : Engine) (event : option ChangeEvent) (force : bool)
         (adapter : option Adapter),
    Tainted_state (fst (Form_clientValidation s event force adapter))
    = Tainted_state s
    /\ Tainted_clean (fst (Form_clientValidation s event force adapter))
       = Tainted_clean s
    /\ NextChange (fst (Form_clientValidation s event force adapter))
       = NextChange s
    /\ ((forall result,
           snd (Form_clientValidation s event force adapter) = Ok (Some result) ->
           valid result = false)
        \/ (exists ev, event = Some ev /\ type ev = Some InputEvent
                       /\ immediate ev = false) ->
        Data_form (fst (Form_clientValidation s event force adapter))
        = Data_form s).
Proof.
  intros s event force adapter. unfold Form_clientValidation.
  destruct event as [ev|];
    [|repeat split; reflexivity].
  set (s1 := emit (match validators s with
                   | ClearValidators =>
                       Errors_update s (fun e => setPathsTo e (paths ev) Undef) false
                   | _ => s
                   end) (ChangeEventTimer ev)).
  assert (keepsData s s1) as H1.
  { unfold s1. destruct (validators s); now repeat split. }
  destruct (_ || _).
  - destruct H1 as [A [B [C D]]].
    destruct (formElement ev); [|destruct (EnhancedForm s)]; simpl;
      repeat split; auto.
  - pose proof (keepsData_Form_validate s1 adapter) as H2.
    destruct (Form_validate s1 adapter) as [s2 r]. simpl in H2.
    pose proof (keepsData_trans H1 H2) as H12.
    destruct r as [result|e|];
      [|destruct H12 as [A [B [C D]]]; simpl; repeat split; auto
       |destruct H12 as [A [B [C D]]]; simpl; repeat split; auto].
    set (s3 := if valid result && (immediate ev || negb (isInput (type ev)))
               then Form_set s2 (data result) Ignore else s2).
    assert (Tainted_state s3 = Tainted_state s2
            /\ Tainted_clean s3 = Tainted_clean s2
            /\ NextChange s3 = NextChange s2
            /\ (valid result && (immediate ev || negb (isInput (type ev)))
                = false -> Data_form s3 = Data_form s2)) as [T1 [T2 [T3 T4]]].
    { unfold s3. destruct (valid result && _); repeat split; auto.
      discriminate. }
    destruct H12 as [A [B [C D]]].
    assert (forall s5,
               keepsData (emit s3 Tick) s5 ->
               Tainted_state s5 = Tainted_state s
               /\ Tainted_clean s5 = Tainted_clean s
               /\ NextChange s5 = NextChange s
               /\ (valid result && (immediate ev || negb (isInput (type ev)))
                   = false -> Data_form s5 = Data_form s)) as Hend.
    { intros s5 [E1 [E2 [E3 E4]]]. simpl in E1, E2, E3, E4.
      repeat split; try congruence.
      intros Hc. rewrite E1, (T4 Hc). exact A. }
    assert (forall s5 : Engine,
               (forall result0,
                   snd (s5, Ok (Some result) : outcome (option SuperValidated))
                   = Ok (Some result0) -> valid result0 = false)
               \/ (exists ev0, Some ev = Some ev0 /\ type ev0 = Some InputEvent
                               /\ immediate ev0 = false) ->
               valid result && (immediate ev || negb (isInput (type ev)))
               = false) as Hcond.
    { intros s5 [Hr|[ev0 [[= <-] [Ht Hi]]]].
      - now rewrite (Hr result eq_refl).
      - rewrite Ht, Hi. simpl. apply andb_false_r. }
    destruct (Form__displayNewErrors (emit s3 Tick) (errors result) ev force)
      as [s5|e|] eqn:E5.
    + apply keepsData_displayNewErrors in E5.
      destruct (Hend s5 E5) as [F1 [F2 [F3 F4]]].
      cbn [fst]. repeat split; auto. intros H. apply F4.
      exact (Hcond s5 H).
    + destruct (Hend (emit s3 Tick) (keepsData_refl _)) as [F1 [F2 [F3 F4]]].
      cbn [fst]. repeat split; auto. intros H. apply F4.
      exact (Hcond (emit s3 Tick) H).
    + destruct (Hend (emit s3 Tick) (keepsData_refl _)) as [F1 [F2 [F3 F4]]].
      cbn [fst]. repeat split; auto. intros H. apply F4.
      exact (Hcond (emit s3 Tick) H).
Qed.

Lemma clientValidation_taints_nothing_witness :
  (exists ev, Some nameInput = Some ev /\ type ev = Some InputEvent
              /\ immediate ev = false)
  /\ Data_form (fst (Form_clientValidation autoEngine (Some nameInput) false
                       (Some acceptAll)))
     = Data_form autoEngine.
Proof.
  assert (exists ev, Some nameInput = Some ev /\ type ev = Some InputEvent
                     /\ immediate ev = false) as H.
  { exists nameInput. repeat split. }
  split; [exact H|].
  apply (proj2 (proj2 (proj2 (clientValidation_taints_nothing autoEngine
                                (Some nameInput) false (Some acceptAll))))).
  right. exact H.
Defined.

(** ** The messages of an error tree *)

(** Induction on a tree, the fields of an object being smaller than the
    object. *)
Lemma tree_induction {A : Type} (P : tree A -> Prop) :
  P Undef -> (forall a, P (Leaf a)) ->
  (forall fs, Forall (fun kv => P (snd kv)) fs -> P (Node fs)) ->
  forall t, P t.
Proof.
  intros HU HL HN. fix IH 1. intros [|a|fs]; [exact HU|apply HL|].
  apply HN. induction fs as [|[k v] r IHr]; constructor; [apply IH|exact IHr].
Qed.





Lemma addFormLevelError_addLeafError output m output' :
  addFormLevelError output m = Ok output' ->
  addLeafError output "_errors" m = Ok output'.
Proof.
  unfold addFormLevelError, addLeafError.
  destruct (hasKey output "_errors") eqn:Ek.
  - destruct (prop output "_errors"); auto; discriminate.
  - rewrite prop_setField_same, setField_setField_same. auto.
Qed.

Lemma storeAt_nonempty S p : forall o,
  storeAt S o p = Ok None -> p = [].
Proof.
  induction p as [|k r IH]; intros o; auto.
  destruct r as [|j r'].
  - simpl. destruct (S o k); discriminate.
  - change (storeAt S o (k :: j :: r'))
      with (match prop o k with
            | Leaf _ => ArrayAsObject
            | v =>
                bind (storeAt S (match v with Node c => c | _ => [] end) (j :: r'))
                  (fun r =>
                     match r with
                     | None => Ok None
                     | Some child' => Ok (Some (setField o k (Node child')))
                     end)
            end).
    destruct (prop o k) as [|l|c]; try discriminate.
    + destruct (storeAt S [] (j :: r')) as [[c'|]|e|] eqn:E; try discriminate.
      apply IH in E. discriminate.
    + destruct (storeAt S c (j :: r')) as [[c'|]|e|] eqn:E; try discriminate.
      apply IH in E. discriminate.
Qed.

(** Two steps of a walk: the first key, then the rest. *)
Lemma storeAt_cons S o k j r :
  storeAt S o (k :: j :: r)
  = match prop o k with
    | Leaf _ => ArrayAsObject
    | v =>
        bind (storeAt S (match v with Node c => c | _ => [] end) (j :: r))
          (fun r =>
             match r with
             | None => Ok None
             | Some child' => Ok (Some (setField o k (Node child')))
             end)
    end.
Proof. reflexivity. Qed.

Lemma storeAt_single S o k :
  storeAt S o [k] = bind (S o k) (fun o' => Ok (Some o')).
Proof. reflexivity. Qed.

(** An object error is a leaf error one key further down, at
    [_errors]. *)
Lemma addObjectError_storeAt parent key m o' :
  addObjectError parent key m = Ok o' ->
  storeAt (fun parent key => addLeafError parent key m) parent
    [key; "_errors"] = Ok (Some o').
Proof.
  unfold addObjectError. rewrite storeAt_cons.
  destruct (hasKey parent key) eqn:Ek.
  - destruct (prop parent key) as [|l|c]; try discriminate.
    rewrite storeAt_single. unfold addLeafError.
    destruct (hasKey c "_errors").
    + destruct (prop c "_errors"); try discriminate.
      intros [= <-]. reflexivity.
    + intros [= <-]. reflexivity.
  - assert (prop parent key = Undef) as Ep.
    { unfold prop, hasKey in *. now destruct (getField parent key). }
    rewrite Ep, prop_setField_same, storeAt_single. unfold addLeafError.
    simpl. rewrite setField_setField_same. intros [= <-]. reflexivity.
Qed.

Lemma storeAt_object_leaf m p : forall o o',
  storeAt (fun parent key => addObjectError parent key m) o p = Ok (Some o') ->
  storeAt (fun parent key => addLeafError parent key m) o (p ++ ["_errors"])
  = Ok (Some o').
Proof.
  induction p as [|k r IH]; intros o o'; [discriminate|].
  destruct r as [|j r'].
  - rewrite storeAt_single.
    destruct (addObjectError o k m) as [o1|e|] eqn:E; try discriminate.
    intros [= <-]. now apply addObjectError_storeAt.
  - rewrite storeAt_cons. simpl app. rewrite storeAt_cons.
    destruct (prop o k) as [|l|c]; try discriminate.
    + destruct (storeAt _ [] (j :: r')) as [[c'|]|e|] eqn:E; try discriminate.
      intros [= <-]. apply IH in E. simpl app in E. now rewrite E.
    + destruct (storeAt _ c (j :: r')) as [[c'|]|e|] eqn:E; try discriminate.
      intros [= <-]. apply IH in E. simpl app in E. now rewrite E.
Qed.

(** Every step of [mapErrors] that goes through stores the message as a
    leaf error at the target path of the issue. *)
Lemma mapErrors_step_storeAt shape o e o' :
  mapErrors_step shape o e = Ok o' ->
  storeAt (fun parent key => addLeafError parent key (issue_message e)) o
    (targetPath shape e) = Ok (Some o').
Proof.
  unfold mapErrors_step, targetPath.
  destruct (isFormLevel e) eqn:Ef.
  - intros H. apply addFormLevelError_addLeafError in H.
    rewrite storeAt_single, H. reflexivity.
  - destruct (issue_path e) as [[|k p]|] eqn:Ep.
    + simpl. intros H. apply addFormLevelError_addLeafError in H.
      rewrite H. reflexivity.
    + destruct (isObjectError shape (k :: p)).
      * destruct (storeAt _ o (map segString (k :: p))) as [[c|]|x|] eqn:E;
          try discriminate.
        -- intros [= <-]. now apply storeAt_object_leaf.
        -- apply storeAt_nonempty in E. discriminate.
      * destruct (storeAt _ o (map segString (k :: p))) as [[c|]|x|] eqn:E;
          try discriminate.
        -- intros [= <-]. reflexivity.
        -- apply storeAt_nonempty in E. discriminate.
    + unfold isFormLevel in Ef. rewrite Ep in Ef. discriminate.
Qed.

Lemma targetPath_nonempty shape e : targetPath shape e <> [].
Proof.
  unfold targetPath. destruct (isFormLevel e); [discriminate|].
  destruct (issue_path e) as [[|k p]|]; try discriminate.
  destruct (isObjectError shape (k :: p)); discriminate.
Qed.









(** ** Where [mapErrors] puts a message *)

Lemma addLeafError_setPath parent key m o' :
  addLeafError parent key m = Ok o' ->
  o' = setPath parent [key] (appendMessage m)
  /\ (valueAt parent [key] = None
      \/ exists l, valueAt parent [key] = Some (Leaf l)).
Proof.
  unfold addLeafError. rewrite setPath_single, valueAt_single.
  unfold appendMessage. cbn [value].
  unfold hasKey, prop.
  destruct (getField parent key) as [[|l|c]|]; try discriminate.
  - intros [= <-]. split; [reflexivity|]. right. now exists l.
  - intros [= <-]. split; [reflexivity|]. now left.
Qed.

Lemma childOf_prop (o : ErrorTree) k :
  childOf o k = match prop o k with Node c => c | _ => [] end.
Proof. unfold childOf, prop. now destruct (getField o k) as [[| |c]|]. Qed.

(** A leaf error that is stored is a write of [setPaths] that puts the
    message at the end of what is found; nothing but objects is gone
    through, and what is found is an array or nothing. *)
Lemma storeAt_leaf_setPath m p : forall o o',
  storeAt (fun parent key => addLeafError parent key m) o p = Ok (Some o') ->
  o' = setPath o p (appendMessage m)
  /\ (valueAt o p = None \/ exists l, valueAt o p = Some (Leaf l))
  /\ (forall q l, q <> [] -> prefixb q p = true -> prefixb p q = false ->
                  valueAt o q <> Some (Leaf l)).
Proof.
  induction p as [|k r IH]; intros o o'; [discriminate|].
  destruct r as [|j r'].
  - rewrite storeAt_single.
    destruct (addLeafError o k m) as [o1|e|] eqn:E; try discriminate.
    intros [= <-]. apply addLeafError_setPath in E as [E1 E2].
    split; [exact E1|]. split; [exact E2|].
    intros q l Hq Hqp Hpq. destruct q as [|k' [|j' q']]; try contradiction.
    + simpl in Hqp, Hpq. rewrite andb_true_r in Hqp.
      apply String.eqb_eq in Hqp. subst k'.
      rewrite String.eqb_refl in Hpq. discriminate.
    + simpl in Hqp. rewrite andb_false_r in Hqp. discriminate.
  - rewrite storeAt_cons, setPath_cons, valueAt_cons, childOf_prop.
    assert (forall c o1,
               storeAt (fun parent key => addLeafError parent key m) c (j :: r')
               = Ok (Some o1) ->
               (getField o k = Some (Node c)
                \/ (c = [] /\ forall c', getField o k <> Some (Node c')
                                         /\ forall l, getField o k <> Some (Leaf l))) ->
               setField o k (Node o1)
               = setField o k (Node (setPath c (j :: r') (appendMessage m)))
               /\ (match getField o k with
                   | Some (Node c0) => valueAt c0 (j :: r')
                   | _ => None
                   end = None
                   \/ exists l,
                      match getField o k with
                      | Some (Node c0) => valueAt c0 (j :: r')
                      | _ => None
                      end = Some (Leaf l))
               /\ (forall q l, q <> [] -> prefixb q (k :: j :: r') = true ->
                               prefixb (k :: j :: r') q = false ->
                               valueAt o q <> Some (Leaf l))) as Hgen.
    { intros c o1 E Hc. apply IH in E as [E1 [E2 E3]].
      split; [now rewrite E1|]. split.
      - destruct Hc as [->|[-> Hno]]; [exact E2|].
        left. destruct (getField o k) as [[| |c0]|]; auto.
        now destruct (Hno c0).
      - intros q l Hq Hqp Hpq. destruct q as [|k' q']; [contradiction|].
        simpl in Hqp. apply andb_true_iff in Hqp as [Hk Hr].
        apply String.eqb_eq in Hk. subst k'.
        simpl in Hpq. rewrite String.eqb_refl in Hpq. simpl in Hpq.
        destruct q' as [|j' q''].
        + rewrite valueAt_single.
          destruct Hc as [->|[_ Hno]]; [discriminate|].
          apply (proj2 (Hno [])).
        + rewrite valueAt_cons.
          destruct Hc as [->|[-> Hno]].
          * apply E3; auto. discriminate.
          * destruct (getField o k) as [[| |c0]|]; try discriminate.
            now destruct (Hno c0). }
    unfold prop.
    destruct (getField o k) as [[|l|c]|] eqn:Eg; try discriminate.
    + destruct (storeAt _ [] (j :: r')) as [[c'|]|e|] eqn:E; try discriminate.
      intros [= <-]. apply (Hgen [] c' E). right. split; auto.
      intros c0. split; [discriminate|]. intros l. discriminate.
    + destruct (storeAt _ c (j :: r')) as [[c'|]|e|] eqn:E; try discriminate.
      intros [= <-]. apply (Hgen c c' E). now left.
    + destruct (storeAt _ [] (j :: r')) as [[c'|]|e|] eqn:E; try discriminate.
      intros [= <-]. apply (Hgen [] c' E). right. split; auto.
      intros c0. split; [discriminate|]. intros l. discriminate.
Qed.



(** The array at a path holds the message. *)
Lemma storeAt_leaf_stored m p o o' :
  storeAt (fun parent key => addLeafError parent key m) o p = Ok (Some o') ->
  exists l, valueAt o' p = Some (Leaf l) /\ In m l.
Proof.
  intros E. assert (p <> []) as Hp by (intros ->; discriminate).
  apply storeAt_leaf_setPath in E as [-> _].
  destruct (@valueAt_setPath_updated _ p o (appendMessage m) Hp) as [d [Hd _]].
  rewrite Hd. unfold appendMessage.
  destruct (value d) as [|l|c]; eexists; split; try reflexivity.
  - now left.
  - apply in_or_app. right. now left.
  - now left.
Qed.

(** A message that is in the array at a path stays there when another
    one is stored. *)
Lemma storeAt_leaf_keeps m p o o' t l :
  storeAt (fun parent key => addLeafError parent key m) o p = Ok (Some o') ->
  valueAt o t = Some (Leaf l) ->
  exists l', valueAt o' t = Some (Leaf l') /\ forall y, In y l -> In y l'.
Proof.
  intros E Ht. assert (p <> []) as Hp by (intros ->; discriminate).
  assert (t <> []) as Htn by (intros ->; discriminate).
  apply storeAt_leaf_setPath in E as [-> [Htarget Habove]].
  destruct (prefixb p t) eqn:Ept; destruct (prefixb t p) eqn:Etp.
  - assert (p = t) as -> by now apply prefixb_antisym.
    destruct (@valueAt_setPath_updated _ t o (appendMessage m) Hp)
      as [d [Hd Hv]].
    unfold valueOrUndef in Hv. rewrite Ht in Hv.
    rewrite Hd. unfold appendMessage. rewrite Hv.
    eexists. split; [reflexivity|]. intros y Hy. apply in_or_app. now left.
  - destruct (@valueAt_above_Node _ p o t (Leaf l) Ht Hp Ept Etp) as [c Hc].
    destruct Htarget as [H|[l0 H]]; congruence.
  - exfalso. exact (Habove t l Htn Etp Ept Ht).
  - exists l. split; auto. rewrite valueAt_setPath_frame; auto.
Qed.

Lemma mapErrors_from_keeps shape issues : forall o t p l,
  mapErrors_from shape o issues = Ok t ->
  valueAt o p = Some (Leaf l) ->
  exists l', valueAt t p = Some (Leaf l') /\ forall y, In y l -> In y l'.
Proof.
  induction issues as [|e r IH]; intros o t p l.
  - simpl. intros [= <-] H. exists l. auto.
  - simpl mapErrors_from.
    destruct (mapErrors_step shape o e) as [o1|ex|] eqn:E; try discriminate.
    simpl bind. intros H Hp.
    apply mapErrors_step_storeAt in E.
    destruct (@storeAt_leaf_keeps _ _ _ _ _ _ E Hp) as [l1 [H1 Hin1]].
    destruct (IH _ _ _ _ H H1) as [l2 [H2 Hin2]].
    exists l2. split; auto.
Qed.

Lemma mapErrors_from_stored shape issues : forall o t e,
  mapErrors_from shape o issues = Ok t ->
  In e issues ->
  exists l, valueAt t (targetPath shape e) = Some (Leaf l)
            /\ In (issue_message e) l.
Proof.
  induction issues as [|e0 r IH]; intros o t e; [contradiction|].
  simpl mapErrors_from.
  destruct (mapErrors_step shape o e0) as [o1|ex|] eqn:E; try discriminate.
  simpl bind. intros H [->|Hin].
  - apply mapErrors_step_storeAt in E.
    destruct (@storeAt_leaf_stored _ _ _ _ E) as [l [Hl Hm]].
    destruct (@mapErrors_from_keeps _ _ _ _ _ _ H Hl) as [l' [Hl' Hin']].
    exists l'. split; auto.
  - now apply IH with (o := o1).
Qed.

(** ** flattenErrors *)

Lemma In_flattenTree (t : tree (list string)) :
  forall fs pre e,
    t = Node fs ->
    (In e (flattenTree t pre) <->
     exists p m ms,
       In (p, Leaf (m :: ms)) (traverseTree t)
       /\ e = mkFlat (mergePath (pre ++ p)) (m :: ms)).
Proof.
  induction t as [|a|fs0 IH] using tree_induction; try discriminate.
  intros fs pre e [= <-]. rewrite Forall_forall in IH.
  change (flattenTree (Node fs0) pre)
    with (flat_map
            (fun '(key, messages) =>
               match messages with
               | Undef => []
               | Leaf [] => []
               | Leaf (m :: ms) => [mkFlat (mergePath (pre ++ [key])) (m :: ms)]
               | Node _ => flattenTree messages (pre ++ [key])
               end) fs0).
  rewrite in_flat_map. split.
  - intros [[k v] [Hin He]].
    destruct v as [|[|m ms]|c]; try contradiction.
    + destruct He as [<-|[]]. exists [k], m, ms. split; auto.
      apply In_traverseTree_Node. exists k, (Leaf (m :: ms)). auto.
    + apply (IH (k, Node c) Hin c (pre ++ [k]) e eq_refl) in He
        as [p [m [ms [Hp ->]]]].
      exists (k :: p), m, ms. split.
      * apply In_traverseTree_Node. exists k, (Node c). split; auto.
        right. exists p. auto.
      * now rewrite <- app_assoc.
  - intros [p [m [ms [Hp ->]]]].
    apply In_traverseTree_Node in Hp as [k [child [Hin H]]].
    exists (k, child). split; auto.
    destruct H as [[-> <-]|[p' [-> Hp']]]; [now left|].
    destruct child as [|l|c]; try contradiction.
    apply (IH (k, Node c) Hin c (pre ++ [k]) _ eq_refl).
    exists p', m, ms. split; auto. now rewrite <- app_assoc.
Qed.

Lemma In_flattenErrors (t : ErrorTree) e :
  In e (flattenErrors t) <->
  exists p m ms,
    In (p, Leaf (m :: ms)) (traversePaths t)
    /\ e = mkFlat (mergePath p) (m :: ms).
Proof. unfold flattenErrors. now apply In_flattenTree with (fs := t). Qed.

Lemma flattenErrors_array (t : ErrorTree) p l m :
  valueAt t p = Some (Leaf l) -> In m l ->
  In (mkFlat (mergePath p) l) (flattenErrors t).
Proof.
  intros Hv Hm. destruct l as [|m0 ms]; [contradiction|].
  apply In_flattenErrors. exists p, m0, ms. split; auto.
  now apply valueAt_traversePaths.
Qed.

(** X9: [flattenErrors] lists the arrays that hold a message, and
    nothing else: an array with a message, at whatever path, is an entry
    under the merged path; and every entry is an array of the tree with a
    message, under the merged path of a path that leads to it. *)
Theorem flattenErrors_lists_arrays :
  forall t : ErrorTree,
    wf_obj t = true ->
    (forall p m ms,
        valueAt t p = Some (Leaf (m :: ms)) ->
        In (mkFlat (mergePath p) (m :: ms)) (flattenErrors t))
    /\ (forall e,
          In e (flattenErrors t) ->
          flat_messages e <> []
          /\ exists p, flat_path e = mergePath p
                       /\ valueAt t p = Some (Leaf (flat_messages e))).
Proof.
  intros t Hwf. split.
  - intros p m ms Hv. apply flattenErrors_array with (m := m); auto. now left.
  - intros e He. apply In_flattenErrors in He as [p [m [ms [Hp ->]]]].
    split; [discriminate|]. exists p. split; [reflexivity|].
    now apply traversePaths_valueAt.
Qed.

Lemma flattenErrors_lists_arrays_witness :
  wf_obj sampleErrors = true
  /\ In (mkFlat "tags[1]" ["Empty"]) (flattenErrors sampleErrors).
Proof.
  split; [reflexivity|].
  apply (proj1 (flattenErrors_lists_arrays sampleErrors eq_refl)
           ["tags"; "1"] "Empty" []).
  reflexivity.
Defined.



(** ** Where the leaves of a written tree come from *)

Section OriginFacts.
Context {A : Type}.
Implicit Types (o : obj A) (v u : tree A) (p q : path).
Implicit Types (sel : path -> tree A -> bool) (w : tree A -> tree A).

Lemma valueAt_setPath_leaf_origin q o p u v :
  isLeaf u = true -> isLeaf v = true ->
  valueAt (setPath o q (fun _ => u)) p = Some v ->
  (q = p /\ u = v) \/ valueAt o p = Some v.
Proof.
  intros Hu Hv H.
  destruct q as [|k q']; [now right|].
  destruct p as [|j p']; [discriminate|].
  destruct (prefixb (j :: p') (k :: q')) eqn:Epq;
    destruct (prefixb (k :: q') (j :: p')) eqn:Eqp.
  - assert (j :: p' = k :: q') as E by now apply prefixb_antisym.
    rewrite E in H.
    destruct (@valueAt_setPath_same A (k :: q') o (fun _ => u)) as [d Hd];
      [discriminate|].
    rewrite Hd in H. left. split; congruence.
  - destruct (@valueAt_setPath_below A (j :: p') o (k :: q') (fun _ => u))
      as [c Hc]; auto; [discriminate|].
    rewrite Hc in H. injection H as <-. discriminate.
  - rewrite valueAt_setPath_above_leaf in H; auto; discriminate.
  - rewrite valueAt_setPath_frame in H; auto.
Qed.

(** A leaf of a tree after a traversal's writes was there before, or was
    written by the traversal at that very path. *)
Lemma writes_leaf_origin sel w l : forall init p v,
  (forall q u, In (q, u) l -> sel q u = true -> isLeaf (w u) = true) ->
  isLeaf v = true ->
  valueAt (writes sel w l init) p = Some v ->
  valueAt init p = Some v
  \/ exists u, In (p, u) l /\ sel p u = true /\ w u = v.
Proof.
  induction l as [|[q u] l IH]; intros init p v Hl Hv H; [now left|].
  rewrite writes_cons in H.
  apply IH in H; auto.
  - destruct H as [H|[u' [Hin [Hs Hw]]]].
    + destruct (sel q u) eqn:Es; [|now left].
      rewrite setPathsTo_single in H.
      apply valueAt_setPath_leaf_origin in H as [[-> Huv]|H]; auto.
      * right. exists u. split; [now left|]. auto.
      * apply (Hl q u); auto. now left.
    + right. exists u'. split; [now right|]. auto.
  - intros q' u' Hin. apply Hl. now right.
Qed.

(** A path of a tree after a traversal's writes led somewhere before, or
    the traversal wrote at it or below it. *)
Lemma writes_path_origin sel w l : forall init p v,
  (forall q u, In (q, u) l -> sel q u = true -> isLeaf (w u) = true) ->
  valueAt (writes sel w l init) p = Some v ->
  valueAt init p <> None
  \/ exists q u, In (q, u) l /\ sel q u = true /\ prefixb p q = true.
Proof.
  induction l as [|[q u] l IH]; intros init p v Hl H.
  - left. simpl in H. congruence.
  - rewrite writes_cons in H. apply IH in H.
    + destruct H as [H|[q' [u' [Hin [Hs Hp]]]]].
      * destruct (sel q u) eqn:Es; [|now left].
        rewrite setPathsTo_single in H.
        destruct q as [|k q0]; [now left|].
        destruct (prefixb p (k :: q0)) eqn:Epq.
        -- right. exists (k :: q0), u. split; [now left|]. auto.
        -- destruct (prefixb (k :: q0) p) eqn:Eqp.
           ++ rewrite valueAt_setPath_above_leaf in H; auto;
                try discriminate.
              intros d. apply (Hl (k :: q0) u); auto. now left.
           ++ rewrite valueAt_setPath_frame in H; auto.
      * right. exists q', u'. split; [now right|]. auto.
    + intros q' u' Hin. apply Hl. now right.
Qed.

End OriginFacts.

(** After the first traversal of [updateErrors] no array is left. *)
Lemma clearPrevious_no_array Previous p msgs :
  wf_obj Previous = true ->
  valueAt (clearPrevious Previous) p <> Some (Leaf msgs).
Proof.
  intros Hwf H. pose proof H as H0.
  rewrite clearPrevious_writes in H.
  apply writes_leaf_origin in H; auto.
  destruct H as [H|[u [_ [_ Hu]]]]; [|discriminate].
  rewrite (@clearPrevious_array Previous p msgs Hwf H) in H0. discriminate.
Qed.

Lemma wf_obj_clearPrevious Previous :
  wf_obj Previous = true -> wf_obj (clearPrevious Previous) = true.
Proof.
  intros Hwf. rewrite clearPrevious_writes. apply wf_obj_writes; auto.
Qed.

Lemma flattenErrors_no_array (t : ErrorTree) :
  wf_obj t = true ->
  (forall p msgs, valueAt t p <> Some (Leaf msgs)) ->
  flattenErrors t = [].
Proof.
  intros Hwf Hno. destruct (flattenErrors t) as [|e r] eqn:E; auto.
  assert (In e (flattenErrors t)) as Hin by (rewrite E; now left).
  apply In_flattenErrors in Hin as [p [m [ms [Hp _]]]].
  apply traversePaths_valueAt in Hp; auto. now apply Hno in Hp.
Qed.

(** X11: [Errors.clear()] leaves no error to list, and forgets no path:
    [flattenErrors] of the cleared store is empty, every array of the
    store is [undefined] at its path afterwards, and a path that led
    nowhere still leads nowhere. *)
Theorem Errors_clear_keeps_paths :
  forall s : Engine,
    wf_obj (Data_errors s) = true ->
    flattenErrors (Data_errors (Errors_clear s)) = []
    /\ (forall p msgs,
          valueAt (Data_errors s) p = Some (Leaf msgs) ->
          valueAt (Data_errors (Errors_clear s)) p = Some Undef)
    /\ (forall p,
          valueAt (Data_errors s) p = None ->
          valueAt (Data_errors (Errors_clear s)) p = None).
Proof.
  intros s Hwf.
  change (Data_errors (Errors_clear s)) with (clearPrevious (Data_errors s)).
  split; [|split].
  - apply flattenErrors_no_array; [now apply wf_obj_clearPrevious|].
    intros p msgs. now apply clearPrevious_no_array.
  - intros p msgs. now apply clearPrevious_array.
  - intros p. now apply clearPrevious_absent.
Qed.

Lemma Errors_clear_keeps_paths_witness :
  wf_obj (Data_errors shownEngine) = true
  /\ flattenErrors (Data_errors (Errors_clear shownEngine)) = []
  /\ valueAt (Data_errors (Errors_clear shownEngine)) ["name"] = Some Undef.
Proof.
  split; [reflexivity|]. split.
  - apply (proj1 (Errors_clear_keeps_paths shownEngine eq_refl)).
  - apply (proj1 (proj2 (Errors_clear_keeps_paths shownEngine eq_refl))
             ["name"] ["Too short"]).
    reflexivity.
Defined.

(** ** The errors on display *)


Lemma displayOutput_origin s errs event force p v :
  isLeaf v = true ->
  valueAt (displayOutput s errs event force) p = Some v ->
  In (p, v) (traversePaths errs)
  /\ isArray v = true
  /\ force || displaysError s event p = true.
Proof.
  intros Hv H. rewrite displayOutput_writes in H.
  apply writes_leaf_origin in H; auto.
  - destruct H as [H|[u [Hin [Hs <-]]]].
    + now rewrite valueAt_empty in H.
    + apply andb_true_iff in Hs as [H1 H2]. auto.
  - intros q u _ Hs. apply andb_true_iff in Hs as [Hs _].
    now apply isArray_isLeaf.
Qed.

Lemma writeNew_origin New Previous p msgs :
  wf_obj Previous = true ->
  valueAt (writeNew New (clearPrevious Previous)) p = Some (Leaf msgs) ->
  In (p, Leaf msgs) (traversePaths New).
Proof.
  intros Hwf H. rewrite writeNew_writes in H.
  apply writes_leaf_origin in H; auto.
  - destruct H as [H|[u [Hin [_ <-]]]]; auto.
    now apply clearPrevious_no_array in H.
  - intros q u _ Hs. now rewrite isLeaf_array_or_undef in Hs.
Qed.

Lemma previousErrorExists_true previous p v :
  valueAt previous p = Some v -> previousErrorExists previous p = true.
Proof.
  unfold previousErrorExists, valueAt, hasKey.
  destruct (pathExists previous p) as [d|]; [|discriminate].
  now intros ->.
Qed.

Lemma previousErrorExists_key previous p :
  previousErrorExists previous p = true -> valueAt previous p <> None.
Proof.
  unfold previousErrorExists, valueAt, hasKey.
  destruct (pathExists previous p) as [d|]; [|discriminate].
  destruct (getField (parent d) (key d)); congruence.
Qed.

Lemma isEventError_own_path event p :
  isObjectErrorPath p = false -> In p (paths event) ->
  isEventError event p = true.
Proof.
  intros Ho Hin. unfold isEventError. apply existsb_exists.
  exists p. split; [exact Hin|]. rewrite Ho.
  unfold currentPathOf. rewrite Ho. apply String.eqb_refl.
Qed.

(** What [Form__displayNewErrors] leaves in the store, for an array of
    the new errors that is shown. *)
Lemma displayNewErrors_shown s errs event p msgs :
  wf_obj errs = true ->
  In (p, Leaf msgs) (traversePaths errs) ->
  displaysError s event p = true ->
  exists s',
    Form__displayNewErrors s errs event false = Ok s'
    /\ valueAt (Data_errors s') p = Some (Leaf msgs).
Proof.
  intros Hwf Hin Hd.
  destruct (Data_errors_displayNewErrors s errs event) as [s' [Hs' He]].
  exists s'. split; [exact Hs'|]. rewrite He.
  apply writeNew_leaf; [apply wf_obj_displayOutput| |reflexivity].
  apply valueAt_traversePaths. now apply displayOutput_displayed.
Qed.

Lemma displaysError_previous s event p v :
  valueAt (Data_errors s) p = Some v -> displaysError s event p = true.
Proof.
  intros E. unfold displaysError.
  rewrite (previousErrorExists_true _ _ E).
  destruct (isEventError event p && isOnInput (validationMethod s)); auto.
  destruct (immediate event && negb (multiple event) && isEventError event p);
    auto.
  destruct (multiple event && siblingDisplayed (Data_errors s) p); auto.
Qed.

(** X12: the tests by which an error comes on display.  Without
    [force], an array of the new errors is in the store afterwards when
    its path was a key of the store before, whatever the event; when the
    event is a blur, or the method is [oninput], or the event is
    immediate and not multiple, and the path is one of the event's and
    no [_errors] path. *)
Theorem displayNewErrors_shows :
  forall (s : Engine) (errs : ErrorTree) (event : ChangeEvent)
         (p : path) (msgs : list string),
    wf_obj errs = true ->
    In (p, Leaf msgs) (traversePaths errs) ->
    valueAt (Data_errors s) p <> None
    \/ (isObjectErrorPath p = false /\ In p (paths event)
        /\ (type event = Some BlurEvent
            \/ validationMethod s = OnInput
            \/ (immediate event = true /\ multiple event = false))) ->
    exists s',
      Form__displayNewErrors s errs event false = Ok s'
      /\ valueAt (Data_errors s') p = Some (Leaf msgs).
Proof.
  intros s errs event p msgs Hwf Hin H.
  apply displayNewErrors_shown; auto.
  unfold displaysError.
  destruct H as [H|[Ho [Hp H]]].
  - destruct (valueAt (Data_errors s) p) as [v|] eqn:E; [|contradiction].
    fold (displaysError s event p). now apply displaysError_previous with (v := v).
  - rewrite (isEventError_own_path _ _ Ho Hp), Ho.
    destruct H as [Ht|[Hm|[Hi Hmul]]].
    + rewrite Ht. simpl.
      destruct (isOnInput (validationMethod s)); auto.
      destruct (immediate event && negb (multiple event) && true); auto.
      destruct (multiple event && siblingDisplayed (Data_errors s) p); auto.
      destruct (previousErrorExists (Data_errors s) p); auto.
    + rewrite Hm. reflexivity.
    + rewrite Hi, Hmul. simpl.
      destruct (isOnInput (validationMethod s)); auto.
Qed.

Lemma displayNewErrors_shows_witness :
  wf_obj nameAndEmailErrors = true
  /\ In (["name"], Leaf ["Too short"]) (traversePaths nameAndEmailErrors)
  /\ exists s',
      Form__displayNewErrors autoEngine nameAndEmailErrors nameBlur false = Ok s'
      /\ valueAt (Data_errors s') ["name"] = Some (Leaf ["Too short"]).
Proof.
  split; [reflexivity|]. split; [left; reflexivity|].
  apply (@displayNewErrors_shows autoEngine nameAndEmailErrors nameBlur
           ["name"] ["Too short"]).
  - reflexivity.
  - left. reflexivity.
  - right. split; [reflexivity|]. split; [left; reflexivity|].
    left. reflexivity.
Defined.

(** X13: no error comes on display that the tests did not select: an
    array of the store after [Form__displayNewErrors] is an array of the
    new errors, at the same path, that a test selected.  Hence an event
    that is no blur, neither immediate nor multiple, under a method other
    than [oninput], brings up no error at a path that was no key of the
    store before. *)
Theorem displayNewErrors_shows_only_selected :
  forall (s : Engine) (errs : ErrorTree) (event : ChangeEvent),
    wf_obj (Data_errors s) = true ->
    exists s',
      Form__displayNewErrors s errs event false = Ok s'
      /\ (forall p msgs,
            valueAt (Data_errors s') p = Some (Leaf msgs) ->
            In (p, Leaf msgs) (traversePaths errs)
            /\ displaysError s event p = true)
      /\ (validationMethod s <> OnInput ->
          type event <> Some BlurEvent ->
          immediate event = false -> multiple event = false ->
          forall p msgs,
            valueAt (Data_errors s') p = Some (Leaf msgs) ->
            valueAt (Data_errors s) p <> None).
Proof.
  intros s errs event Hwf.
  destruct (Data_errors_displayNewErrors s errs event) as [s' [Hs' He]].
  exists s'. split; [exact Hs'|].
  assert (forall p msgs,
             valueAt (Data_errors s') p = Some (Leaf msgs) ->
             In (p, Leaf msgs) (traversePaths errs)
             /\ displaysError s event p = true) as Hsel.
  { intros p msgs H. rewrite He in H.
    apply writeNew_origin in H; auto.
    apply traversePaths_valueAt in H; [|apply wf_obj_displayOutput].
    apply displayOutput_origin in H as [H1 [_ H2]]; auto. }
  split; [exact Hsel|].
  intros Hm Ht Hi Hmul p msgs H.
  destruct (Hsel p msgs H) as [_ Hd].
  apply previousErrorExists_key.
  unfold displaysError in Hd. rewrite Hi, Hmul in Hd. simpl in Hd.
  assert (isOnInput (validationMethod s) = false) as Ho.
  { destruct (validationMethod s); auto. congruence. }
  assert (isBlur (type event) = false) as Hb.
  { destruct (type event) as [[|]|]; auto. congruence. }
  rewrite Ho, Hb, andb_false_r in Hd. simpl in Hd.
  destruct (previousErrorExists (Data_errors s) p); auto.
  now destruct (isObjectErrorPath p).
Qed.

Lemma displayNewErrors_shows_only_selected_witness :
  wf_obj (Data_errors autoEngine) = true
  /\ exists s',
      Form__displayNewErrors autoEngine nameAndEmailErrors nameInput false
      = Ok s'
      /\ forall p msgs,
          valueAt (Data_errors s') p = Some (Leaf msgs) ->
          valueAt (Data_errors autoEngine) p <> None.
Proof.
  split; [reflexivity|].
  destruct (@displayNewErrors_shows_only_selected autoEngine
              nameAndEmailErrors nameInput eq_refl) as [s' [H1 [_ H2]]].
  exists s'. split; [exact H1|].
  apply H2; [discriminate|discriminate|reflexivity|reflexivity].
Defined.

Lemma displayOutput_nothing_at s errs event force p :
  wf_obj errs = true -> p <> [] ->
  valueAt errs p = None -> leafAbove errs p = false ->
  valueAt (displayOutput s errs event force) p = None
  /\ leafAbove (displayOutput s errs event force) p = false.
Proof.
  intros Hwf Hp Hv Ha. split.
  - destruct (valueAt (displayOutput s errs event force) p) as [v|] eqn:E; auto.
    rewrite displayOutput_writes in E.
    apply writes_path_origin in E.
    + destruct E as [E|[q [u [Hin [_ Hpq]]]]].
      * now rewrite valueAt_empty in E.
      * apply traversePaths_valueAt in Hin; auto.
        exfalso. exact (@valueAt_prefix _ p errs q u Hp Hpq Hin Hv).
    + intros q u _ Hs. apply andb_true_iff in Hs as [Hs _].
      now apply isArray_isLeaf.
  - destruct (leafAbove (displayOutput s errs event force) p) eqn:E; auto.
    unfold leafAbove in E.
    apply existsb_exists in E as [q [Hq Hl]].
    destruct (valueAt (displayOutput s errs event force) q) as [v|] eqn:Ev;
      [|discriminate].
    apply displayOutput_origin in Ev as [Hin _]; auto.
    apply traversePaths_valueAt in Hin; auto.
    assert (leafAbove errs p = true) as Hx.
    { unfold leafAbove. apply existsb_exists. exists q. split; auto.
      now rewrite Hin. }
    congruence.
Qed.

(** X14: an error that is gone is remembered, and comes back at once.
    When the store shows an array at a path and a validation has nothing
    at that path any more, the store holds [undefined] there afterwards;
    and when a later validation has an array at that path again, the
    store shows it, whatever the event. *)
Theorem displayNewErrors_remembers :
  forall (s : Engine) (errs errs' : ErrorTree) (event event' : ChangeEvent)
         (p : path) (msgs msgs' : list string),
    wf_obj (Data_errors s) = true ->
    wf_obj errs = true -> wf_obj errs' = true ->
    valueAt (Data_errors s) p = Some (Leaf msgs) ->
    valueAt errs p = None -> leafAbove errs p = false ->
    valueAt errs' p = Some (Leaf msgs') ->
    exists s1 s2,
      Form__displayNewErrors s errs event false = Ok s1
      /\ valueAt (Data_errors s1) p = Some Undef
      /\ Form__displayNewErrors s1 errs' event' false = Ok s2
      /\ valueAt (Data_errors s2) p = Some (Leaf msgs').
Proof.
  intros s errs errs' event event' p msgs msgs' Hwf He He' Hp Hv Ha Hv'.
  assert (p <> []) as Hne by (intros ->; discriminate).
  destruct (Data_errors_displayNewErrors s errs event) as [s1 [Hs1 E1]].
  assert (valueAt (Data_errors s1) p = Some Undef) as H1.
  { rewrite E1.
    destruct (@displayOutput_nothing_at s errs event false p He Hne Hv Ha)
      as [Hn Hl].
    rewrite writeNew_frame; auto; [|apply wf_obj_displayOutput].
    now apply clearPrevious_array with (msgs := msgs). }
  destruct (@displayNewErrors_shown s1 errs' event' p msgs' He') as [s2 [Hs2 H2]].
  - now apply valueAt_traversePaths.
  - now apply displaysError_previous with (v := Undef).
  - exists s1, s2. auto.
Qed.

Lemma displayNewErrors_remembers_witness :
  wf_obj (Data_errors shownEngine) = true
  /\ valueAt (Data_errors shownEngine) ["name"] = Some (Leaf ["Too short"])
  /\ exists s1 s2,
      Form__displayNewErrors shownEngine [] nameInput false = Ok s1
      /\ valueAt (Data_errors s1) ["name"] = Some Undef
      /\ Form__displayNewErrors s1 [("name", Leaf ["Required"])] nameInput false
         = Ok s2
      /\ valueAt (Data_errors s2) ["name"] = Some (Leaf ["Required"]).
Proof.
  split; [reflexivity|]. split; [reflexivity|].
  apply (@displayNewErrors_remembers shownEngine [] [("name", Leaf ["Required"])]
           nameInput nameInput ["name"] ["Too short"] ["Required"]);
    reflexivity.
Defined.

(** ** validateForm *)

Lemma Form_validate_default s a :
  validators s = Validators a ->
  Form_validate s None = Form_validate s (Some a).
Proof. unfold Form_validate. now intros ->. Qed.

(** What [validateForm({ update: true })] leaves in the error store when
    the validator, the one of the options, rejects the data. *)
Lemma validateForm_update_rejected s a issues t :
  validators s = Validators a ->
  fullAdapter a = true ->
  validate a (Data_form s) = Failure issues ->
  mapErrors issues (shapeFor s a) = Ok t ->
  snd (validateForm s true None)
  = Ok (mkValidated false t (spread (Data_form s) (Data_form s)))
  /\ exists s4,
      Data_errors s4 = Data_errors s
      /\ Data_errors (fst (fst (validateForm s true None)))
         = if customValidity s
              && existsb (fun pv => isArray (snd pv)) (traversePaths t)
           then Data_errors s
           else writeNew (displayOutput s4 t (pathsEvent []) true)
                  (clearPrevious (Data_errors s)).
Proof.
  intros Hv Hfull Hval Hmap.
  unfold validateForm. rewrite Hv.
  unfold Form_clientValidation. rewrite Hv.
  cbv beta iota. simpl orb. cbv iota.
  rewrite (@Form_validate_default (emit s (ChangeEventTimer (pathsEvent []))) a)
    by exact Hv.
  rewrite Form_validate_full by exact Hfull.
  cbn [Data_form emit].
  rewrite Hval.
  change (shapeFor (emit s (ChangeEventTimer (pathsEvent []))) a)
    with (shapeFor s a).
  rewrite Hmap. cbn [bind valid errors data andb].
  cbv iota.
  set (s4 := emit (emits (emit s (ChangeEventTimer (pathsEvent [])))
                     [CallValidate (Data_form s)]) Tick).
  unfold Form__displayNewErrors.
  change (customValidity s4) with (customValidity s).
  change (EnhancedForm s4) with (EnhancedForm s).
  simpl andb.
  destruct (customValidity s
            && existsb (fun pv => isArray (snd pv)) (traversePaths t)).
  - split; [reflexivity|]. exists s4. split; reflexivity.
  - simpl formElement. cbv iota.
    destruct (EnhancedForm s); (split; [reflexivity|]); exists s4;
      split; reflexivity.
Qed.



(** X16: with [options.customValidity], [validateForm({ update: true })]
    shows nothing: [addError] reads [isEventError] before the visitor has
    initialised it, the call of [Form__displayNewErrors] fails, and the
    error store stays as it was, while the result reports the errors. *)
Theorem validateForm_update_customValidity :
  forall (s : Engine) (a : Adapter) (issues : list ValidationIssue)
         (t : ErrorTree),
    validators s = Validators a ->
    fullAdapter a = true ->
    customValidity s = true ->
    issues <> [] ->
    validate a (Data_form s) = Failure issues ->
    mapErrors issues (shapeFor s a) = Ok t ->
    snd (validateForm s true None)
    = Ok (mkValidated false t (spread (Data_form s) (Data_form s)))
    /\ Data_errors (fst (fst (validateForm s true None))) = Data_errors s
    /\ exists s',
        Data_errors s' = Data_errors s
        /\ Form__displayNewErrors s' t (pathsEvent []) true
           = Throw (ReferenceError
                      "Cannot access 'isEventError' before initialization").
Proof.
  intros s a issues t Hv Hfull Hc Hne Hval Hmap.
  destruct (validateForm_update_rejected s Hv Hfull Hval Hmap)
    as [Hr [s4 [_ He]]].
  assert (existsb (fun pv : path * tree (list string) => isArray (snd pv))
            (traversePaths t) = true) as Hx.
  { destruct issues as [|e r]; [contradiction|].
    destruct (@mapErrors_from_stored (shapeFor s a) (e :: r) [] t e Hmap
                (or_introl eq_refl)) as [l [Hl _]].
    apply existsb_exists. exists (targetPath (shapeFor s a) e, Leaf l).
    split; [now apply valueAt_traversePaths|reflexivity]. }
  rewrite Hc, Hx in He. simpl in He.
  split; [exact Hr|]. split; [exact He|].
  exists s. split; [reflexivity|].
  unfold Form__displayNewErrors. rewrite Hc, Hx. reflexivity.
Qed.

Lemma validateForm_update_customValidity_witness :
  customValidity customEngine = true
  /\ Data_errors (fst (fst (validateForm customEngine true None)))
     = Data_errors customEngine.
Proof.
  split; [reflexivity|].
  apply (@validateForm_update_customValidity customEngine shortName
           [mkIssue (Some [SegStr "name"]) "Too short"]
           [("name", Leaf ["Too short"])] eq_refl eq_refl eq_refl);
    [discriminate|reflexivity|reflexivity].
Defined.

(** X17: without [options.validators], [validateForm({ update: true,
    schema })] validates but shows nothing: [Form_clientValidation]
    returns before it validates, the error store stays as it was, and the
    result is the one of [Form_validate] with the schema: for data the
    schema rejects, the invalid result with the mapped errors. *)
Theorem validateForm_update_without_validators :
  forall (s : Engine) (a : Adapter),
    validators s = NoValidators ->
    Data_errors (fst (fst (validateForm s true (Some a)))) = Data_errors s
    /\ (fullAdapter a = true ->
        forall issues t,
          validate a (Data_form s) = Failure issues ->
          mapErrors issues (shapeFor s a) = Ok t ->
          snd (validateForm s true (Some a))
          = Ok (mkValidated false t (spread (Data_form s) (Data_form s)))).
Proof.
  intros s a Hv. unfold validateForm. rewrite Hv.
  unfold Form_clientValidation. rewrite Hv.
  cbv beta iota. simpl orb. cbv iota. simpl formElement. cbv iota.
  assert (forall s1,
             Data_errors s1 = Data_errors s -> Data_form s1 = Data_form s ->
             Data_shape s1 = Data_shape s ->
             Data_errors
               (fst (fst (let (s2, r) := Form_validate s1 (Some a) in
                          (s2, match EnhancedForm s with
                               | Some _ => true
                               | None => false
                               end, r))))
             = Data_errors s
             /\ (fullAdapter a = true ->
                 forall issues t,
                   validate a (Data_form s) = Failure issues ->
                   mapErrors issues (shapeFor s a) = Ok t ->
                   snd (let (s2, r) := Form_validate s1 (Some a) in
                        (s2, match EnhancedForm s with
                             | Some _ => true
                             | None => false
                             end, r))
                   = Ok (mkValidated false t
                           (spread (Data_form s) (Data_form s))))) as H.
  { intros s1 He Hd Hs. split.
    - destruct (Form_validate_emits s1 (Some a)) as [n [_ Hn]].
      destruct (Form_validate s1 (Some a)) as [s2 r]. simpl in *.
      now rewrite Hn, Data_errors_emits.
    - intros Hfull issues t Hval Hmap.
      rewrite Form_validate_full by assumption.
      rewrite Hd, Hval.
      replace (shapeFor s1 a) with (shapeFor s a)
        by (unfold shapeFor; now rewrite Hs).
      rewrite Hmap. reflexivity. }
  destruct (EnhancedForm s) as [el|] eqn:Ee.
  - apply (H (emit (emit s (ChangeEventTimer (pathsEvent [])))
                (ClearCustomValidity el (paths (pathsEvent []))))); reflexivity.
  - apply (H (emit s (ChangeEventTimer (pathsEvent [])))); reflexivity.
Qed.

Lemma validateForm_update_without_validators_witness :
  validators autoEngine = NoValidators
  /\ Data_errors (fst (fst (validateForm autoEngine true (Some shortName))))
     = Data_errors autoEngine
  /\ snd (validateForm autoEngine true (Some shortName))
     = Ok (mkValidated false [("name", Leaf ["Too short"])]
             (spread (Data_form autoEngine) (Data_form autoEngine))).
Proof.
  split; [reflexivity|]. split.
  - apply (proj1 (@validateForm_update_without_validators autoEngine shortName
                    eq_refl)).
  - apply (proj2 (@validateForm_update_without_validators autoEngine shortName
                    eq_refl) eq_refl
             [mkIssue (Some [SegStr "name"]) "Too short"]
             [("name", Leaf ["Too short"])] eq_refl eq_refl).
Defined.

(** ** Files of the form that the new data has no key for *)

Section KeepFiles.
Variable p : path.
Variable v : tree scalar.

Lemma keepFile_written acc q u :
  isFile u = true -> valueAt acc q = None ->
  keepFile acc (q, u) = setPathsTo acc [q] u.
Proof.
  intros Hu Hq. unfold keepFile. rewrite Hu.
  unfold valueAt, hasKey in *.
  destruct (pathExists acc q) as [d|]; auto.
  now rewrite Hq.
Qed.

Lemma keepFile_kept acc q u w :
  valueAt acc q = Some w -> keepFile acc (q, u) = acc.
Proof.
  intros Hq. unfold keepFile. destruct (isFile u); auto.
  unfold valueAt, hasKey in *.
  destruct (pathExists acc q) as [d|]; [|discriminate].
  now rewrite Hq.
Qed.

Lemma keepFile_apart acc q u :
  prefixb p q = false -> prefixb q p = false ->
  valueAt (keepFile acc (q, u)) p = valueAt acc p.
Proof.
  intros H1 H2.
  assert (valueAt (setPathsTo acc [q] u) p = valueAt acc p) as Hw.
  { rewrite setPathsTo_single. now apply valueAt_setPath_frame. }
  unfold keepFile. destruct (isFile u); auto.
  destruct (pathExists acc q) as [d|]; auto.
  destruct (hasKey (parent d) (key d)); auto.
Qed.

Lemma keepFile_other acc q u : isFile u = false -> keepFile acc (q, u) = acc.
Proof. intros H. unfold keepFile. now rewrite H. Qed.

Lemma keepFiles_present l : forall acc w,
  (forall q u, In (q, u) l -> isFile u = true ->
               q = p \/ (prefixb p q = false /\ prefixb q p = false)) ->
  valueAt acc p = Some w ->
  valueAt (fold_left keepFile l acc) p = Some w.
Proof.
  induction l as [|[q u] l IH]; intros acc w Hl Hw; [exact Hw|].
  cbn [fold_left]. apply IH.
  - intros q' u' Hin. apply (Hl q' u'). now right.
  - destruct (isFile u) eqn:Hu; [|now rewrite keepFile_other].
    destruct (Hl q u (or_introl eq_refl) Hu) as [->|[H1 H2]].
    + now rewrite (@keepFile_kept acc p u w Hw).
    + now rewrite keepFile_apart.
Qed.

Lemma keepFiles_absent l : forall acc,
  p <> [] -> isFile v = true ->
  (forall q u, In (q, u) l -> isFile u = true ->
               (q = p /\ u = v)
               \/ (prefixb p q = false /\ prefixb q p = false)) ->
  In (p, v) l ->
  valueAt acc p = None ->
  valueAt (fold_left keepFile l acc) p = Some v.
Proof.
  induction l as [|[q u] l IH]; intros acc Hp Hv Hl Hin Hn; [contradiction|].
  assert (forall q' u', In (q', u') l -> isFile u' = true ->
            q' = p \/ (prefixb p q' = false /\ prefixb q' p = false)) as Hl'.
  { intros q' u' Hin' Hu'.
    destruct (Hl q' u' (or_intror Hin') Hu') as [[-> _]|H]; auto. }
  cbn [fold_left].
  destruct (isFile u) eqn:Hu.
  - destruct (Hl q u (or_introl eq_refl) Hu) as [[-> ->]|[H1 H2]].
    + apply keepFiles_present; auto.
      rewrite keepFile_written by assumption.
      now apply valueAt_setPathsTo_same.
    + destruct Hin as [[= -> ->]|Hin].
      * now rewrite prefixb_refl in H1.
      * apply IH; auto.
        -- intros q' u' Hin'. apply Hl. now right.
        -- now rewrite keepFile_apart.
  - rewrite keepFile_other by assumption.
    destruct Hin as [[= -> ->]|Hin]; [congruence|].
    apply IH; auto. intros q' u' Hin'. apply Hl. now right.
Qed.

End KeepFiles.

(** X18: [Form_set] with [keepFiles] keeps the files the new data has
    no key for, and nothing else of theirs: for every [File] of the
    current form data, the data the form takes holds that file at its
    path when the new data has no property there, and holds what the new
    data has there otherwise, be it [undefined]. *)
Theorem Form_setData_keeps_files :
  forall (s : Engine) (data : DataTree) (taint : TaintOption)
         (p : path) (r : nat),
    wf_obj (Data_form s) = true ->
    valueAt (Data_form s) p = Some (Leaf (SFile r)) ->
    (valueAt data p = None ->
     valueAt (Data_form (Form_setData s data taint true)) p
     = Some (Leaf (SFile r)))
    /\ (forall w,
          valueAt data p = Some w ->
          valueAt (Data_form (Form_setData s data taint true)) p = Some w).
Proof.
  intros s data taint p r Hwf Hp.
  assert (p <> []) as Hne by (intros ->; discriminate).
  change (Data_form (Form_setData s data taint true))
    with (keepFilesOf (Data_form s) data).
  unfold keepFilesOf.
  assert (forall q u, In (q, u) (traversePaths (Data_form s)) ->
                      isFile u = true ->
                      (q = p /\ u = Leaf (SFile r))
                      \/ (prefixb p q = false /\ prefixb q p = false)) as Hl.
  { intros q u Hin Hu.
    apply (leaves_unrelated (Data_form s)); auto.
    - now apply traversePaths_valueAt.
    - destruct u as [|[]|]; auto; discriminate. }
  split.
  - intros Hn. apply keepFiles_absent; auto.
    now apply valueAt_traversePaths.
  - intros w Hw. apply keepFiles_present; auto.
    intros q u Hin Hu. destruct (Hl q u Hin Hu) as [[-> _]|H]; auto.
Qed.

Lemma Form_setData_keeps_files_witness :
  wf_obj (Data_form uploadEngine) = true
  /\ valueAt (Data_form uploadEngine) ["avatar"] = Some (Leaf (SFile 7))
  /\ valueAt serverData ["avatar"] = None
  /\ valueAt (Data_form (Form_setData uploadEngine serverData Ignore true))
       ["avatar"] = Some (Leaf (SFile 7)).
Proof.
  split; [reflexivity|]. split; [reflexivity|]. split; [reflexivity|].
  apply (proj1 (@Form_setData_keeps_files uploadEngine serverData Ignore
                  ["avatar"] 7 eq_refl eq_refl)).
  reflexivity.
Defined.

(** ** The JSON of a submit, from the client to the server *)

Lemma concat_empty_app l1 : forall l2,
  String.concat EmptyString (l1 ++ l2)
  = (String.concat EmptyString l1 ++ String.concat EmptyString l2)%string.
Proof.
  induction l1 as [|x l1 IH]; intros l2; [reflexivity|].
  change ((x :: l1) ++ l2) with (x :: (l1 ++ l2)).
  rewrite !concat_empty_cons, IH.
  clear. induction x as [|c x IHx]; simpl; [reflexivity|now rewrite IHx].
Qed.

Lemma fd_getAll_app a b k : fd_getAll (a ++ b) k = fd_getAll a k ++ fd_getAll b k.
Proof. unfold fd_getAll. now rewrite filter_app, map_app. Qed.

Lemma fd_has_app a b k : fd_has (a ++ b) k = fd_has a k || fd_has b k.
Proof. unfold fd_has. apply existsb_app. Qed.

Lemma fd_has_getAll formData k : fd_has formData k = false -> fd_getAll formData k = [].
Proof.
  unfold fd_has, fd_getAll. induction formData as [|[k' e] r IH]; simpl; auto.
  destruct (String.eqb k' k); simpl; [discriminate|exact IH].
Qed.

Lemma fd_set_absent formData k e :
  fd_has formData k = false -> fd_set formData k e = formData ++ [(k, e)].
Proof.
  unfold fd_has. induction formData as [|[k' e'] r IH]; simpl; auto.
  destruct (String.eqb k' k); simpl; [discriminate|].
  intros H. now rewrite IH.
Qed.

(** The chunks are appended in order, after what the data holds. *)
Lemma appendJson_chunks chunks : forall submitData,
  fold_left
    (fun fd chunk => fd_append fd "__superform_json" (EntryString chunk))
    chunks submitData
  = submitData
    ++ map (fun chunk => ("__superform_json", EntryString chunk)) chunks.
Proof.
  induction chunks as [|c r IH]; intros submitData; simpl.
  - now rewrite app_nil_r.
  - rewrite IH. unfold fd_append. now rewrite <- app_assoc.
Qed.

Lemma fd_getAll_chunks chunks :
  map entryString
    (fd_getAll
       (map (fun chunk => ("__superform_json", EntryString chunk)) chunks)
       "__superform_json")
  = chunks.
Proof.
  unfold fd_getAll.
  induction chunks as [|c r IH]; simpl; [reflexivity|now rewrite IH].
Qed.

Lemma fd_getAll_chunks_other chunks k :
  String.eqb "__superform_json" k = false ->
  fd_getAll (map (fun chunk => ("__superform_json", EntryString chunk)) chunks) k
  = [].
Proof.
  intros Hk. unfold fd_getAll.
  induction chunks as [|c r IH]; cbn [map filter fst]; [reflexivity|].
  now rewrite Hk.
Qed.

Lemma fd_has_chunks_other chunks k :
  String.eqb "__superform_json" k = false ->
  fd_has (map (fun chunk => ("__superform_json", EntryString chunk)) chunks) k
  = false.
Proof.
  intros Hk. unfold fd_has.
  induction chunks as [|c r IH]; cbn [map existsb fst]; [reflexivity|].
  now rewrite Hk.
Qed.

Lemma chunkSubstr_concat json size :
  0 < size ->
  exists chunks,
    chunkSubstr json size = Some chunks
    /\ String.concat EmptyString chunks = json.
Proof.
  intros Hs.
  pose proof (ceilDiv_bounds (String.length json) Hs) as [B1 B2].
  unfold chunkSubstr.
  destruct (Nat.eqb size 0) eqn:E; [apply Nat.eqb_eq in E; lia|].
  eexists. split; [reflexivity|]. now apply concat_chunkLoop.
Qed.

(** What the server finds after the client has appended the chunks and
    the form id. *)
Lemma sent_form submitData chunks formId :
  exists tail,
    addFormId
      (submitData
       ++ map (fun chunk => ("__superform_json", EntryString chunk)) chunks)
      formId
    = submitData
      ++ map (fun chunk => ("__superform_json", EntryString chunk)) chunks
      ++ tail
    /\ fd_getAll tail "__superform_json" = []
    /\ noFileKeys tail = true
    /\ fd_get tail "__superform_id"
       = (if fd_has submitData "__superform_id" then None
          else option_map EntryString formId).
Proof.
  unfold addFormId. rewrite fd_has_app, fd_has_chunks_other by reflexivity.
  rewrite orb_false_r.
  destruct (fd_has submitData "__superform_id") eqn:Eh.
  - exists []. rewrite !app_nil_r. now repeat split.
  - destruct formId as [i|].
    + exists [("__superform_id", EntryString i)].
      rewrite fd_set_absent.
      * rewrite <- app_assoc. now repeat split.
      * rewrite fd_has_app, fd_has_chunks_other by reflexivity.
        now rewrite Eh.
    + exists []. rewrite !app_nil_r. now repeat split.
Qed.

Lemma restoreFiles_no_files formData output :
  noFileKeys formData = true -> restoreFiles formData output = output.
Proof.
  unfold noFileKeys, restoreFiles. intros H.
  rewrite forallb_forall in H.
  assert (forall pre,
             (forall k, In k (fd_keys formData) -> String.prefix pre k = false) ->
             filter (fun p => String.prefix pre p) (fd_keys formData) = [])
    as Hf.
  { intros pre Hp. apply filter_none. exact Hp. }
  rewrite !Hf; [reflexivity| |].
  - intros k Hk. specialize (H k Hk). apply andb_true_iff in H as [H _].
    now apply negb_true_iff in H.
  - intros k Hk. specialize (H k Hk). apply andb_true_iff in H as [_ H].
    now apply negb_true_iff in H.
Qed.

Lemma noFileKeys_app a b :
  noFileKeys (a ++ b) = noFileKeys a && noFileKeys b.
Proof. unfold noFileKeys, fd_keys. now rewrite map_app, forallb_app. Qed.

Lemma noFileKeys_chunks chunks :
  noFileKeys (map (fun chunk => ("__superform_json", EntryString chunk)) chunks)
  = true.
Proof. induction chunks as [|c r IH]; [reflexivity|exact IH]. Qed.

Lemma fd_get_app a b k :
  fd_get (a ++ b) k = match fd_get a k with Some e => Some e | None => fd_get b k end.
Proof.
  unfold fd_get. rewrite fd_getAll_app.
  destruct (fd_getAll a k); reflexivity.
Qed.

Lemma fd_get_absent formData k : fd_has formData k = false -> fd_get formData k = None.
Proof. intros H. unfold fd_get. now rewrite fd_has_getAll. Qed.

Lemma fd_get_present formData k :
  fd_has formData k = true -> exists e, fd_get formData k = Some e.
Proof.
  unfold fd_has, fd_get, fd_getAll.
  induction formData as [|[k' e] r IH]; simpl; [discriminate|].
  destruct (String.eqb k' k); simpl; eauto.
Qed.

Lemma chunkSubstr_nonempty json size chunks :
  json <> EmptyString -> chunkSubstr json size = Some chunks -> chunks <> [].
Proof.
  intros Hj Hc ->. unfold chunkSubstr in Hc.
  destruct (Nat.eqb size 0) eqn:E; [discriminate|].
  apply Nat.eqb_neq in E. injection Hc as Hc.
  pose proof (length_chunkLoop json size (ceilDiv (String.length json) size) 0)
    as Hlen.
  rewrite Hc in Hlen. simpl in Hlen.
  assert (0 < size) as Hs by lia.
  pose proof (ceilDiv_bounds (String.length json) Hs) as [B1 _].
  rewrite <- Hlen in B1. simpl in B1.
  apply Hj. apply length_zero_empty. lia.
Qed.

(** X19: the JSON of a submit arrives whole.  When the form data holds
    no [__superform_json] entry yet and the chunk size is positive, the
    client's chunks, once appended, are joined by [parseFormData] to the
    very text that was cut, whatever the chunk size; the id read is the
    one of the form data if it has one, and [Data.formId] otherwise.
    When the text is not empty and [parse] makes an object of it,
    [parseFormData] returns that object as the data, with the files put
    back, and [posted] set; with no file entry in the form data the
    object is returned as it is. *)
Theorem json_submit_round_trip :
  forall (parse : string -> Devalued)
         (parseFields : FormDataT -> DataTree + JsError)
         (submitData : FormDataT) (json : string) (size : nat)
         (formId : option string),
    0 < size ->
    fd_has submitData "__superform_json" = false ->
    exists chunks sent,
      chunkSubstr json size = Some chunks
      /\ appendJson submitData json size = Some sent
      /\ superJsonText (addFormId sent formId) = json
      /\ postedId (addFormId sent formId)
         = (if fd_has submitData "__superform_id" then postedId submitData
            else formId)
      /\ forall output,
          json <> EmptyString ->
          parse json = ParsedObject output ->
          parseFormData parse parseFields (addFormId sent formId)
          = Returns
              (mkParsed (postedId (addFormId sent formId))
                 (Some (restoreFiles (addFormId sent formId) output)) true)
          /\ (noFileKeys submitData = true ->
              restoreFiles (addFormId sent formId) output = output).
Proof.
  intros parse parseFields submitData json size formId Hs Hno.
  destruct (chunkSubstr_concat json Hs) as [chunks [Hc Hj]].
  exists chunks. eexists. split; [exact Hc|].
  unfold appendJson. rewrite Hc. split; [reflexivity|].
  rewrite appendJson_chunks.
  destruct (sent_form submitData chunks formId) as [tail [-> [T1 [T2 T3]]]].
  set (all := submitData
              ++ map (fun chunk => ("__superform_json", EntryString chunk)) chunks
              ++ tail).
  assert (superJsonText all = json) as Htext.
  { unfold superJsonText, all.
    rewrite !fd_getAll_app, (fd_has_getAll _ _ Hno), T1, app_nil_r.
    simpl app. now rewrite fd_getAll_chunks. }
  assert (postedId all
          = if fd_has submitData "__superform_id" then postedId submitData
            else formId) as Hid.
  { unfold postedId, all. rewrite fd_get_app.
    destruct (fd_has submitData "__superform_id") eqn:Eh.
    - destruct (fd_get_present _ _ Eh) as [e ->]. reflexivity.
    - rewrite (fd_get_absent _ _ Eh), fd_get_app.
      unfold fd_get at 1. rewrite fd_getAll_chunks_other by reflexivity.
      rewrite T3. now destruct formId. }
  split; [exact Htext|]. split; [exact Hid|].
  intros output Hne Hp. split.
  - unfold parseFormData, tryParseSuperJson.
    assert (fd_has all "__superform_json" = true) as Hhas.
    { unfold all. rewrite !fd_has_app.
      pose proof (@chunkSubstr_nonempty json size chunks Hne Hc) as Hch.
      destruct chunks as [|c r]; [contradiction|].
      cbn [map fd_has existsb fst]. rewrite String.eqb_refl.
      simpl. now rewrite orb_true_r. }
    rewrite Hhas, Htext, Hp. reflexivity.
  - intros Hnf. apply restoreFiles_no_files.
    unfold all. rewrite !noFileKeys_app, Hnf, noFileKeys_chunks, T2.
    reflexivity.
Qed.

Lemma json_submit_round_trip_witness :
  0 < 5
  /\ fd_has avatarForm "__superform_json" = false
  /\ exists chunks sent,
      chunkSubstr nameJson 5 = Some chunks
      /\ appendJson avatarForm nameJson 5 = Some sent
      /\ superJsonText (addFormId sent (Some "form1")) = nameJson
      /\ postedId (addFormId sent (Some "form1")) = Some "form1"
      /\ parseFormData parseName noFields (addFormId sent (Some "form1"))
         = Returns
             (mkParsed (postedId (addFormId sent (Some "form1")))
                (Some (restoreFiles (addFormId sent (Some "form1"))
                         [("name", Leaf (SStr "Al"))])) true).
Proof.
  split; [lia|]. split; [reflexivity|].
  destruct (@json_submit_round_trip parseName noFields avatarForm nameJson 5
              (Some "form1")) as [chunks [sent [H1 [H2 [H3 [H4 H5]]]]]];
    [lia|reflexivity|].
  exists chunks, sent. repeat split; auto.
  apply (H5 [("name", Leaf (SStr "Al"))]); [discriminate|reflexivity].
Defined.

(** ** What [parseRequest] reports as posted *)

(** [parseFormData] always reports the data as posted. *)
Lemma parseFormData_posted parse parseFields formData r :
  parseFormData parse parseFields formData = Returns r -> posted r = true.
Proof.
  unfold parseFormData.
  destruct (tryParseSuperJson parse formData); [now intros [= <-]|].
  destruct (parseFields formData); [now intros [= <-]|discriminate].
Qed.

(** X20: what [parseRequest] returns is marked as posted exactly when
    the data was a [FormData] or a request whose body could be read: for
    a [URL] or [URLSearchParams] the same id and data are returned as for
    the form data made of its entries, with [posted] false; for a request
    whose body cannot be read, and for any other value, [posted] is
    false. *)
Theorem parseRequest_posted :
  forall (parse : string -> Devalued)
         (parseFields : FormDataT -> DataTree + JsError)
         (SearchParams : Type) (toFormData : SearchParams -> FormDataT)
         (data : RequestData FormDataT DataTree SearchParams)
         (r : ParsedForm DataTree),
    parseRequest (parseFormData parse parseFields) toFormData data = Returns r ->
    posted r
    = match data with
      | IsFormData _ _ _ => true
      | IsRequest _ _ (Resolves _) => true
      | IsRequestEvent _ _ (Resolves _) => true
      | _ => false
      end
    /\ match data with
       | IsSearchParams _ _ params =>
           exists r',
             parseFormData parse parseFields (toFormData params) = Returns r'
             /\ id r = id r' /\ parsedData r = parsedData r'
       | _ => True
       end.
Proof.
  intros parse parseFields SearchParams toFormData data r.
  destruct data as [fd|params|[fd|e]|[fd|e]|d]; simpl.
  - intros H. split; [now apply parseFormData_posted in H|exact I].
  - unfold parseSearchParams.
    destruct (parseFormData parse parseFields (toFormData params)) as [r'|e];
      [|discriminate].
    intros [= <-]. split; [reflexivity|]. exists r'. auto.
  - intros H. split; [now apply parseFormData_posted in H|exact I].
  - destruct (isTypeError e && includes (errorMessage e) "already been consumed");
      [discriminate|].
    intros [= <-]. now split.
  - intros H. split; [now apply parseFormData_posted in H|exact I].
  - destruct (isTypeError e && includes (errorMessage e) "already been consumed");
      [discriminate|].
    intros [= <-]. now split.
  - intros [= <-]. now split.
Qed.

Lemma parseRequest_posted_witness :
  parseRequest (parseFormData parseName noFields) (fun params => params)
    (IsSearchParams FormDataT DataTree avatarForm)
  = Returns (mkParsed None (Some []) false)
  /\ posted (mkParsed (Parsed:=DataTree) None (Some []) false) = false.
Proof.
  split; [reflexivity|].
  apply (proj1 (@parseRequest_posted parseName noFields FormDataT
                  (fun params => params)
                  (IsSearchParams FormDataT DataTree avatarForm)
                  (mkParsed None (Some []) false) eq_refl)).
Defined.

(** ** updateErrors on one object *)

Lemma heapSet_same h r t : heapSet h r t r = t.
Proof. unfold heapSet. now rewrite Nat.eqb_refl. Qed.

(** X21: when [updateErrors] is given one and the same object as the
    new and as the previous errors, without [force], every array of it
    ends as [undefined]: the first traversal clears the arrays of the
    object, the second one finds them cleared.  The object returned
    lists no error, and holds [undefined] at the path of every array it
    had. *)
Theorem updateErrors_same_object :
  forall (h : heap) (r : ref),
    wf_obj (h r) = true ->
    fst (updateErrors h r r false) = r
    /\ flattenErrors (snd (updateErrors h r r false) r) = []
    /\ (forall p msgs,
          valueAt (h r) p = Some (Leaf msgs) ->
          valueAt (snd (updateErrors h r r false) r) p = Some Undef).
Proof.
  intros h r Hwf. unfold updateErrors. cbn [fst snd].
  rewrite !heapSet_same.
  pose proof (wf_obj_clearPrevious _ Hwf) as Hwc.
  split; [reflexivity|]. split.
  - apply flattenErrors_no_array.
    + rewrite writeNew_writes. apply wf_obj_writes; auto.
      intros q u _ Hs. rewrite isLeaf_array_or_undef in Hs.
      destruct u; auto; discriminate.
    + intros p msgs H. apply writeNew_origin in H; auto.
      apply traversePaths_valueAt in H; auto.
      now apply clearPrevious_no_array in H.
  - intros p msgs Hp. apply writeNew_leaf; auto.
    apply valueAt_traversePaths. now apply clearPrevious_array with (msgs := msgs).
Qed.

Lemma updateErrors_same_object_witness :
  wf_obj (oneHeap 0) = true
  /\ flattenErrors (snd (updateErrors oneHeap 0 0 false) 0) = []
  /\ valueAt (snd (updateErrors oneHeap 0 0 false) 0) ["name"] = Some Undef.
Proof.
  split; [reflexivity|]. split.
  - apply (proj1 (proj2 (@updateErrors_same_object oneHeap 0 eq_refl))).
  - apply (proj2 (proj2 (@updateErrors_same_object oneHeap 0 eq_refl))
             ["name"] ["Too short"]).
    reflexivity.
Defined.

(** ** Untainting *)

Lemma Tainted_isTainted_taintedAt s str :
  String.eqb str EmptyString = false ->
  Tainted_isTainted s (ArgPath str)
  = Tainted__isObjectTainted (taintedAt s (splitPath str)).
Proof.
  intros Hs. unfold Tainted_isTainted, taintedAt, pathExists. rewrite Hs.
  destruct (Tainted_state s) as [t|]; [|reflexivity].
  now destruct (traversePath t (splitPath str)).
Qed.

(** X22: after [Tainted_update] with the policy ['untaint'], no changed
    path is tainted: at every changed path, and below it, the tainted
    tree holds no [true], whatever it held before and wherever the other
    changed paths are; [isTainted] is false for every string that
    [splitPath] turns into a changed path. *)
Theorem Tainted_update_untaints :
  forall (s : Engine) (newData : DataTree) (p : path),
    In p (comparePaths newData (Data_form s)) ->
    Tainted__isObjectTainted
      (taintedAt (Tainted_update s newData Untaint) p) = false
    /\ (forall str,
          String.eqb str EmptyString = false -> splitPath str = p ->
          Tainted_isTainted (Tainted_update s newData Untaint) (ArgPath str)
          = false).
Proof.
  intros s newData p Hin.
  assert (Tainted__isObjectTainted
            (taintedAt (Tainted_update s newData Untaint) p) = false) as H.
  { unfold taintedAt, Tainted_update.
    destruct (comparePaths newData (Data_form s)) as [|q0 ps] eqn:Eps;
      [contradiction|].
    rewrite Tainted_state_setHtmlEvent.
    cbn [Tainted_state withTainted]. cbv beta iota.
    rewrite traversePath_valueOrUndef.
    apply setPaths_untaints; [exact Hin|].
    intros q d _. unfold taintUpdater.
    destruct (negb _); auto. destruct (sameAsClean _ _ _); auto. }
  split; [exact H|].
  intros str Hs Hp. rewrite Tainted_isTainted_taintedAt by assumption.
  now rewrite Hp.
Qed.

Lemma Tainted_update_untaints_witness :
  In ["name"] (comparePaths renamed (Data_form autoEngine))
  /\ Tainted_isTainted autoEngine (ArgPath "name") = true
  /\ Tainted_isTainted (Tainted_update autoEngine renamed Untaint)
       (ArgPath "name") = false.
Proof.
  split; [left; reflexivity|]. split; [reflexivity|].
  apply (proj2 (@Tainted_update_untaints autoEngine renamed ["name"]
                  (or_introl eq_refl)) "name"); reflexivity.
Defined.

(** ** validate *)

Lemma Form_validateDataWith_default s v recheck :
  Form_validateDataWith s (Data_form s) v recheck = Form_validateWith s v recheck.
Proof. reflexivity. Qed.

Lemma Form_validateData_default s adapter :
  Form_validateData s None adapter = Form_validate s adapter.
Proof.
  unfold Form_validateData, Form_validate.
  destruct (match adapter with
            | Some a => Some a
            | None => match validators s with
                      | Validators a => Some a
                      | _ => None
                      end
            end) as [v|]; [|reflexivity].
  rewrite Form_validateDataWith_default.
  pose proof (Form_validateWith_emits s v true) as H1.
  destruct (Form_validateWith s v true) as [s1 [[r|]|e|]]; try reflexivity.
  simpl in H1.
  assert (Data_form s = Data_form s1) as Hd.
  { destruct H1 as [->| ->]; reflexivity. }
  rewrite Hd at 1. rewrite Form_validateDataWith_default. reflexivity.
Qed.

Lemma Data_errors_Form_validate s adapter :
  Data_errors (fst (Form_validate s adapter)) = Data_errors s.
Proof.
  destruct (Form_validate_emits s adapter) as [n [_ ->]].
  apply Data_errors_emits.
Qed.

(** What [Errors.update] leaves when the updater sets one path. *)
Lemma Errors_update_one_path s p v :
  wf_obj (Data_errors s) = true -> p <> [] -> isLeaf v = true ->
  valueAt (Data_errors (Errors_update s (fun e => setPathsTo e [p] v) false)) p
  = Some v
  /\ forall q msgs,
      valueAt (Data_errors s) q = Some (Leaf msgs) ->
      prefixb p q = false -> prefixb q p = false ->
      valueAt (Data_errors (Errors_update s (fun e => setPathsTo e [p] v) false)) q
      = Some (Leaf msgs).
Proof.
  intros Hwf Hp Hv.
  change (Data_errors (Errors_update s (fun e => setPathsTo e [p] v) false))
    with (writeNew (setPathsTo (Data_errors s) [p] v)
            (clearPrevious (Data_errors s))).
  assert (wf_obj (setPathsTo (Data_errors s) [p] v) = true) as Hwn.
  { rewrite setPathsTo_single. apply wf_obj_setPath; auto.
    intros _. now destruct v. }
  split.
  - apply writeNew_leaf; auto.
    apply valueAt_traversePaths. now apply valueAt_setPathsTo_same.
  - intros q msgs Hq H1 H2. apply writeNew_leaf; auto.
    apply valueAt_traversePaths.
    rewrite setPathsTo_single, valueAt_setPath_frame; auto.
Qed.

(** X23: [validate(path)] shows the error of that path and touches no
    other.  With [options.validators] set, no [value] option and
    [update] left out, [true] or ['errors'], the call resolves to the
    error [Form_validate] finds at the path, [opts.errors] in its place
    if given, or to [undefined] if there is none; when that is an array
    or [undefined], the error store holds it at the path afterwards,
    whatever the display rules would say, and every array of the store at
    a path apart from it is kept. *)
Theorem validatePath_updates_one_error :
  forall (s : Engine) (path : string) (opts : ValidateOptions)
         (result : SuperValidated),
    validators s <> NoValidators ->
    valueOpt opts = None ->
    updateOpt opts = None \/ updateOpt opts = Some UpdateAll
    \/ updateOpt opts = Some UpdateErrors ->
    wf_obj (Data_errors s) = true ->
    splitPath path <> [] ->
    snd (Form_validate s None) = Ok result ->
    isLeaf (errorValue (errors result) (splitPath path) (errorsOpt opts)) = true ->
    snd (validatePath s path opts)
    = Ok (errorValue (errors result) (splitPath path) (errorsOpt opts))
    /\ valueAt (Data_errors (fst (validatePath s path opts))) (splitPath path)
       = Some (errorValue (errors result) (splitPath path) (errorsOpt opts))
    /\ (forall q msgs,
          valueAt (Data_errors s) q = Some (Leaf msgs) ->
          prefixb (splitPath path) q = false ->
          prefixb q (splitPath path) = false ->
          valueAt (Data_errors (fst (validatePath s path opts))) q
          = Some (Leaf msgs))
    /\ Data_form (fst (validatePath s path opts)) = Data_form s
    /\ Tainted_state (fst (validatePath s path opts)) = Tainted_state s.
Proof.
  intros s path opts result Hv Hval Hup Hwf Hp Hr Hleaf.
  pose proof (keepsData_Form_validate s None) as [K1 [K2 _]].
  pose proof (Data_errors_Form_validate s None) as KE.
  assert (validatePath s path opts
          = (Errors_update (fst (Form_validate s None))
               (fun e =>
                  setPathsTo e [splitPath path]
                    (errorValue (errors result) (splitPath path) (errorsOpt opts)))
               false,
             Ok (errorValue (errors result) (splitPath path) (errorsOpt opts))))
    as ->.
  { unfold validatePath. rewrite Hval. cbv zeta.
    rewrite Form_validateData_default.
    destruct (Form_validate s None) as [s2 r]. simpl in Hr. subst r.
    simpl fst.
    destruct (validators s); [contradiction| |];
      destruct Hup as [->|[->| ->]]; reflexivity. }
  cbn [fst snd].
  destruct (@Errors_update_one_path (fst (Form_validate s None)) (splitPath path)
              (errorValue (errors result) (splitPath path) (errorsOpt opts)))
    as [E1 E2]; auto.
  { now rewrite KE. }
  split; [reflexivity|]. split; [exact E1|]. split.
  - intros q msgs Hq. apply E2. now rewrite KE.
  - split; [exact K1|exact K2].
Qed.

Lemma validatePath_updates_one_error_witness :
  validators onBlurEngine <> NoValidators
  /\ wf_obj (Data_errors onBlurEngine) = true
  /\ snd (validatePath onBlurEngine "name" noOptions) = Ok (Leaf ["Too short"])
  /\ valueAt (Data_errors (fst (validatePath onBlurEngine "name" noOptions)))
       ["name"] = Some (Leaf ["Too short"]).
Proof.
  split; [discriminate|]. split; [reflexivity|].
  destruct (@validatePath_updates_one_error onBlurEngine "name" noOptions
              (mkValidated false [("name", Leaf ["Too short"])]
                 (spread (Data_form onBlurEngine) (Data_form onBlurEngine))))
    as [H1 [H2 _]];
    try reflexivity; try discriminate; [now left|].
  split; [exact H1|exact H2].
Defined.

(** ** Clearing instead of validating *)

Lemma wf_obj_setPaths {A : Type} (f : path -> PathData (A:=A) -> tree A) l :
  forall o,
    wf_obj o = true -> (forall q d, wf_tree (f q d) = true) ->
    wf_obj (setPaths o l f) = true.
Proof.
  induction l as [|q l IH]; intros o Hwf Hf; [exact Hwf|].
  rewrite setPaths_cons. apply IH; auto. apply wf_obj_setPath; auto.
Qed.

(** X24: with [options.validators] set to ['clear'], a change event
    clears the errors of its paths and nothing else: after
    [Form_clientValidation] the error store holds [undefined] at every
    path of the event that the other paths of the event are apart from,
    every array at a path apart from all paths of the event is kept, the
    validator is not called and the call resolves to [undefined]. *)
Theorem clientValidation_clear :
  forall (s : Engine) (ev : ChangeEvent) (force : bool)
         (adapter : option Adapter),
    validators s = ClearValidators ->
    wf_obj (Data_errors s) = true ->
    notValidated
      (Errors_update s (fun e => setPathsTo e (paths ev) Undef) false)
      (Form_clientValidation s (Some ev) force adapter)
    /\ (forall p,
          In p (paths ev) -> p <> [] -> aloneAmong p (paths ev) = true ->
          valueAt (Data_errors (fst (Form_clientValidation s (Some ev) force adapter)))
            p = Some Undef)
    /\ (forall q msgs,
          valueAt (Data_errors s) q = Some (Leaf msgs) ->
          apartFromAll q (paths ev) = true ->
          valueAt (Data_errors (fst (Form_clientValidation s (Some ev) force adapter)))
            q = Some (Leaf msgs)).
Proof.
  intros s ev force adapter Hv Hwf.
  set (s0 := Errors_update s (fun e => setPathsTo e (paths ev) Undef) false).
  assert (exists extra,
             Form_clientValidation s (Some ev) force adapter
             = (emits s0 extra, Ok None)
             /\ forallb isBookkeeping extra = true) as [extra [-> Hb]].
  { unfold Form_clientValidation. rewrite Hv. fold s0.
    rewrite orb_true_r.
    destruct (formElement ev) as [el|]; [|destruct (EnhancedForm s) as [el|]].
    - exists [ChangeEventTimer ev; ClearCustomValidity el (paths ev)].
      now split.
    - exists [ChangeEventTimer ev; ClearCustomValidity el (paths ev)].
      now split.
    - exists [ChangeEventTimer ev]. now split. }
  cbn [fst snd]. rewrite Data_errors_emits.
  change (Data_errors s0)
    with (writeNew (setPathsTo (Data_errors s) (paths ev) Undef)
            (clearPrevious (Data_errors s))).
  assert (wf_obj (setPathsTo (Data_errors s) (paths ev) Undef) = true) as Hwn.
  { unfold setPathsTo. apply wf_obj_setPaths; auto. }
  split; [|split].
  - unfold notValidated. cbn [fst snd]. rewrite Data_errors_emits.
    split; [reflexivity|]. split; [reflexivity|].
    exists extra. split; [apply log_emits|exact Hb].
  - intros p Hin Hp Ha. apply writeNew_leaf; auto.
    apply valueAt_traversePaths. unfold setPathsTo.
    apply setPaths_target; auto. now apply aloneAmong_spec.
  - intros q msgs Hq Ha. apply writeNew_leaf; auto.
    apply valueAt_traversePaths. unfold setPathsTo.
    rewrite setPaths_frame; auto. now apply apartFromAll_spec.
Qed.

Lemma clientValidation_clear_witness :
  validators clearingEngine = ClearValidators
  /\ wf_obj (Data_errors clearingEngine) = true
  /\ valueAt (Data_errors
               (fst (Form_clientValidation clearingEngine (Some nameInput)
                       false None))) ["name"] = Some Undef
  /\ valueAt (Data_errors
               (fst (Form_clientValidation clearingEngine (Some nameInput)
                       false None))) ["email"] = Some (Leaf ["Required"]).
Proof.
  split; [reflexivity|]. split; [reflexivity|]. split.
  - apply (proj1 (proj2 (@clientValidation_clear clearingEngine nameInput false
                           None eq_refl eq_refl)) ["name"]).
    + left. reflexivity.
    + discriminate.
    + reflexivity.
  - apply (proj2 (proj2 (@clientValidation_clear clearingEngine nameInput false
                           None eq_refl eq_refl)) ["email"] ["Required"]);
      reflexivity.
Defined.
